(** * kobo-highlights: export pipeline, shallow embedding

    The Go program reads highlight rows from a Kobo SQLite database, groups
    them by book ([fetchBooks]) and hands the books to an exporter: Markdown
    files ([MarkdownFormat.Export], [sanitizeFilename]) or Notion pages
    ([NotionFormat.Export], [EnsureBookPage]).

    Go strings are byte sequences: they are [string] here ([ascii] is one
    byte), and the functions of Go's [strings], [unicode] and [unicode/utf8]
    packages that the program calls are modelled on [list ascii]. *)

From Stdlib Require Import Ascii String NArith ZArith Lia.
From stdpp Require Import gmap strings list sorting.
From Equations Require Import Equations.
From stdpp Require Import pretty.

Abbreviation bytes := (list ascii).
Abbreviation str := string_of_list_ascii.
Abbreviation bts := list_ascii_of_string.

(** ** unicode/utf8 *)

Definition byte_val (c : ascii) : N := N_of_ascii c.

Definition RuneError : N := 0xFFFD.
Definition RuneSelf : N := 0x80.
Definition locb : N := 0x80.
Definition hicb : N := 0xBF.

Definition in_range (lo hi : N) (c : ascii) : bool :=
  ((lo <=? byte_val c) && (byte_val c <=? hi))%N.

(** [utf8.RuneStart]: the byte is not a continuation byte. *)
Definition utf8_RuneStart (c : ascii) : bool :=
  negb (N.land (byte_val c) 0xC0 =? 0x80)%N.

(** The tables [first] and [acceptRanges] of unicode/utf8, for a first byte
    that is not ASCII: the length of the sequence and the range accepted for
    its second byte; [None] is the table's [xx] (invalid first byte). *)
Definition utf8_first (s0 : N) : option (nat * N * N) :=
  if (s0 <? 0xC2)%N then None
  else if (s0 <? 0xE0)%N then Some (2, locb, hicb)
  else if (s0 =? 0xE0)%N then Some (3, 0xA0%N, hicb)
  else if (s0 <? 0xED)%N then Some (3, locb, hicb)
  else if (s0 =? 0xED)%N then Some (3, locb, 0x9F%N)
  else if (s0 <? 0xF0)%N then Some (3, locb, hicb)
  else if (s0 =? 0xF0)%N then Some (4, 0x90%N, hicb)
  else if (s0 <? 0xF4)%N then Some (4, locb, hicb)
  else if (s0 =? 0xF4)%N then Some (4, locb, 0x8F%N)
  else None.

Definition rune2 (s0 s1 : N) : N :=
  N.lor (N.shiftl (N.land s0 0x1F) 6) (N.land s1 0x3F).
Definition rune3 (s0 s1 s2 : N) : N :=
  N.lor (N.lor (N.shiftl (N.land s0 0x0F) 12) (N.shiftl (N.land s1 0x3F) 6))
        (N.land s2 0x3F).
Definition rune4 (s0 s1 s2 s3 : N) : N :=
  N.lor (N.lor (N.lor (N.shiftl (N.land s0 0x07) 18)
                      (N.shiftl (N.land s1 0x3F) 12))
               (N.shiftl (N.land s2 0x3F) 6))
        (N.land s3 0x3F).

(** [utf8.DecodeRuneInString]: the first rune of [s] and its width in bytes;
    [(RuneError, 0)] on the empty string, [(RuneError, 1)] on an invalid or
    truncated sequence. *)
Definition utf8_DecodeRune (s : bytes) : N * nat :=
  match s with
  | [] => (RuneError, 0)
  | c0 :: t =>
    let s0 := byte_val c0 in
    if (s0 <? RuneSelf)%N then (s0, 1)
    else match utf8_first s0 with
    | None => (RuneError, 1)
    | Some (sz, lo, hi) =>
      match t with
      | [] => (RuneError, 1)
      | c1 :: t1 =>
        if negb (in_range lo hi c1) then (RuneError, 1)
        else if sz <=? 2 then (rune2 s0 (byte_val c1), 2)
        else match t1 with
        | [] => (RuneError, 1)
        | c2 :: t2 =>
          if negb (in_range locb hicb c2) then (RuneError, 1)
          else if sz <=? 3 then (rune3 s0 (byte_val c1) (byte_val c2), 3)
          else match t2 with
          | [] => (RuneError, 1)
          | c3 :: _ =>
            if negb (in_range locb hicb c3) then (RuneError, 1)
            else (rune4 s0 (byte_val c1) (byte_val c2) (byte_val c3), 4)
          end
        end
      end
    end
  end.

(** The backward scan of [utf8.DecodeLastRuneInString]:
    [for start--; start >= lim; start-- { if RuneStart(s[start]) { break } }],
    entered with [start] already decremented; it runs at most [UTFMax] times. *)
Fixpoint scan_back (n : nat) (s : bytes) (start lim : Z) : Z :=
  match n with
  | O => start
  | S n' =>
    if (start <? lim)%Z then start
    else if utf8_RuneStart (default "000"%char (s !! Z.to_nat start)) then start
    else scan_back n' s (start - 1) lim
  end.

(** [utf8.DecodeLastRuneInString]. *)
Definition utf8_DecodeLastRune (s : bytes) : N * nat :=
  let end_ := Z.of_nat (length s) in
  match last s with
  | None => (RuneError, 0)
  | Some c =>
    if (byte_val c <? RuneSelf)%N then (byte_val c, 1)
    else
      let lim := Z.max 0 (end_ - 4) in
      let start := scan_back 4 s (end_ - 2) lim in
      let start := Z.max 0 start in
      let '(r, size) := utf8_DecodeRune (drop (Z.to_nat start) s) in
      if (start + Z.of_nat size =? end_)%Z then (r, size) else (RuneError, 1)
  end.

(** ** unicode *)

(** [unicode.IsSpace]: the Latin-1 switch, then the White_Space table. *)
Definition unicode_IsSpace (r : N) : bool :=
  if (r <=? 0xFF)%N then
    ((0x09 <=? r) && (r <=? 0x0D) || (r =? 0x20) || (r =? 0x85) || (r =? 0xA0))%N
  else
    ((r =? 0x1680) || (0x2000 <=? r) && (r <=? 0x200A) || (r =? 0x2028)
     || (r =? 0x2029) || (r =? 0x202F) || (r =? 0x205F) || (r =? 0x3000))%N.

(** ** Iterating a string: [for i, r := range s]

    Each iteration is represented by the rune [r] and the bytes
    [s[i:i+width]] it was decoded from; a slice of [s] between two iteration
    points is the concatenation of the groups in between. [skip] counts the
    bytes of the current rune still to pass over. *)
Fixpoint range_go (skip : nat) (s : bytes) : list (N * bytes) :=
  match s with
  | [] => []
  | _ :: t =>
    match skip with
    | S k => range_go k t
    | O => let '(r, sz) := utf8_DecodeRune s in
           (r, take sz s) :: range_go (sz - 1) t
    end
  end.

Definition range_string (s : bytes) : list (N * bytes) := range_go 0 s.

(** ** strings *)

(** [strings.FieldsFunc]: [cur] is the span opened at [start] ([None] when
    [start < 0]). *)
Fixpoint fields_go (f : N → bool) (cur : option bytes) (rs : list (N * bytes))
  : list bytes :=
  match rs with
  | [] => match cur with Some w => [w] | None => [] end
  | (r, bs) :: rs' =>
    if f r then
      match cur with
      | Some w => w :: fields_go f None rs'
      | None => fields_go f None rs'
      end
    else fields_go f (Some (default [] cur ++ bs)) rs'
  end.

Definition FieldsFunc (s : bytes) (f : N → bool) : list bytes :=
  fields_go f None (range_string s).

(** [strings.Fields]: split around runs of white space. *)
Definition Fields_bytes (s : bytes) : list bytes := FieldsFunc s unicode_IsSpace.

(** [strings.TrimLeftFunc]: [s[i:]] for the first rune, at [i], that [f]
    rejects; the empty string when there is none. *)
Fixpoint trim_left_go (f : N → bool) (rs : list (N * bytes)) : bytes :=
  match rs with
  | [] => []
  | (r, bs) :: rs' => if f r then trim_left_go f rs' else concat (snd <$> rs)
  end.

Definition TrimLeftFunc (s : bytes) (f : N → bool) : bytes :=
  trim_left_go f (range_string s).

(** [strings.lastIndexFunc s f false]: the index of the last rune, decoding
    backwards, that [f] rejects; [None] is Go's [-1]. The loop
    [for i := len(s); i > 0;] removes at least one byte per round. *)
Fixpoint lastIndexFunc_go (n : nat) (s : bytes) (f : N → bool) (i : nat)
  : option nat :=
  match n with
  | O => None
  | S n' =>
    if decide (i = 0) then None
    else
      let '(r, size) := utf8_DecodeLastRune (take i s) in
      let i := i - size in
      if f r then lastIndexFunc_go n' s f i else Some i
  end.

Definition lastIndexFunc (s : bytes) (f : N → bool) : option nat :=
  lastIndexFunc_go (length s) s f (length s).

(** [strings.TrimRightFunc]. *)
Definition TrimRightFunc (s : bytes) (f : N → bool) : bytes :=
  match lastIndexFunc s f with
  | Some i =>
    if (RuneSelf <=? byte_val (default "000"%char (s !! i)))%N
    then take (i + snd (utf8_DecodeRune (drop i s))) s
    else take (i + 1) s
  | None => take 0 s
  end.

(** [strings.TrimSpace]: [TrimFunc(s, unicode.IsSpace)]. *)
Definition TrimSpace_bytes (s : bytes) : bytes :=
  TrimRightFunc (TrimLeftFunc s unicode_IsSpace) unicode_IsSpace.

Definition strings_TrimSpace (s : string) : string := str (TrimSpace_bytes (bts s)).

Definition strings_Fields (s : string) : list string := str <$> Fields_bytes (bts s).

(** [strings.Join]. *)
Definition strings_Join (elems : list string) (sep : string) : string :=
  String.concat sep elems.

(** [strings.NewReplacer(oldnew...).Replace] when every [old] is a single
    byte: each byte of [s] is replaced by the [new] of the first pair whose
    [old] it is, and kept when there is none. *)
Fixpoint replacer_lookup (oldnew : list (ascii * string)) (c : ascii) : option string :=
  match oldnew with
  | [] => None
  | (o, n) :: rest => if decide (o = c) then Some n else replacer_lookup rest c
  end.

Definition Replacer_bytes (oldnew : list (ascii * string)) (s : bytes) : bytes :=
  c ← s; match replacer_lookup oldnew c with Some n => bts n | None => [c] end.

Definition Replacer_Replace (oldnew : list (ascii * string)) (s : string) : string :=
  str (Replacer_bytes oldnew (bts s)).

(** [strings.ReplaceAll s old new] for a one-byte [old]. *)
Definition strings_ReplaceAll (s : string) (old : ascii) (new : string) : string :=
  Replacer_Replace [(old, new)] s.

(** ** formats: domain structs *)

Record Highlight := mkHighlight { Text : string; Date : string }.

Record Book := mkBook { Title : string; Author : string; Highlights : list Highlight }.

(** ** formats: Markdown *)

Definition quote_char : ascii := "034"%char.
Definition nl : string := String "010"%char EmptyString.

Definition sanitize_table : list (ascii * string) :=
  [ ("/"%char, "-"); ("\"%char, "-"); (":"%char, "-"); ("*"%char, "-");
    ("?"%char, EmptyString); (quote_char, EmptyString);
    ("<"%char, EmptyString); (">"%char, EmptyString); ("|"%char, "-") ].

Definition sanitizeFilename (s : string) : string :=
  let s := strings_TrimSpace s in
  let s := Replacer_Replace sanitize_table s in
  let s := strings_Join (strings_Fields s) "-" in
  if decide (s = EmptyString) then "book" else s.

(** [MarkdownFormat.Export] and the file system it writes to: a map from
    paths to file contents. [filepath_Join] and the outcomes of the system
    calls are the environment's. Writes to an open file are taken to succeed
    (the program ignores the result of [fmt.Fprintf]). *)
Record OS := {
  filepath_Join : string → string → string;
  MkdirAll_fails : string → bool;
  Create_fails : string → bool;
  Close_fails : string → bool
}.

Abbreviation FS := (gmap string string).

Inductive md_error :=
| ErrEmptyDirectory
| ErrCreateDir
| ErrCreateFile (path : string)
| ErrCloseFile (path : string).

(** [os.Create]: the file is created or truncated. *)
Definition os_Create (fs : FS) (path : string) : FS := <[path := EmptyString]> fs.

(** [fmt.Fprintf(f, ...)] on the file opened at [path]. *)
Definition Fprintf (fs : FS) (path : string) (data : string) : FS :=
  alter (λ c, c +:+ data) path fs.

Definition markdown_filename (b : Book) : string :=
  let filename := sanitizeFilename (Title b) in
  if decide (Author b ≠ EmptyString)
  then sanitizeFilename (Title b +:+ "-" +:+ Author b)
  else filename.

Definition markdown_path (os : OS) (Dir : string) (b : Book) : string :=
  filepath_Join os Dir (markdown_filename b +:+ ".md").

Definition write_highlight (path : string) (fs : FS) (h : Highlight) : FS :=
  let text := strings_TrimSpace (Text h) in
  if decide (text = EmptyString) then fs
  else Fprintf fs path ("> " +:+ strings_ReplaceAll text "010"%char " " +:+ nl +:+ nl).

(** The body of the loop over [books]. *)
Definition export_book (os : OS) (Dir : string) (fs : FS) (b : Book)
  : FS * option md_error :=
  let path := markdown_path os Dir b in
  if Create_fails os path then (fs, Some (ErrCreateFile path))
  else
    let fs := os_Create fs path in
    let fs :=
      if decide (Author b ≠ EmptyString)
      then Fprintf fs path ("# " +:+ Title b +:+ " (" +:+ Author b +:+ ")" +:+ nl +:+ nl)
      else Fprintf fs path ("# " +:+ Title b +:+ nl +:+ nl) in
    let fs := foldl (write_highlight path) fs (Highlights b) in
    if Close_fails os path then (fs, Some (ErrCloseFile path)) else (fs, None).

Fixpoint export_books (os : OS) (Dir : string) (fs : FS) (books : list Book)
  : FS * option md_error :=
  match books with
  | [] => (fs, None)
  | b :: books' =>
    match export_book os Dir fs b with
    | (fs', Some e) => (fs', Some e)
    | (fs', None) => export_books os Dir fs' books'
    end
  end.

Definition MarkdownFormat_Export (os : OS) (Dir : string) (fs : FS) (books : list Book)
  : FS * option md_error :=
  if decide (Dir = EmptyString) then (fs, Some ErrEmptyDirectory)
  else if MkdirAll_fails os Dir then (fs, Some ErrCreateDir)
  else export_books os Dir fs books.

(** The file content the specification describes for a book: the heading,
    then a quote paragraph for every highlight whose trimmed text is not
    empty. *)
Definition spec_heading (b : Book) : string :=
  match Author b with
  | EmptyString => "# " +:+ Title b
  | _ => "# " +:+ Title b +:+ " (" +:+ Author b +:+ ")"
  end +:+ nl +:+ nl.

Definition spec_quote (text : string) : string :=
  "> " +:+ strings_ReplaceAll text "010"%char " " +:+ nl +:+ nl.

Definition spec_content (b : Book) : string :=
  spec_heading b +:+
  String.concat EmptyString
    (spec_quote <$>
      filter (λ t, t ≠ EmptyString) (strings_TrimSpace ∘ Text <$> Highlights b)).

(** ** formats: Notion *)

(** [truncateForLog]; [max] is never negative at the call sites (200, 300). *)
Definition truncateForLog (s : string) (max : nat) : string :=
  if decide (String.length s ≤ max) then s
  else if decide (max < 3) then str (take max (bts s))
  else str (take (max - 3) (bts s)) +:+ "...".

(** The value of a page property in a create request. *)
Inductive PropValue :=
| TitleProp (content : string)
| RichTextProp (content : string).

(** The content blocks of an append request. *)
Inductive Block :=
| QuoteBlock (content : string)
| ParagraphBlock.

(** The four requests the client sends: GET /v1/databases/<id>,
    POST /v1/databases/<id>/query (page size 1, filter [property] equals
    [title]), POST /v1/pages and PATCH /v1/blocks/<id>/children. *)
Inductive Request :=
| GetDatabase (databaseID : string)
| QueryDatabase (databaseID property title : string)
| CreatePage (databaseID : string) (properties : gmap string PropValue)
| AppendChildren (pageID : string) (children : list Block).

Record Response := mkResponse { StatusCode : Z; Status : string; Body : string }.

(** What [httpClient.Do] returns: an error or a response. *)
Inductive Outcome :=
| DoFailed
| Reply (resp : Response).

(** The environment of the client. [server] answers a request, knowing the
    requests sent before it; [url_ok id] says that [http.NewRequest] accepts
    the URL built around [id] (the URL of a create request is a constant and
    is always accepted); the three decoders are [json.Decoder.Decode] into
    the three response structs, [None] on a decoding error.
    [json_database] lists the properties (name, type) in the order in which
    the program's loop over the decoded map visits them. *)
Record NotionEnv := {
  server : list Request → Request → Outcome;
  url_ok : string → bool;
  json_database : string → option (list (string * string));
  json_query : string → option nat;
  json_page : string → option string
}.

Record NotionClient := mkClient {
  token : string;
  databaseID : string;
  titlePropName : string;
  resolvedTitle : bool
}.

Definition NewNotionClient (token databaseID : string) : NotionClient :=
  mkClient token databaseID "Title" false.

(** The state threaded through the client's methods: the client's fields and
    the requests sent so far. *)
Definition NState : Type := NotionClient * list Request.

Inductive http_error := BuildRequestError | TransportError.

Inductive query_error :=
| ErrQueryHttp (e : http_error)
| ErrQueryAPI (status snippet : string)
| ErrDecodeQuery.

Inductive notion_error :=
| ErrCheckExisting (e : query_error)
| ErrPerformCreate
| ErrRetryCreate
| ErrCreatePage (status snippet : string)
| ErrDecodeCreate
| ErrNoPageID
| ErrAppendHttp (e : http_error)
| ErrAppend (status snippet : string).

Inductive resolve_error :=
| ErrResolveHttp (e : http_error)
| ErrFetchDatabase (status : string)
| ErrDecodeDatabase.

Inductive export_error :=
| ErrNilClient
| ErrNotionExport (title : string) (e : notion_error).

(** [httpClient.Do]: the request is sent, and recorded in the history. *)
Definition http_Do (env : NotionEnv) (hist : list Request) (req : Request)
  : Outcome * list Request :=
  (server env hist req, hist ++ [req]).

(** [http.NewRequest] on a URL built around [id], then [httpClient.Do]. *)
Definition http_request (env : NotionEnv) (id : string) (req : Request)
  (hist : list Request) : (http_error + Response) * list Request :=
  if url_ok env id then
    match http_Do env hist req with
    | (DoFailed, hist') => (inl TransportError, hist')
    | (Reply resp, hist') => (inr resp, hist')
    end
  else (inl BuildRequestError, hist).

(** The loop over [db.Properties]: stop at the first property of type
    [title]. *)
Definition title_property (props : list (string * string)) : option string :=
  fst <$> head (filter (λ p, snd p = "title") props).

Definition resolveTitlePropertyName (env : NotionEnv) (st : NState)
  : option resolve_error * NState :=
  let '(n, hist) := st in
  match http_request env (databaseID n) (GetDatabase (databaseID n)) hist with
  | (inl e, hist) => (Some (ErrResolveHttp e), (n, hist))
  | (inr resp, hist) =>
    if (300 <=? StatusCode resp)%Z then (Some (ErrFetchDatabase (Status resp)), (n, hist))
    else match json_database env (Body resp) with
    | None => (Some ErrDecodeDatabase, (n, hist))
    | Some props =>
      let name :=
        match title_property props with
        | Some name => if decide (name ≠ "Title") then name else titlePropName n
        | None => titlePropName n
        end in
      (None, (mkClient (token n) (databaseID n) name true, hist))
    end
  end.

(** [if !n.resolvedTitle { _ = n.resolveTitlePropertyName() }] *)
Definition ensure_resolved (env : NotionEnv) (st : NState) : NState :=
  if resolvedTitle st.1 then st else (resolveTitlePropertyName env st).2.

Definition pageExistsByTitle (env : NotionEnv) (title : string) (st : NState)
  : (query_error + bool) * NState :=
  let '(n, hist) := ensure_resolved env st in
  match http_request env (databaseID n)
          (QueryDatabase (databaseID n) (titlePropName n) title) hist with
  | (inl e, hist) => (inl (ErrQueryHttp e), (n, hist))
  | (inr resp, hist) =>
    if (300 <=? StatusCode resp)%Z
    then (inl (ErrQueryAPI (Status resp) (truncateForLog (Body resp) 200)), (n, hist))
    else match json_query env (Body resp) with
    | None => (inl ErrDecodeQuery, (n, hist))
    | Some results => (inr (bool_decide (0 < results)), (n, hist))
    end
  end.

Definition notionTitle (title author : string) : string :=
  if decide (author ≠ EmptyString) then title +:+ " (" +:+ author +:+ ")" else title.

Definition page_properties (n : NotionClient) (title author : string)
  : gmap string PropValue :=
  let props := {[ titlePropName n := TitleProp (notionTitle title author) ]} in
  if decide (author ≠ EmptyString) then <["Author" := RichTextProp author]> props
  else props.

(** Lines 68 to 115 of [EnsureBookPage]: create the page, once more without
    the Author property after a 400, and read the page id. *)
Definition create_page (env : NotionEnv) (title author : string) (st : NState)
  : (notion_error + string) * NState :=
  let '(n, hist) := st in
  let props := page_properties n title author in
  match http_Do env hist (CreatePage (databaseID n) props) with
  | (DoFailed, hist) => (inl ErrPerformCreate, (n, hist))
  | (Reply resp, hist) =>
    let retried :=
      if decide (StatusCode resp = 400%Z ∧ author ≠ EmptyString) then
        match http_Do env hist (CreatePage (databaseID n) (delete "Author" props)) with
        | (DoFailed, hist) => (None, hist)
        | (Reply resp, hist) => (Some resp, hist)
        end
      else (Some resp, hist) in
    match retried with
    | (None, hist) => (inl ErrRetryCreate, (n, hist))
    | (Some resp, hist) =>
      if (300 <=? StatusCode resp)%Z
      then (inl (ErrCreatePage (Status resp) (truncateForLog (Body resp) 300)), (n, hist))
      else match json_page env (Body resp) with
      | None => (inl ErrDecodeCreate, (n, hist))
      | Some pageID =>
        if decide (pageID = EmptyString) then (inl ErrNoPageID, (n, hist))
        else (inr pageID, (n, hist))
      end
    end
  end.

(** Lines 116 to 126: a quote block per highlight, a blank paragraph after
    each but the last. *)
Definition highlight_blocks (highlights : list string) : list Block :=
  foldl (λ blocks ih,
           let blocks := blocks ++ [QuoteBlock ih.2] in
           if decide (ih.1 < length highlights - 1)
           then blocks ++ [ParagraphBlock]
           else blocks)
        [] (imap pair highlights).

(** Lines 127 to 155: the loop [for i := 0; i < len(blocks); i += 100]. *)
Equations? append_loop (env : NotionEnv) (pageID : string) (blocks : list Block)
  (i : nat) (st : NState) : option notion_error * NState
  by wf (length blocks - i) lt :=
  append_loop env pageID blocks i st with decide (i < length blocks) := {
    | right _ => (None, st)
    | left _ =>
      let end_ := i + 100 in
      let end_ := if decide (length blocks < end_) then length blocks else end_ in
      let batch := take (end_ - i) (drop i blocks) in
      match http_request env pageID (AppendChildren pageID batch) st.2 with
      | (inl e, hist) => (Some (ErrAppendHttp e), (st.1, hist))
      | (inr resp, hist) =>
        if (300 <=? StatusCode resp)%Z
        then (Some (ErrAppend (Status resp) (truncateForLog (Body resp) 300)),
              (st.1, hist))
        else append_loop env pageID blocks (i + 100) (st.1, hist)
      end }.
Proof. lia. Qed.

(** [NotionClient.EnsureBookPage] on a client that is not nil. *)
Definition EnsureBookPage (env : NotionEnv) (title author : string)
  (highlights : list string) (st : NState) : option notion_error * NState :=
  let st := ensure_resolved env st in
  match pageExistsByTitle env (notionTitle title author) st with
  | (inl e, st) => (Some (ErrCheckExisting e), st)
  | (inr true, st) => (None, st)
  | (inr false, st) =>
    match create_page env title author st with
    | (inl e, st) => (Some e, st)
    | (inr pageID, st) => append_loop env pageID (highlight_blocks highlights) 0 st
    end
  end.

(** The loop of [NotionFormat.Export]. *)
Fixpoint export_pages (env : NotionEnv) (books : list Book) (st : NState)
  : option export_error * NState :=
  match books with
  | [] => (None, st)
  | b :: books' =>
    let highlights := Text <$> Highlights b in
    match EnsureBookPage env (Title b) (Author b) highlights st with
    | (Some e, st) => (Some (ErrNotionExport (Title b) e), st)
    | (None, st) => export_pages env books' st
    end
  end.

(** [NotionFormat.Export]; [None] is a nil [Client]. *)
Definition NotionFormat_Export (env : NotionEnv) (Client : option NotionClient)
  (books : list Book) (hist : list Request)
  : option export_error * option NotionClient * list Request :=
  match Client with
  | None => (Some ErrNilClient, None, hist)
  | Some n =>
    let '(r, (n, hist)) := export_pages env books (n, hist) in (r, Some n, hist)
  end.

(** ** main: the query and the grouping of [fetchBooks] *)

(** SQLite's [TRIM(X)]: spaces (0x20, nothing else) removed from both ends. *)
Fixpoint trim_spaces_left (s : bytes) : bytes :=
  match s with
  | c :: t => if decide (c = " "%char) then trim_spaces_left t else s
  | [] => []
  end.

Definition sql_TRIM (s : string) : string :=
  str (reverse (trim_spaces_left (reverse (trim_spaces_left (bts s))))).

(** SQLite's [LENGTH(X)] on text: the characters before the first NUL; the
    continuation bytes that follow a byte of 0xC0 or more are not counted. *)
Fixpoint sql_length_go (skipping : bool) (s : bytes) : nat :=
  match s with
  | [] => 0
  | c :: t =>
    if (byte_val c =? 0)%N then 0
    else if skipping && in_range locb hicb c then sql_length_go true t
    else S (sql_length_go (0xC0 <=? byte_val c)%N t)
  end.

Definition sql_LENGTH (s : string) : nat := sql_length_go false (bts s).

(** A row of [Bookmark b JOIN content c ON c.ContentID = b.VolumeID], with
    the columns the query reads; [None] is NULL. *)
Record Row := mkRow {
  c_Title : option string;
  c_Attribution : option string;
  b_Text : option string;
  b_DateCreated : option string
}.

(** [WHERE b.Text IS NOT NULL AND LENGTH(TRIM(b.Text)) > 0] *)
Definition where_clause (r : Row) : bool :=
  match b_Text r with
  | None => false
  | Some text => bool_decide (0 < sql_LENGTH (sql_TRIM text))
  end.

(** [SELECT c.Title, COALESCE(c.Attribution, ''), b.Text, b.DateCreated] *)
Definition SqlRow : Type := option string * option string * option string * option string.

Definition select_columns (r : Row) : SqlRow :=
  (c_Title r, Some (default EmptyString (c_Attribution r)), b_Text r, b_DateCreated r).

(** [rows.Scan(&title, &author, &text, &date)]: NULL does not convert to a
    Go string. *)
Definition Scan (row : SqlRow) : option (string * string * string * string) :=
  match row with
  | (Some title, Some author, Some text, Some date) => Some (title, author, text, date)
  | _ => None
  end.

Inductive StatResult := StatNotExist | StatFailed | StatSize (size : Z).

Inductive SchemaCheck := BookmarkFound | BookmarkMissing | SchemaCheckFailed.

(** The database file as the program sees it. [joined_rows] lists the rows of
    the join in the order of the query's ORDER BY clause. [Query_fails limit]
    and [rows_Err limit] say whether [db.Query] and [rows.Err] report an
    error for the [limit] given: with a positive limit the program runs
    another statement ([LIMIT ?]) and iterates over fewer rows. Logging and
    the [debug] flag are not modelled. *)
Record Database := {
  os_Stat : StatResult;
  sql_Open_fails : bool;
  schema_check : SchemaCheck;
  table_names : list string;
  joined_rows : list Row;
  Query_fails : Z → bool;
  rows_Err : Z → bool
}.

Inductive fetch_error :=
| ErrNotFound
| ErrStat
| ErrOpen
| ErrBookmarkTable (available : list string)
| ErrInspectSchema
| ErrQuery
| ErrRowIteration
| PanicNilBook.

(** [db.Query(baseQuery + " LIMIT ?", limit)] when [limit > 0],
    [db.Query(baseQuery)] otherwise. *)
Definition run_query (db : Database) (limit : Z) : list SqlRow :=
  let selected := select_columns <$> filter (λ r, where_clause r = true) (joined_rows db) in
  if decide (0 < limit)%Z then take (Z.to_nat limit) selected else selected.

(** The body of [for rows.Next()]: a row that does not scan is skipped. *)
Definition group_row (st : gmap string Book * list string) (row : SqlRow)
  : gmap string Book * list string :=
  match Scan row with
  | None => st
  | Some (title, author, text, date) =>
    let '(grouped, order) := st in
    let '(grouped, order) :=
      match grouped !! title with
      | Some _ => (grouped, order)
      | None => (<[title := mkBook title author []]> grouped, order ++ [title])
      end in
    (alter (λ b, mkBook (Title b) (Author b) (Highlights b ++ [mkHighlight text date]))
           title grouped,
     order)
  end.

(** [sort.Strings]: ascending in Go's string order, which compares bytes. *)
Definition sort_Strings (x : list string) : list string := merge_sort String.le x.

(** Lines 182 to 205; [None] is the panic of [*grouped[t]] on a missing key. *)
Definition group_books (rows : list SqlRow) : option (list Book) :=
  let '(grouped, order) := foldl group_row (∅, []) rows in
  mapM (λ t, grouped !! t) (sort_Strings order).

Definition fetchBooks (db : Database) (limit : Z) : fetch_error + list Book :=
  match os_Stat db with
  | StatNotExist => inl ErrNotFound
  | StatFailed => inl ErrStat
  | StatSize _ =>
    if sql_Open_fails db then inl ErrOpen
    else match schema_check db with
    | BookmarkMissing => inl (ErrBookmarkTable (table_names db))
    | SchemaCheckFailed => inl ErrInspectSchema
    | BookmarkFound =>
      if Query_fails db limit then inl ErrQuery
      else
        let books := group_books (run_query db limit) in
        if rows_Err db limit then inl ErrRowIteration
        else match books with
        | Some books => inr books
        | None => inl PanicNilBook
        end
    end
  end.

(** The rows of a result set that scan, in order. *)
Definition scanned (rows : list SqlRow) : list (string * string * string * string) :=
  omap Scan rows.

Definition row_title (r : string * string * string * string) : string := r.1.1.1.
Definition row_author (r : string * string * string * string) : string := r.1.1.2.
Definition row_highlight (r : string * string * string * string) : Highlight :=
  mkHighlight r.1.2 r.2.

Definition rows_of_title (t : string) (rows : list SqlRow)
  : list (string * string * string * string) :=
  filter (λ r, row_title r = t) (scanned rows).

Definition total_highlights (books : list Book) : nat :=
  sum_list (length ∘ Highlights <$> books).

(** A space, a tab and a no-break space (U+00A0 in UTF-8). *)
Definition sp : string := String " "%char EmptyString.
Definition tab : string := String "009"%char EmptyString.
Definition nbsp : string := String "194"%char (String "160"%char EmptyString).

(** ** Notions used in the statements *)

Definition is_cont (c : ascii) : bool := in_range locb hicb c.

(** A suffix that the decoder cannot run into: empty, or not starting with a
    continuation byte. *)
Definition clean_start (post : bytes) : Prop :=
  match post with [] => True | p :: _ => is_cont p = false end.

Definition not_space (c : N * bytes) : Prop := unicode_IsSpace c.1 = false.

(** No rune of [s] is white space. *)
Definition nospace (s : bytes) : Prop := Forall not_space (range_string s).

(** The characters the sanitizer replaces or removes:
    slash, backslash, colon, star, question mark, double quote, less-than,
    greater-than, bar. *)
Definition hostile : list ascii :=
  ["/"; "\"; ":"; "*"; "?"; quote_char; "<"; ">"; "|"]%char.

(** Every rune of the string is white space (the empty string included). *)
Definition whitespace_only (s : string) : Prop :=
  Forall (λ c, unicode_IsSpace c.1 = true) (range_string (bts s)).

(** Closed decidable goals. *)
Ltac decide_closed := apply (bool_decide_unpack _); by vm_compute.

(** [sanitizeFilename] on byte lists. *)
Definition sanitize_joined (s : string) : string :=
  String.concat "-"
    (str <$> Fields_bytes (Replacer_bytes sanitize_table (TrimSpace_bytes (bts s)))).

Definition spec_quotes (hs : list Highlight) : string :=
  String.concat EmptyString
    (spec_quote <$> filter (λ t, t ≠ EmptyString) (strings_TrimSpace ∘ Text <$> hs)).

Abbreviation ScannedRow := (string * string * string * string)%type.

(** The book that the rows of one title make: none without rows, else the
    title, the author of the first row and a highlight per row. *)
Definition book_of (t : string) (rs : list ScannedRow) : option Book :=
  match rs with
  | [] => None
  | r :: _ => Some (mkBook t (row_author r) (row_highlight <$> rs))
  end.

(** Strictly ascending in byte order. *)
Definition string_lt (a b : string) : Prop := String.le a b ∧ a ≠ b.

Definition is_schema (r : Request) : bool :=
  match r with GetDatabase _ => true | _ => false end.
Definition is_create (r : Request) : bool :=
  match r with CreatePage _ _ => true | _ => false end.
Definition is_append (r : Request) : bool :=
  match r with AppendChildren _ _ => true | _ => false end.
(** The write calls: page creation and block append. *)
Definition is_write (r : Request) : bool := is_create r || is_append r.

Definition children_of (r : Request) : list Block :=
  match r with AppendChildren _ children => children | _ => [] end.

(** [st'] is [st] after sending [delta]. *)
Definition sent (st st' : NState) (delta : list Request) : Prop :=
  st'.2 = st.2 ++ delta.

(** The requests sent between two states. *)
Definition new_requests (st st' : NState) : list Request :=
  drop (length st.2) st'.2.

(** The batches of at most 100 blocks, in order. *)
Definition batch (blocks : list Block) (k : nat) : list Block :=
  take 100 (drop (100 * k) blocks).

Definition batch_count (blocks : list Block) : nat := (length blocks + 99) / 100.

(** A quote per highlight with a blank paragraph between two quotes. *)
Fixpoint interleave (highlights : list string) : list Block :=
  match highlights with
  | [] => []
  | h :: rest =>
    QuoteBlock h :: match rest with [] => [] | _ => ParagraphBlock :: interleave rest end
  end.

(** The request at position [i] of the history is a discovery call that
    succeeded: the server answered below 300 with a body that decodes. *)
Definition discovered (env : NotionEnv) (hist : list Request) (i : nat) : Prop :=
  ∃ id resp props,
    hist !! i = Some (GetDatabase id) ∧
    server env (take i hist) (GetDatabase id) = Reply resp ∧
    (StatusCode resp < 300)%Z ∧
    json_database env (Body resp) = Some props.

(** No discovery call follows a successful one, and a client that is not
    marked resolved has had no success. *)
Definition cached (env : NotionEnv) (st : NState) : Prop :=
  (∀ i j req, discovered env st.2 i → i < j → st.2 !! j = Some req →
              is_schema req = false) ∧
  (resolvedTitle st.1 = false → ∀ i, ¬ discovered env st.2 i).

(** The ways the state of the client changes: a request other than a
    discovery call is sent, or [resolveTitlePropertyName] runs on a client
    that is not marked resolved. *)
Inductive steps (env : NotionEnv) : NState → NState → Prop :=
| steps_refl st : steps env st st
| steps_send n hist req st' :
    is_schema req = false →
    steps env (n, hist ++ [req]) st' → steps env (n, hist) st'
| steps_resolve st st' :
    resolvedTitle st.1 = false →
    steps env (resolveTitlePropertyName env st).2 st' → steps env st st'.

(** ** Sample data *)

Definition os_ok : OS :=
  {| filepath_Join := λ dir name, dir +:+ "/" +:+ name;
     MkdirAll_fails := λ _, false;
     Create_fails := λ _, false;
     Close_fails := λ _, false |}.

Definition book_TA : Book :=
  mkBook "T" "A" [mkHighlight "x" "2024-01-01"; mkHighlight "y" "2024-01-02"].

Definition book_slash : Book := mkBook "a/b" EmptyString [mkHighlight "x" "d"].
Definition book_colon : Book := mkBook "a:b" EmptyString [mkHighlight "y" "d"].

Definition sample_row (title text : string) : Row :=
  mkRow (Some title) None (Some text) (Some "2024-01-01T00:00:00").

Definition sample_db (rows : list Row) : Database :=
  {| os_Stat := StatSize 4096; sql_Open_fails := false;
     schema_check := BookmarkFound; table_names := ["Bookmark"; "content"];
     joined_rows := rows; Query_fails := λ _, false; rows_Err := λ _, false |}.

Definition db_three : Database :=
  sample_db [sample_row "A" "one"; sample_row "A" "two"; sample_row "A" "three";
             sample_row "B" "four"].

Definition db_newline : Database := sample_db [sample_row "A" nl].

Definition ok_response : Response := mkResponse 200 "200 OK" "{}".

(** A workspace where every book already has its page. *)
Definition env_existing : NotionEnv :=
  {| server := λ _ _, Reply ok_response;
     url_ok := λ _, true;
     json_database := λ _, Some [("Name", "title")];
     json_query := λ _, Some 1;
     json_page := λ _, Some "page-1" |}.

(** An empty workspace that accepts everything. *)
Definition env_empty : NotionEnv :=
  {| server := λ _ _, Reply ok_response;
     url_ok := λ _, true;
     json_database := λ _, Some [("Name", "title")];
     json_query := λ _, Some 0;
     json_page := λ _, Some "page-1" |}.

(** An empty workspace that answers 404 to page creation. *)
Definition env_404 : NotionEnv :=
  {| server := λ _ req,
       match req with
       | CreatePage _ _ => Reply (mkResponse 404 "404 Not Found" "object_not_found")
       | _ => Reply ok_response
       end;
     url_ok := λ _, true;
     json_database := λ _, Some [("Name", "title")];
     json_query := λ _, Some 0;
     json_page := λ _, Some "page-1" |}.

(** An empty workspace whose schema has no Author property: 400 to a create
    request that carries one. *)
Definition env_no_author : NotionEnv :=
  {| server := λ _ req,
       match req with
       | CreatePage _ props =>
         match props !! "Author" with
         | Some _ => Reply (mkResponse 400 "400 Bad Request" "Author is not a property")
         | None => Reply ok_response
         end
       | _ => Reply ok_response
       end;
     url_ok := λ _, true;
     json_database := λ _, Some [("Name", "title")];
     json_query := λ _, Some 0;
     json_page := λ _, Some "page-1" |}.

(** A workspace whose schema cannot be fetched. *)
Definition env_schema_down : NotionEnv :=
  {| server := λ _ req,
       match req with
       | GetDatabase _ => Reply (mkResponse 500 "500 Internal Server Error" EmptyString)
       | _ => Reply ok_response
       end;
     url_ok := λ _, true;
     json_database := λ _, None;
     json_query := λ _, Some 1;
     json_page := λ _, Some "page-1" |}.

Definition fresh : NState := (NewNotionClient "secret" "db", []).

Definition highlights_250 : list string := replicate 250 "h".

(** ** Further notions: white space *)

(** Every rune of the byte string is white space. *)
Definition all_space (s : bytes) : Prop :=
  Forall (λ c : N * bytes, unicode_IsSpace c.1 = true) (range_string s).

(** The first rune, decoding forwards, is not white space. *)
Definition starts_nonspace (s : bytes) : Prop :=
  unicode_IsSpace (utf8_DecodeRune s).1 = false.

(** The last rune, decoding backwards, is not white space. *)
Definition ends_nonspace (s : bytes) : Prop :=
  unicode_IsSpace (utf8_DecodeLastRune s).1 = false.

(** ** formats: the registry and the two factories *)

(** A command-line flag a format asks for ([cli.StringFlag]). *)
Record FlagSpec := mkFlag {
  flag_name : string;
  flag_usage : string;
  flag_env : list string
}.

(** The implementations of the [Format] interface. [Client] is a pointer:
    [None] is nil. *)
Inductive Format :=
| MarkdownFormat (Dir : string)
| NotionFormat (Client : option NotionClient).

(** [Format.Name]. *)
Definition Format_Name (f : Format) : string :=
  match f with
  | MarkdownFormat _ => "markdown"
  | NotionFormat _ => "notion"
  end.

Inductive build_error :=
| ErrMarkdownDirRequired
| ErrNotionFlagsRequired.

(** [FormatFactory]; the argument of [Build] is [FlagValueResolver.String]. *)
Record FormatFactory := mkFactory {
  Name : string;
  Flags : list FlagSpec;
  Build : (string → string) → build_error + Format
}.

(** [RegisterFormat]: [formatRegistry[f.Name] = f]. *)
Definition RegisterFormat (f : FormatFactory) (formatRegistry : gmap string FormatFactory)
  : gmap string FormatFactory :=
  <[Name f := f]> formatRegistry.

(** [GetFormatFactory]; [None] is [ok = false]. *)
Definition GetFormatFactory (name : string) (formatRegistry : gmap string FormatFactory)
  : option FormatFactory :=
  formatRegistry !! name.

(** [ListFormatNames]: the keys, in the order of one iteration over the map
    (Go leaves that order unspecified). *)
Definition ListFormatNames (formatRegistry : gmap string FormatFactory) : list string :=
  (map_to_list formatRegistry).*1.

(** The factory that the [init] of the Markdown file registers. *)
Definition markdownFactory : FormatFactory :=
  {| Name := "markdown";
     Flags := [mkFlag "markdown-dir"
                 "Directory for markdown output (required when --format markdown)" []];
     Build := λ r,
       let dir := strings_TrimSpace (r "markdown-dir") in
       if decide (dir = EmptyString) then inl ErrMarkdownDirRequired
       else inr (MarkdownFormat dir) |}.

(** The factory that the [init] of the Notion file registers. *)
Definition notionFactory : FormatFactory :=
  {| Name := "notion";
     Flags := [mkFlag "notion-token" "Notion integration token (or NOTION_TOKEN)"
                 ["NOTION_TOKEN"];
               mkFlag "notion-database" "Notion database ID (or NOTION_DB)"
                 ["NOTION_DB"]];
     Build := λ r,
       let token := strings_TrimSpace (r "notion-token") in
       let dbid := strings_TrimSpace (r "notion-database") in
       if decide (token = EmptyString ∨ dbid = EmptyString)
       then inl ErrNotionFlagsRequired
       else inr (NotionFormat (Some (NewNotionClient token dbid))) |}.

(** The registry once both [init] functions have run. *)
Definition initial_registry : gmap string FormatFactory :=
  RegisterFormat notionFactory (RegisterFormat markdownFactory ∅).




(** ** Notions used in the statements about the Markdown exporter *)

#[global] Instance whitespace_only_dec (s : string) : Decision (whitespace_only s).
Proof. unfold whitespace_only. apply _. Defined.

(** The text of the quote paragraph written for a highlight. *)
Definition quote_text (h : Highlight) : string :=
  strings_ReplaceAll (strings_TrimSpace (Text h)) "010"%char " ".

(** ** Notions used in the statements about the Notion client *)

(** A request that the client [n] may send: a read or a page creation names
    the database of [n]; an append names a page and carries between 1 and 100
    blocks. *)
Definition request_of (n : NotionClient) (req : Request) : Prop :=
  match req with
  | GetDatabase id | QueryDatabase id _ _ | CreatePage id _ => id = databaseID n
  | AppendChildren pageID children =>
    pageID ≠ EmptyString ∧ 0 < length children ≤ 100
  end.

(** What a method of the client does to the state: the credentials stay, the
    history grows by requests of the client. *)
Definition keeps (st st' : NState) : Prop :=
  token st'.1 = token st.1 ∧ databaseID st'.1 = databaseID st.1 ∧
  ∃ delta, sent st st' delta ∧ Forall (request_of st.1) delta.

(** The errors of the append loop. *)
Definition is_append_error (e : notion_error) : Prop :=
  match e with
  | ErrAppendHttp _ => True
  | ErrAppend _ snippet => String.length snippet ≤ 300
  | _ => False
  end.

(** ** Sample data: resolvers *)

Definition resolver_md : string → string :=
  λ name, if decide (name = "markdown-dir") then "  out " else EmptyString.

Definition resolver_notion : string → string :=
  λ name, if decide (name = "notion-token") then " secret"
          else if decide (name = "notion-database") then "db " else EmptyString.

(** ** Sample data: a file system that refuses one file *)

Definition os_no_create : OS :=
  {| filepath_Join := filepath_Join os_ok;
     MkdirAll_fails := λ _, false;
     Create_fails := λ p, bool_decide (p = "out/a-b.md");
     Close_fails := λ _, false |}.

Definition book_blank : Book :=
  mkBook "T" EmptyString [mkHighlight (String "010" EmptyString) "d"; mkHighlight " x " "d"].

(** ** Sample data: Notion workspaces *)

(** An empty workspace that refuses the second append request. *)
Definition env_append_fails : NotionEnv :=
  {| server := λ hist req,
       match req with
       | AppendChildren _ _ =>
         if decide (length (filter (λ r, is_append r = true) hist) = 1)
         then Reply (mkResponse 502 "502 Bad Gateway" "upstream")
         else Reply ok_response
       | _ => Reply ok_response
       end;
     url_ok := λ _, true;
     json_database := λ _, Some [("Name", "title")];
     json_query := λ _, Some 0;
     json_page := λ _, Some "page-1" |}.

(** A workspace whose queries are refused. *)
Definition env_query_down : NotionEnv :=
  {| server := λ _ req,
       match req with
       | QueryDatabase _ _ _ => Reply (mkResponse 401 "401 Unauthorized" "unauthorized")
       | _ => Reply ok_response
       end;
     url_ok := λ _, true;
     json_database := λ _, Some [("Name", "title")];
     json_query := λ _, Some 0;
     json_page := λ _, Some "page-1" |}.

(** ** Sample data: rows with NULL columns *)

Definition db_nulls : Database :=
  sample_db [mkRow None (Some "X") (Some "lost") (Some "d");
             mkRow (Some "A") None (Some "kept") (Some "d");
             mkRow (Some "A") (Some "X") (Some "undated") None].

(** ** unicode/utf8: encoding *)

(** [utf8.EncodeRune], which is also the conversion of a rune to a string:
    a rune above [MaxRune] or in the surrogate range is encoded as
    [RuneError]. [byte(x)] keeps the low eight bits. *)
Definition utf8_EncodeRune (r : N) : bytes :=
  let byte := λ x, N.land x 0xFF in
  let tx := 0x80%N in
  let maskx := 0x3F%N in
  let three := λ r,
    [ascii_of_N (N.lor 0xE0 (byte (N.shiftr r 12)));
     ascii_of_N (N.lor tx (N.land (byte (N.shiftr r 6)) maskx));
     ascii_of_N (N.lor tx (N.land (byte r) maskx))] in
  if (r <=? 0x7F)%N then [ascii_of_N (byte r)]
  else if (r <=? 0x7FF)%N then
    [ascii_of_N (N.lor 0xC0 (byte (N.shiftr r 6)));
     ascii_of_N (N.lor tx (N.land (byte r) maskx))]
  else if ((0x10FFFF <? r) || (0xD800 <=? r) && (r <=? 0xDFFF))%N then three RuneError
  else if (r <=? 0xFFFF)%N then three r
  else
    [ascii_of_N (N.lor 0xF0 (byte (N.shiftr r 18)));
     ascii_of_N (N.lor tx (N.land (byte (N.shiftr r 12)) maskx));
     ascii_of_N (N.lor tx (N.land (byte (N.shiftr r 6)) maskx));
     ascii_of_N (N.lor tx (N.land (byte r) maskx))].

(** [utf8.RuneCountInString]: an invalid byte counts as one rune. *)
Definition utf8_RuneCountInString (s : string) : nat := length (range_string (bts s)).

(** The conversions [[]rune(s)] and [string(runes)]. *)
Definition runes_of_string (s : string) : list N := (range_string (bts s)).*1.

Definition string_of_runes (runes : list N) : string := str (runes ≫= utf8_EncodeRune).

(** ** main: the console preview *)

Definition previewLen : nat := 100.

(** The horizontal ellipsis U+2026, in UTF-8. *)
Definition ellipsis : string :=
  String "226"%char (String "128"%char (String "166"%char EmptyString)).

(** [truncateClean]; [max] is [previewLen] at the one call site, a negative
    [max] is not modelled. *)
Definition truncateClean (s : string) (max : nat) : string :=
  let s := strings_TrimSpace (strings_ReplaceAll s "010"%char " ") in
  if decide (utf8_RuneCountInString s ≤ max) then s
  else
    let runes := runes_of_string s in
    string_of_runes (take max runes) +:+ ellipsis.

(** The verb [%2d] of [fmt] on a number that is not negative: its decimal
    digits, padded with spaces on the left to two characters. *)
Definition fmt_2d (n : nat) : string :=
  let digits := pretty n in
  str (replicate (2 - String.length digits) " "%char) +:+ digits.

(** What [printConsolePreview] writes for one book, a string for each call of
    [fmt.Println] or [fmt.Printf]. *)
Definition preview_book (b : Book) : list string :=
  ["====================" +:+ nl] ++
  [if decide (Author b ≠ EmptyString)
   then Title b +:+ " (" +:+ Author b +:+ ")" +:+ nl
   else Title b +:+ nl] ++
  imap (λ i h,
          let truncated := truncateClean (Text h) previewLen in
          "  " +:+ fmt_2d (i + 1) +:+ ". " +:+ truncated +:+ nl)
       (Highlights b) ++
  [nl].


(** ** strings.ToLower *)

(** [c += 'a' - 'A'] on an upper-case ASCII letter. *)
Definition ascii_lower (c : ascii) : ascii :=
  if in_range 0x41 0x5A c then ascii_of_N (byte_val c + 32) else c.

(** [strings.Map]: every rune of the iteration is replaced by the encoding
    of its image; an invalid byte iterates as [RuneError]. *)
Definition strings_Map (mapping : N → N) (s : bytes) : bytes :=
  (range_string s).*1 ≫= λ r, utf8_EncodeRune (mapping r).

(** [strings.ToLower]: byte by byte on an ASCII string, else [strings.Map]
    with [unicode.ToLower], the case table of the Unicode tables. *)
Definition strings_ToLower (unicode_ToLower : N → N) (s : string) : string :=
  if forallb (λ c, byte_val c <? RuneSelf)%N (bts s)
  then str (ascii_lower <$> bts s)
  else str (strings_Map unicode_ToLower (bts s)).

(** ** main: the action of the command *)

(** What the command runs in: the Unicode case table, the database that a
    path designates, the file system calls and the Notion service. *)
Record Runtime := {
  unicode_ToLower : N → N;
  database_at : string → Database;
  runtime_os : OS;
  runtime_notion : NotionEnv
}.

(** [cli.Context]: the values of the flags. *)
Record Context := {
  ctx_String : string → string;
  ctx_Int : string → Z;
  ctx_Bool : string → bool
}.



(** ** Notions used in the statements about the preview *)

(** The encoding of [r] decodes to [r], all of it, and does not start with a
    continuation byte. *)
Definition canonical (r : N) : Prop :=
  utf8_EncodeRune r ≠ [] ∧
  utf8_DecodeRune (utf8_EncodeRune r) = (r, length (utf8_EncodeRune r)) ∧
  is_cont (default "000"%char (head (utf8_EncodeRune r))) = false.

(** No byte of the string is decoded as an error: the string is valid
    UTF-8. *)
Definition valid_utf8 (s : string) : Prop :=
  Forall (λ c : N * bytes, c.1 = RuneError → length c.2 ≠ 1) (range_string (bts s)).

(** The text of a highlight as the preview cleans it. *)
Definition preview_clean (s : string) : string :=
  strings_TrimSpace (strings_ReplaceAll s "010"%char " ").

(** The format name the command looks up. *)
Definition chosen_format (rt : Runtime) (c : Context) : string :=
  strings_ToLower (unicode_ToLower rt) (strings_TrimSpace (ctx_String c "format")).

(** ** Sample data: a run of the command *)

Definition runtime_sample : Runtime :=
  {| unicode_ToLower := λ r, r;
     database_at := λ _, db_three;
     runtime_os := os_ok;
     runtime_notion := env_empty |}.

(** The flags [--kobo-db k.sqlite --format Markdown], without
    [--markdown-dir]. *)
Definition ctx_no_dir : Context :=
  {| ctx_String := λ name,
       if decide (name = "format") then " Markdown"
       else if decide (name = "kobo-db") then "k.sqlite" else EmptyString;
     ctx_Int := λ _, 0%Z;
     ctx_Bool := λ _, false |}.

Definition ctx_list : Context :=
  {| ctx_String := λ _, EmptyString; ctx_Int := λ _, 0%Z; ctx_Bool := λ _, true |}.


(** Every byte of the string is ASCII. *)
Definition is_ascii (s : string) : Prop :=
  Forall (λ c, (byte_val c < RuneSelf)%N) (bts s).

(** ** The specification of the grouping, on the raw rows *)

Definition raw_title (row : SqlRow) : option string := row.1.1.1.

Definition raw_author (row : SqlRow) : option string := row.1.1.2.

(** A raw row without a NULL column. *)
Definition no_null (row : SqlRow) : Prop :=
  ∃ title author text date, row = (Some title, Some author, Some text, Some date).

(** The highlights of the rows of title [t], in the order of the rows; a row
    with a NULL column gives none. *)
Fixpoint spec_highlights (t : string) (rows : list SqlRow) : list Highlight :=
  match rows with
  | [] => []
  | (Some title, Some _, Some text, Some date) :: rest =>
    if decide (title = t) then mkHighlight text date :: spec_highlights t rest
    else spec_highlights t rest
  | _ :: rest => spec_highlights t rest
  end.

(** The author of the first row of title [t] that has no NULL column. *)
Fixpoint spec_author (t : string) (rows : list SqlRow) : option string :=
  match rows with
  | [] => None
  | (Some title, Some author, Some _, Some _) :: rest =>
    if decide (title = t) then Some author else spec_author t rest
  | _ :: rest => spec_author t rest
  end.

(** ** The specification of a Markdown file *)

Definition newline_to_space (c : ascii) : ascii :=
  if decide (c = "010"%char) then " "%char else c.

(** [q] renders [text]: it is [text] without the white space at its two
    ends, which leaves something, each newline of it replaced by a space. *)
Definition rendered_text (text q : string) : Prop :=
  ∃ lead trimmed trail,
    bts text = lead ++ trimmed ++ trail ∧
    all_space lead ∧ all_space trail ∧
    trimmed ≠ [] ∧ starts_nonspace trimmed ∧ ends_nonspace trimmed ∧
    bts q = newline_to_space <$> trimmed.

(** [content] is the file of the book [b]: the heading, then for each
    highlight that is not made of white space only, in order, a quote
    paragraph with its rendered text. *)
Definition rendered_file (b : Book) (content : string) : Prop :=
  ∃ quotes,
    Forall2 (λ h q, rendered_text (Text h) q)
      (filter (λ h, ¬ whitespace_only (Text h)) (Highlights b)) quotes ∧
    content = spec_heading b +:+
              String.concat EmptyString ((λ q, "> " +:+ q +:+ nl +:+ nl) <$> quotes).

(** ** Sample data: rows with a NULL date, a book with white space *)

Definition db_null_dates : Database :=
  sample_db [mkRow (Some "A") (Some "X") (Some "t1") None;
             mkRow (Some "A") (Some "Y") (Some "t2") (Some "d");
             mkRow (Some "B") (Some "Z") (Some "t3") None].

(** Highlights with white space around the text and a newline inside, and a
    highlight of white space only. *)
Definition book_ws : Book :=
  mkBook "T" EmptyString
    [mkHighlight ("  a" +:+ nl +:+ "b " +:+ nl) "d";
     mkHighlight (nl +:+ tab +:+ " ") "d";
     mkHighlight "c" "d"].

(** * Proofs *)

(** * Properties of the UTF-8 decoder *)

Lemma utf8_first_range s0 sz lo hi :
  utf8_first s0 = Some (sz, lo, hi) →
  (locb <= lo)%N ∧ (hi <= hicb)%N ∧ 2 ≤ sz ≤ 4.
Proof.
  unfold utf8_first, locb, hicb.
  repeat case_match; intros [= <- <- <-]; lia.
Qed.

Lemma in_range_weaken lo hi c :
  (locb <= lo)%N → (hi <= hicb)%N → in_range lo hi c = true → is_cont c = true.
Proof.
  unfold is_cont, in_range. intros ?? [?%N.leb_le ?%N.leb_le]%andb_prop.
  apply andb_true_intro; split; apply N.leb_le; lia.
Qed.

Lemma not_cont_not_in_range lo hi c :
  (locb <= lo)%N → (hi <= hicb)%N → is_cont c = false → in_range lo hi c = false.
Proof.
  intros ?? Hc. destruct (in_range lo hi c) eqn:E; [|done].
  by rewrite (in_range_weaken lo hi c) in Hc.
Qed.

Lemma DecodeRune_size s :
  s ≠ [] → 1 ≤ (utf8_DecodeRune s).2 ≤ length s.
Proof.
  destruct s as [|c0 t]; [done|intros _].
  unfold utf8_DecodeRune.
  repeat (case_match; simpl; try lia).
Qed.

Lemma DecodeRune_cont c t :
  is_cont c = true → utf8_DecodeRune (c :: t) = (RuneError, 1).
Proof.
  unfold is_cont, in_range, locb, hicb. intros [?%N.leb_le ?%N.leb_le]%andb_prop.
  unfold utf8_DecodeRune, RuneSelf.
  destruct (N.ltb_spec (byte_val c) 128); [lia|].
  unfold utf8_first. destruct (N.ltb_spec (byte_val c) 194); [done|lia].
Qed.

Lemma IsSpace_RuneError : unicode_IsSpace RuneError = false.
Proof. reflexivity. Qed.

Lemma DecodeRune_space_start c t :
  unicode_IsSpace (utf8_DecodeRune (c :: t)).1 = true → is_cont c = false.
Proof.
  destruct (is_cont c) eqn:E; [|done].
  by rewrite DecodeRune_cont.
Qed.

(** The decoder reads continuation bytes only: what follows [x] does not
    change the result when it cannot be taken for a continuation. *)
Lemma DecodeRune_app x post :
  x ≠ [] → clean_start post → utf8_DecodeRune (x ++ post) = utf8_DecodeRune x.
Proof.
  destruct x as [|c0 t]; [done|intros _ Hpost].
  unfold utf8_DecodeRune; simpl.
  destruct (_ <? RuneSelf)%N; [done|].
  destruct (utf8_first _) as [[[sz lo] hi]|] eqn:Hf; [|done].
  apply utf8_first_range in Hf as (Hlo & Hhi & Hsz).
  assert (∀ p, is_cont p = false → in_range lo hi p = false) as Hnr
    by (intros; by apply not_cont_not_in_range).
  destruct t as [|c1 t]; simpl.
  { destruct post as [|p post]; [done|]. simpl in Hpost. by rewrite Hnr. }
  destruct (in_range lo hi c1); simpl; [|done].
  destruct (sz <=? 2); [done|].
  destruct t as [|c2 t]; simpl.
  { destruct post as [|p post]; [done|]. simpl in Hpost.
    unfold is_cont in Hpost. by rewrite Hpost. }
  destruct (in_range locb hicb c2); simpl; [|done].
  destruct (sz <=? 3); [done|].
  destruct t as [|c3 t]; simpl; [|done].
  destruct post as [|p post]; [done|]. simpl in Hpost.
  unfold is_cont in Hpost. by rewrite Hpost.
Qed.

(** * Properties of the iteration over a string *)

Lemma range_go_drop k s : range_go k s = range_string (drop k s).
Proof.
  revert k. induction s as [|c t IH]; intros [|k]; simpl; try done.
Qed.

Lemma range_string_nil : range_string [] = [].
Proof. done. Qed.

Lemma range_string_cons c t :
  range_string (c :: t) =
  ((utf8_DecodeRune (c :: t)).1, take (utf8_DecodeRune (c :: t)).2 (c :: t))
  :: range_string (drop (utf8_DecodeRune (c :: t)).2 (c :: t)).
Proof.
  unfold range_string at 1. unfold range_go; fold range_go.
  pose proof (DecodeRune_size (c :: t) ltac:(done)) as Hsz.
  destruct (utf8_DecodeRune (c :: t)) as [r sz]; simpl in *. rewrite range_go_drop. destruct sz as [|sz]; [lia|].
  simpl. by rewrite Nat.sub_0_r.
Qed.

Lemma range_string_concat s : concat (snd <$> range_string s) = s.
Proof.
  remember (length s) as n eqn:Hn. revert s Hn.
  induction n as [n IH] using lt_wf_ind. intros [|c t] ->; [done|].
  rewrite range_string_cons.
  pose proof (DecodeRune_size (c :: t) ltac:(done)) as Hsz.
  rewrite fmap_cons, concat_cons. cbn [snd].
  rewrite (IH (length (drop (utf8_DecodeRune (c :: t)).2 (c :: t)))); [|rewrite length_drop; simpl in *; lia|done].
  apply take_drop.
Qed.

(** The iteration over [x ++ post] is the iteration over [x] followed by the
    iteration over [post], when [post] does not start with a continuation
    byte. *)
Lemma range_string_app x post :
  clean_start post →
  range_string (x ++ post) = range_string x ++ range_string post.
Proof.
  intros Hpost.
  remember (length x) as n eqn:Hn. revert x Hn.
  induction n as [n IH] using lt_wf_ind. intros [|c t] ->; [done|].
  pose proof (DecodeRune_size (c :: t) ltac:(done)) as Hsz.
  pose proof (DecodeRune_app (c :: t) post ltac:(done) Hpost) as Happ.
  change ((c :: t) ++ post) with (c :: (t ++ post)) in *.
  rewrite !range_string_cons, Happ.
  change (c :: (t ++ post)) with ((c :: t) ++ post).
  rewrite take_app_le, drop_app_le by lia.
  rewrite (IH (length (drop (utf8_DecodeRune (c :: t)).2 (c :: t)))); [done| |done].
  rewrite length_drop. simpl in *; lia.
Qed.

(** * Properties of [strings.Fields] and [strings.TrimSpace] *)

Lemma fields_go_nospace rest cur :
  match cur with
  | Some w => w ≠ [] ∧ ∃ Rw, range_string (w ++ rest) = Rw ++ range_string rest
                             ∧ Forall not_space Rw
  | None => True
  end →
  Forall (λ f, f ≠ [] ∧ nospace f) (fields_go unicode_IsSpace cur (range_string rest)).
Proof.
  remember (length rest) as n eqn:Hn. revert rest cur Hn.
  induction n as [n IH] using lt_wf_ind. intros [|c t] cur -> Hcur.
  { simpl. destruct cur as [w|]; [|done].
    destruct Hcur as (Hw & Rw & HR & HF). constructor; [|done].
    split; [done|]. unfold nospace. rewrite app_nil_r in HR. rewrite HR.
    by rewrite app_nil_r. }
  pose proof (DecodeRune_size (c :: t) ltac:(done)) as Hsz.
  pose proof (DecodeRune_space_start c t) as Hstart.
  rewrite range_string_cons.
  pose proof (range_string_cons c t) as Hcons.
  destruct (utf8_DecodeRune (c :: t)) as [r sz] eqn:Hdec.
  cbn [fst snd] in *. cbn [fields_go].
  assert (length (drop sz (c :: t)) < length (c :: t)) as Hlt
    by (rewrite length_drop; simpl in *; lia).
  destruct (unicode_IsSpace r) eqn:Hr.
  - assert (clean_start (c :: t)) as Hclean by (simpl; by apply Hstart).
    destruct cur as [w|].
    + destruct Hcur as (Hw & Rw & HR & HF). constructor.
      * split; [done|]. unfold nospace.
        rewrite range_string_app in HR by done.
        by apply app_inv_tail in HR as ->.
      * by eapply IH.
    + by eapply IH.
  - eapply IH; [done..|]. split.
    { intros [_ Hbs]%app_eq_nil. apply (f_equal length) in Hbs.
      rewrite length_take in Hbs. simpl in *; lia. }
    destruct cur as [w|]; cbn [default].
    + destruct Hcur as (Hw & Rw & HR & HF).
      exists (Rw ++ [(r, take sz (c :: t))]). split.
      * unfold id. rewrite <-!(assoc_L (++)), take_drop, HR, Hcons. done.
      * apply Forall_app; split; [done|]. by repeat constructor.
    + exists [(r, take sz (c :: t))]. split.
      * rewrite app_nil_l, take_drop, Hcons. done.
      * by repeat constructor.
Qed.

Lemma Fields_nospace s :
  Forall (λ f, f ≠ [] ∧ nospace f) (Fields_bytes s).
Proof. by apply fields_go_nospace. Qed.

Lemma fields_go_elem (f : N → bool) rs cur w c :
  w ∈ fields_go f cur rs → c ∈ w →
  c ∈ default [] cur ∨ c ∈ concat (snd <$> rs).
Proof.
  revert cur. induction rs as [|[r bs] rs IH]; intros cur.
  - simpl. destruct cur; [|by intros ?%elem_of_nil].
    intros ->%list_elem_of_singleton; auto.
  - rewrite fmap_cons, concat_cons, elem_of_app. cbn [fields_go snd].
    destruct (f r).
    + destruct cur as [w'|].
      * intros [->|Hw]%elem_of_cons Hc; [auto|].
        destruct (IH _ Hw Hc) as [?%elem_of_nil|?]; [done|auto].
      * intros Hw Hc. destruct (IH _ Hw Hc) as [?%elem_of_nil|?]; [done|auto].
    + intros Hw Hc. destruct (IH _ Hw Hc) as [[?|?]%elem_of_app|?]; auto.
Qed.

Lemma Fields_elem s w c : w ∈ Fields_bytes s → c ∈ w → c ∈ s.
Proof.
  intros Hw Hc. destruct (fields_go_elem _ _ _ _ _ Hw Hc) as [?%elem_of_nil|?]; [done|].
  by rewrite range_string_concat in *.
Qed.

Lemma fields_go_all_nospace rs cur :
  Forall not_space rs → rs ≠ [] →
  fields_go unicode_IsSpace cur rs = [default [] cur ++ concat (snd <$> rs)].
Proof.
  intros HF. revert cur. induction HF as [|[r bs] rs Hr HF IH]; intros cur Hne; [done|].
  simpl. unfold not_space in Hr; simpl in Hr. rewrite Hr.
  destruct rs as [|c' rs].
  - simpl. by rewrite app_nil_r.
  - rewrite IH by done. simpl. by rewrite <-(assoc_L (++)).
Qed.

Lemma Fields_nospace_id s : nospace s → s ≠ [] → Fields_bytes s = [s].
Proof.
  intros Hs Hne. unfold Fields_bytes, FieldsFunc.
  rewrite fields_go_all_nospace; [|done|].
  - simpl. by rewrite range_string_concat.
  - destruct s; [done|]. by rewrite range_string_cons.
Qed.

Lemma TrimLeft_nospace s : nospace s → TrimLeftFunc s unicode_IsSpace = s.
Proof.
  unfold TrimLeftFunc, nospace. intros HF.
  pose proof (range_string_concat s) as Hc.
  destruct HF as [|[r bs] rs Hr HF]; simpl in *; [done|].
  unfold not_space in Hr; simpl in Hr. by rewrite Hr.
Qed.

(** ** Decoding backwards *)

Lemma scan_back_le n s start lim : (scan_back n s start lim <= start)%Z.
Proof.
  revert start. induction n as [|n IH]; intros start; simpl; [lia|].
  repeat case_match; try lia. specialize (IH (start - 1)%Z). lia.
Qed.

Lemma DecodeRune_wide c t :
  2 ≤ (utf8_DecodeRune (c :: t)).2 → (RuneSelf <=? byte_val c)%N = true.
Proof.
  unfold utf8_DecodeRune. destruct (N.ltb_spec (byte_val c) RuneSelf); simpl; [lia|].
  intros _. apply N.leb_le. done.
Qed.

Lemma DecodeRune_ascii c t :
  (byte_val c <? RuneSelf)%N = true → utf8_DecodeRune (c :: t) = (byte_val c, 1).
Proof. unfold utf8_DecodeRune. by intros ->. Qed.

(** What [utf8.DecodeLastRuneInString] returns on a string that is not empty:
    a width [size] such that decoding forwards from [len(s) - size] gives that
    width again, and the rune found there or [RuneError]. *)
Lemma DecodeLastRune_spec s r size :
  s ≠ [] → utf8_DecodeLastRune s = (r, size) →
  let x := drop (length s - size) s in
  1 ≤ size ≤ length s ∧
  (utf8_DecodeRune x).2 = size ∧
  (r = (utf8_DecodeRune x).1 ∨ r = RuneError) ∧
  ((RuneSelf <=? byte_val (default "000"%char (s !! (length s - size)%nat)))%N = false
   → size = 1).
Proof.
  intros Hne. unfold utf8_DecodeLastRune.
  destruct (last s) as [c|] eqn:Hlast; [|by apply last_None in Hlast].
  apply last_Some in Hlast as [s' ->].
  rewrite length_app. cbn [length].
  assert (∀ k, k = length s' → drop k (s' ++ [c]) = [c]) as Hdrop.
  { intros k ->. by rewrite drop_app_length. }
  destruct (byte_val c <? RuneSelf)%N eqn:Hc.
  { intros [= <- <-]. rewrite Hdrop by lia. rewrite DecodeRune_ascii by done.
    repeat split; auto; lia. }
  set (start := Z.max 0 _).
  assert (0 <= start < Z.of_nat (length s' + 1))%Z as Hstart.
  { subst start.
    pose proof (scan_back_le 4 (s' ++ [c]) (Z.of_nat (length s' + 1) - 2)
                  (0 `max` (Z.of_nat (length s' + 1) - 4))%Z). lia. }
  clearbody start.
  destruct (utf8_DecodeRune (drop (Z.to_nat start) (s' ++ [c]))) as [r' size'] eqn:Hdec.
  assert (drop (Z.to_nat start) (s' ++ [c]) ≠ []) as Hne'.
  { intros Hnil%(f_equal length). rewrite length_drop, length_app in Hnil.
    simpl in Hnil. lia. }
  pose proof (DecodeRune_size _ Hne') as Hsz. rewrite Hdec in Hsz. simpl in Hsz.
  destruct (Z.eqb_spec (start + Z.of_nat size') (Z.of_nat (length s' + 1))) as [Heq|Hneq].
  - intros [= <- <-].
    replace (length s' + 1 - size') with (Z.to_nat start) by lia.
    rewrite Hdec. simpl. split; [lia|]. split; [done|]. split; [auto|].
    intros Hlow. destruct (decide (size' = 1)) as [|Hbig]; [done|].
    destruct (drop (Z.to_nat start) (s' ++ [c])) as [|c0 t0] eqn:Hd; [done|].
    assert ((s' ++ [c]) !! Z.to_nat start = Some c0) as Hl.
    { rewrite <-(Nat.add_0_r (Z.to_nat start)), <-lookup_drop, Hd. done. }
    rewrite Hl in Hlow. simpl in Hlow.
    rewrite (DecodeRune_wide c0 t0) in Hlow; [done|]. rewrite Hdec. simpl. lia.
  - intros [= <- <-].
    replace (length s' + 1 - 1) with (length s') by lia.
    rewrite Hdrop by done.
    pose proof (DecodeRune_size [c] ltac:(done)) as Hsz1.
    change (length [c]) with 1 in Hsz1.
    split; [lia|]. split; [lia|]. split; [by right|done].
Qed.

Lemma range_string_single x :
  x ≠ [] → (utf8_DecodeRune x).2 = length x →
  range_string x = [((utf8_DecodeRune x).1, x)].
Proof.
  destruct x as [|c t]; [done|]. intros _ Hsz.
  rewrite range_string_cons, Hsz, firstn_all, drop_all. done.
Qed.

(** Decoding backwards from the end of a string without white space does not
    find white space. *)
Lemma DecodeLastRune_nospace s :
  s ≠ [] → nospace s → unicode_IsSpace (utf8_DecodeLastRune s).1 = false.
Proof.
  intros Hne Hs.
  destruct (utf8_DecodeLastRune s) as [r size] eqn:Hlast.
  destruct (DecodeLastRune_spec s r size Hne Hlast) as (Hsz & Hw & Hr & _).
  simpl. destruct (unicode_IsSpace r) eqn:Hsp; [exfalso|done].
  destruct Hr as [Hr|Hr]; [|by rewrite Hr in Hsp].
  set (x := drop (length s - size) s) in *.
  assert (length x = size) as Hlen by (subst x; rewrite length_drop; lia).
  assert (x ≠ []) as Hx by (intros E; rewrite E in Hlen; simpl in Hlen; lia).
  assert (clean_start x) as Hclean.
  { destruct x as [|c t]; [done|]. simpl.
    apply (DecodeRune_space_start c t). by rewrite <-Hr. }
  unfold nospace in Hs.
  rewrite <-(take_drop (length s - size) s) in Hs. fold x in Hs.
  rewrite range_string_app in Hs by done.
  apply Forall_app in Hs as [_ Hs].
  rewrite range_string_single in Hs by (done || lia).
  apply Forall_cons in Hs as [Hs _]. unfold not_space in Hs. simpl in Hs.
  congruence.
Qed.

Lemma TrimRight_nil f : TrimRightFunc [] f = [].
Proof. done. Qed.

Lemma TrimRight_nospace s : nospace s → TrimRightFunc s unicode_IsSpace = s.
Proof.
  intros Hs. destruct (decide (s = [])) as [->|Hne]; [done|].
  unfold TrimRightFunc, lastIndexFunc.
  destruct (length s) as [|n] eqn:Hlen; [by destruct s|].
  cbn [lastIndexFunc_go]. rewrite decide_False by lia.
  rewrite <-Hlen, firstn_all.
  pose proof (DecodeLastRune_nospace s Hne Hs) as Hsp.
  destruct (utf8_DecodeLastRune s) as [r size] eqn:Hlast.
  destruct (DecodeLastRune_spec s r size Hne Hlast) as (Hsz & Hw & _ & Hlow).
  simpl in Hsp. rewrite Hsp.
  destruct (RuneSelf <=? _)%N.
  - rewrite Hw. apply take_ge. lia.
  - rewrite Hlow by done. apply take_ge. lia.
Qed.

Lemma TrimSpace_nospace s : nospace s → TrimSpace_bytes s = s.
Proof.
  intros Hs. unfold TrimSpace_bytes.
  rewrite TrimLeft_nospace by done. by apply TrimRight_nospace.
Qed.

(** The fuel of [lastIndexFunc_go] is never what ends the loop. *)
Lemma lastIndexFunc_go_fuel n m s f i :
  i ≤ length s → i ≤ n → i ≤ m →
  lastIndexFunc_go n s f i = lastIndexFunc_go m s f i.
Proof.
  revert m i. induction n as [|n IH]; intros m i Hs Hn Hm.
  - assert (i = 0) as -> by lia. by destruct m.
  - destruct m as [|m].
    + assert (i = 0) as -> by lia. done.
    + simpl. destruct (decide (i = 0)); [done|].
      destruct (utf8_DecodeLastRune (take i s)) as [r size] eqn:Hlast.
      destruct (f r); [|done].
      assert (take i s ≠ []) as Hne.
      { intros E%(f_equal length). rewrite length_take in E.
        change (length (@nil ascii)) with 0 in E.
        rewrite Nat.min_l in E by done. lia. }
      destruct (DecodeLastRune_spec _ _ _ Hne Hlast) as (Hsz & _).
      apply IH; lia.
Qed.

(** * Strings and byte lists *)

Lemma bts_app a b : bts (a +:+ b) = bts a ++ bts b.
Proof. induction a as [|c a IH]; simpl; [done|]. by rewrite <-IH. Qed.

Lemma bts_str s : bts (str s) = s.
Proof. apply list_ascii_of_string_of_list_ascii. Qed.

Lemma str_bts s : str (bts s) = s.
Proof. apply string_of_list_ascii_of_string. Qed.

Lemma bts_inj a b : bts a = bts b → a = b.
Proof. intros H. by rewrite <-(str_bts a), <-(str_bts b), H. Qed.

Lemma length_bts s : length (bts s) = String.length s.
Proof. induction s; simpl; auto. Qed.

(** * The file-name sanitizer *)

Lemma hostile_table : hostile = sanitize_table.*1.
Proof. reflexivity. Qed.

Lemma replacer_lookup_Some oldnew c n :
  replacer_lookup oldnew c = Some n → (c, n) ∈ oldnew.
Proof.
  induction oldnew as [|[o n'] rest IH]; simpl; [done|].
  destruct (decide (o = c)) as [->|].
  - intros [= ->]. left.
  - intros H. right. auto.
Qed.

Lemma replacer_lookup_None oldnew c :
  replacer_lookup oldnew c = None → c ∉ oldnew.*1.
Proof.
  induction oldnew as [|[o n'] rest IH]; simpl.
  - intros _ ?%elem_of_nil. done.
  - destruct (decide (o = c)) as [->|]; [done|].
    intros H [->|Hin]%elem_of_cons; [done|]. by apply IH.
Qed.

Lemma sanitize_replacement_clean c n x :
  (c, n) ∈ sanitize_table → x ∈ bts n → x ∉ hostile.
Proof.
  unfold sanitize_table. intros Hin Hx.
  repeat (apply elem_of_cons in Hin as [[= -> ->]|Hin];
          [simpl in Hx; first [by apply elem_of_nil in Hx
                              |apply list_elem_of_singleton in Hx as ->;
                               decide_closed]|]).
  by apply elem_of_nil in Hin.
Qed.

(** After the replacer no hostile character is left. *)
Lemma Replacer_clean s x : x ∈ Replacer_bytes sanitize_table s → x ∉ hostile.
Proof.
  unfold Replacer_bytes. intros (c & Hx & Hc)%list_elem_of_bind.
  destruct (replacer_lookup sanitize_table c) as [n|] eqn:Hl.
  - eapply sanitize_replacement_clean; [|done]. by eapply replacer_lookup_Some.
  - apply list_elem_of_singleton in Hx as ->. rewrite hostile_table.
    by apply replacer_lookup_None.
Qed.

(** The replacer leaves a string without hostile characters as it is. *)
Lemma Replacer_id s :
  (∀ x, x ∈ s → x ∉ hostile) → Replacer_bytes sanitize_table s = s.
Proof.
  unfold Replacer_bytes. induction s as [|c s IH]; intros Hs; [done|].
  rewrite bind_cons, IH by (intros; apply Hs; by right).
  destruct (replacer_lookup sanitize_table c) as [n|] eqn:Hl; [|done].
  apply replacer_lookup_Some in Hl.
  exfalso. apply (Hs c); [left|]. rewrite hostile_table.
  apply list_elem_of_fmap. by exists (c, n).
Qed.

Lemma nospace_dash_cons s : nospace s → nospace ("-"%char :: s).
Proof.
  unfold nospace. intros Hs. rewrite range_string_cons.
  rewrite DecodeRune_ascii by done. simpl. constructor; done.
Qed.

Lemma nospace_app x post : clean_start post → nospace x → nospace post → nospace (x ++ post).
Proof.
  unfold nospace. intros ???. rewrite range_string_app by done. by apply Forall_app.
Qed.

Lemma concat_dash_nospace fs :
  Forall nospace fs → nospace (bts (String.concat "-" (str <$> fs))).
Proof.
  induction 1 as [|f fs Hf Hfs IH]; [by constructor|].
  destruct fs as [|f' fs]; [simpl; by rewrite bts_str|].
  change (String.concat "-" (str <$> f :: f' :: fs))
    with (str f +:+ "-" +:+ String.concat "-" (str <$> f' :: fs)).
  rewrite !bts_app, bts_str.
  apply nospace_app; [done|done|]. by apply nospace_dash_cons.
Qed.

Lemma concat_dash_elem fs x :
  x ∈ bts (String.concat "-" (str <$> fs)) → x = "-"%char ∨ ∃ f, f ∈ fs ∧ x ∈ f.
Proof.
  induction fs as [|f fs IH]; [by intros ?%elem_of_nil|].
  destruct fs as [|f' fs].
  - simpl. rewrite bts_str. intros ?. right. exists f. split; [left|done].
  - change (String.concat "-" (str <$> f :: f' :: fs))
      with (str f +:+ "-" +:+ String.concat "-" (str <$> f' :: fs)).
    rewrite !bts_app, bts_str.
    intros [?|[?%list_elem_of_singleton|Hx]%elem_of_app]%elem_of_app.
    + right. exists f. split; [left|done].
    + by left.
    + destruct (IH Hx) as [?|(g & ? & ?)]; [by left|].
      right. exists g. split; [by right|done].
Qed.

Lemma sanitizeFilename_unfold s :
  sanitizeFilename s =
  if decide (sanitize_joined s = EmptyString) then "book" else sanitize_joined s.
Proof.
  unfold sanitizeFilename, sanitize_joined, strings_Join, strings_Fields,
    Replacer_Replace, strings_TrimSpace.
  by rewrite !bts_str.
Qed.

Lemma sanitize_joined_nospace s : nospace (bts (sanitize_joined s)).
Proof.
  apply concat_dash_nospace.
  eapply Forall_impl; [apply Fields_nospace|]. by intros ? [_ ?].
Qed.

Lemma sanitize_joined_clean s x : x ∈ bts (sanitize_joined s) → x ∉ hostile.
Proof.
  intros [->|(f & Hf & Hx)]%concat_dash_elem.
  - decide_closed.
  - eapply Replacer_clean, Fields_elem; done.
Qed.

Lemma sanitize_joined_fixed s :
  nospace (bts s) → (∀ x, x ∈ bts s → x ∉ hostile) → s ≠ EmptyString →
  sanitize_joined s = s.
Proof.
  intros Hns Hclean Hne. unfold sanitize_joined.
  assert (bts s ≠ []) as Hne' by (intros E; apply Hne, bts_inj; by rewrite E).
  rewrite TrimSpace_nospace by done.
  rewrite Replacer_id by done.
  rewrite Fields_nospace_id by done.
  simpl. apply str_bts.
Qed.

Lemma sanitizeFilename_idempotent s :
  sanitizeFilename (sanitizeFilename s) = sanitizeFilename s.
Proof.
  rewrite (sanitizeFilename_unfold s).
  destruct (decide (sanitize_joined s = EmptyString)) as [|Hne]; [by vm_compute|].
  rewrite sanitizeFilename_unfold.
  rewrite sanitize_joined_fixed;
    [by rewrite decide_False| apply sanitize_joined_nospace
     | apply sanitize_joined_clean | done].
Qed.

Lemma sanitizeFilename_clean s x : x ∈ hostile → x ∉ bts (sanitizeFilename s).
Proof.
  intros Hx Hin. rewrite sanitizeFilename_unfold in Hin.
  destruct (decide _).
  - revert Hin. unfold hostile in Hx.
    repeat (apply elem_of_cons in Hx as [->|Hx]; [decide_closed|]).
    by apply elem_of_nil in Hx.
  - by apply sanitize_joined_clean in Hin.
Qed.

Lemma trim_left_go_all_space rs :
  Forall (λ c : N * bytes, unicode_IsSpace c.1 = true) rs →
  trim_left_go unicode_IsSpace rs = [].
Proof. induction 1 as [|[r bs] rs Hr _ IH]; simpl in *; [done|]. by rewrite Hr. Qed.

Lemma sanitizeFilename_blank s : whitespace_only s → sanitizeFilename s = "book".
Proof.
  intros Hs. rewrite sanitizeFilename_unfold. unfold sanitize_joined, TrimSpace_bytes.
  unfold TrimLeftFunc. rewrite trim_left_go_all_space by done. done.
Qed.

Example sanitize_title :
  sanitizeFilename (sp +:+ " My  Book: A/B?" +:+ tab +:+ nbsp +:+ "x ")
  = "My-Book--A-B-x".
Proof. reflexivity. Qed.

Example sanitize_empty : sanitizeFilename EmptyString = "book".
Proof. reflexivity. Qed.

Example sanitize_blank : sanitizeFilename (sp +:+ tab +:+ nbsp +:+ nl) = "book".
Proof. reflexivity. Qed.

(** A truncated UTF-8 sequence is kept as it is. *)
Example sanitize_invalid_utf8 :
  sanitizeFilename (String "226"%char (String "128"%char "a b"))
  = String "226"%char (String "128"%char "a-b").
Proof. reflexivity. Qed.

(** * The Markdown exporter *)

Lemma append_assoc (a b c : string) : (a +:+ b) +:+ c = a +:+ b +:+ c.
Proof.
  induction a as [|x a IH]; [done|].
  change (String x ((a +:+ b) +:+ c) = String x (a +:+ b +:+ c)). by rewrite IH.
Qed.

Lemma append_empty_r (a : string) : a +:+ EmptyString = a.
Proof.
  induction a as [|x a IH]; [done|].
  change (String x (a +:+ EmptyString) = String x a). by rewrite IH.
Qed.

Lemma Fprintf_insert (fs : FS) path c data :
  Fprintf (<[path := c]> fs) path data = <[path := c +:+ data]> fs.
Proof. unfold Fprintf. by rewrite alter_insert_eq. Qed.

Lemma concat_empty_cons (x : string) (l : list string) :
  String.concat EmptyString (x :: l) = x +:+ String.concat EmptyString l.
Proof. destruct l; simpl; [by rewrite append_empty_r|done]. Qed.

Lemma write_highlights_insert (fs : FS) path c hs :
  foldl (write_highlight path) (<[path := c]> fs) hs
  = <[path := c +:+ spec_quotes hs]> fs.
Proof.
  revert c. induction hs as [|h hs IH]; intros c.
  - simpl. by rewrite append_empty_r.
  - cbn [foldl]. unfold write_highlight at 2, spec_quotes.
    rewrite fmap_cons, filter_cons. cbn [compose].
    destruct (decide (strings_TrimSpace (Text h) = EmptyString)) as [E|E].
    + rewrite decide_False by (by intros []). apply IH.
    + rewrite decide_True by done.
      rewrite Fprintf_insert, IH, fmap_cons, concat_empty_cons.
      by rewrite append_assoc.
Qed.

Lemma heading_written (fs : FS) path (b : Book) :
  (if decide (Author b ≠ EmptyString)
   then Fprintf (<[path := EmptyString]> fs) path
          ("# " +:+ Title b +:+ " (" +:+ Author b +:+ ")" +:+ nl +:+ nl)
   else Fprintf (<[path := EmptyString]> fs) path ("# " +:+ Title b +:+ nl +:+ nl))
  = <[path := spec_heading b]> fs.
Proof.
  unfold spec_heading.
  destruct (Author b) as [|a au]; simpl decide.
  - rewrite decide_False by (by intros []). by rewrite Fprintf_insert.
  - rewrite decide_True by done. rewrite Fprintf_insert. cbn [String.append].
    by rewrite !append_assoc.
Qed.

(** A book whose file can be created leaves exactly the specified content at
    its path, replacing what was there. *)
Lemma export_book_insert os Dir (fs : FS) b :
  Create_fails os (markdown_path os Dir b) = false →
  (export_book os Dir fs b).1 = <[markdown_path os Dir b := spec_content b]> fs.
Proof.
  intros Hc. unfold export_book. rewrite Hc. unfold os_Create.
  rewrite heading_written, write_highlights_insert.
  by destruct (Close_fails _ _).
Qed.

Lemma export_book_ok os Dir (fs fs' : FS) b :
  export_book os Dir fs b = (fs', None) →
  fs' = <[markdown_path os Dir b := spec_content b]> fs.
Proof.
  intros H. destruct (Create_fails os (markdown_path os Dir b)) eqn:Hc.
  - unfold export_book in H. by rewrite Hc in H.
  - by rewrite <-(export_book_insert os Dir fs b Hc), H.
Qed.

(** After a successful export each book's path holds the content of the last
    book written there. *)
Lemma export_books_last os Dir books : ∀ (fs fs' : FS) i b,
  export_books os Dir fs books = (fs', None) →
  books !! i = Some b →
  (∀ j b', i < j → books !! j = Some b' →
           markdown_path os Dir b' ≠ markdown_path os Dir b) →
  fs' !! markdown_path os Dir b = Some (spec_content b).
Proof.
  induction books as [|b0 books IH]; intros fs fs' i b Hex Hi Hlast; [done|].
  cbn [export_books] in Hex.
  destruct (export_book os Dir fs b0) as [fs1 [e|]] eqn:Hb0; [done|].
  apply export_book_ok in Hb0 as ->.
  destruct i as [|i]; simpl in Hi.
  - injection Hi as ->.
    assert (∀ books (fs fs' : FS) c,
      export_books os Dir fs books = (fs', None) →
      fs !! markdown_path os Dir b = Some c →
      (∀ b', b' ∈ books → markdown_path os Dir b' ≠ markdown_path os Dir b) →
      fs' !! markdown_path os Dir b = Some c) as Hkeep.
    { clear. induction books as [|b1 books IH]; intros fs fs' c Hex Hfs Hne.
      - by injection Hex as <-.
      - cbn [export_books] in Hex.
        destruct (export_book os Dir fs b1) as [fs1 [e|]] eqn:Hb1; [done|].
        apply export_book_ok in Hb1 as ->.
        eapply IH; [done| |].
        + rewrite lookup_insert_ne; [done|]. apply Hne. left.
        + intros. apply Hne. by right. }
    eapply Hkeep; [done|apply lookup_insert_eq|].
    intros b' [j Hj]%list_elem_of_lookup. apply (Hlast (S j)); [lia|done].
  - eapply IH; [done..|]. intros j b' ??. apply (Hlast (S j)); [lia|done].
Qed.

(** * The grouping of [fetchBooks] *)

Lemma rows_of_title_snoc t rows row :
  rows_of_title t (rows ++ [row]) =
  rows_of_title t rows ++
  match Scan row with
  | Some r => if decide (row_title r = t) then [r] else []
  | None => []
  end.
Proof.
  unfold rows_of_title, scanned. rewrite omap_app, filter_app. f_equal.
  simpl. destruct (Scan row) as [r|]; simpl; [|done].
  rewrite filter_cons, filter_nil. by destruct (decide _).
Qed.

Lemma book_of_snoc t r0 rs r :
  book_of t ((r0 :: rs) ++ [r]) =
  Some (mkBook t (row_author r0) (row_highlight <$> (r0 :: rs) ++ [r])).
Proof. done. Qed.

(** What the loop over the rows has built after [rows]. *)
Lemma group_rows_spec rows :
  let st := foldl group_row (∅, []) rows in
  (∀ t, st.1 !! t = book_of t (rows_of_title t rows)) ∧
  NoDup st.2 ∧
  (∀ t, t ∈ st.2 ↔ rows_of_title t rows ≠ []).
Proof.
  induction rows as [|row rows IH] using rev_ind.
  { simpl. split; [done|]. split; [constructor|]. intros t. split; [by intros ?%elem_of_nil|done]. }
  rewrite foldl_snoc.
  destruct (foldl group_row (∅, []) rows) as [grouped order].
  destruct IH as (Hg & Hnd & Hord). simpl in Hg, Hnd, Hord.
  unfold group_row.
  destruct (Scan row) as [[[[title author] text] date]|] eqn:Hscan; cycle 1.
  { simpl. setoid_rewrite rows_of_title_snoc. rewrite Hscan.
    setoid_rewrite app_nil_r. done. }
  set (r := (title, author, text, date)).
  assert (∀ t, rows_of_title t (rows ++ [row]) =
               rows_of_title t rows ++ if decide (title = t) then [r] else []) as Hsnoc.
  { intros t. by rewrite rows_of_title_snoc, Hscan. }
  destruct (grouped !! title) as [b|] eqn:Hb; simpl.
  - rewrite Hg in Hb.
    destruct (rows_of_title title rows) as [|r0 rs] eqn:Hrows; [done|].
    injection Hb as <-.
    split; [|split; [done|]].
    + intros t. rewrite Hsnoc. destruct (decide (title = t)) as [<-|Hne].
      * rewrite lookup_alter_eq, Hg, Hrows. simpl. by rewrite fmap_app.
      * by rewrite lookup_alter_ne, app_nil_r.
    + intros t. rewrite Hord, Hsnoc. destruct (decide (title = t)) as [<-|Hne].
      * rewrite Hrows. done.
      * by rewrite app_nil_r.
  - rewrite Hg in Hb.
    destruct (rows_of_title title rows) as [|r0 rs] eqn:Hrows; [|done].
    split; [|split].
    + intros t. rewrite Hsnoc. destruct (decide (title = t)) as [<-|Hne].
      * rewrite lookup_alter_eq, lookup_insert_eq, Hrows. done.
      * by rewrite lookup_alter_ne, lookup_insert_ne, app_nil_r.
    + apply NoDup_app. split; [done|]. split; [|apply NoDup_singleton].
      intros t Ht ->%list_elem_of_singleton. by apply Hord in Ht.
    + intros t. rewrite elem_of_app, list_elem_of_singleton, Hord, Hsnoc.
      destruct (decide (title = t)) as [<-|Hne].
      * rewrite Hrows. split; [done|by right].
      * rewrite app_nil_r. split; [by intros [?| ->]|by left].
Qed.

Lemma sort_Strings_Permutation x : sort_Strings x ≡ₚ x.
Proof. apply merge_sort_Permutation. Qed.

Lemma sort_Strings_sorted x : StronglySorted String.le (sort_Strings x).
Proof. apply StronglySorted_merge_sort; apply _. Qed.

Lemma StronglySorted_strict (l : list string) :
  StronglySorted String.le l → NoDup l → StronglySorted string_lt l.
Proof.
  induction 1 as [|x l Hl IH Hx]; intros Hnd; [constructor|].
  apply NoDup_cons in Hnd as [Hx' Hnd].
  constructor; [auto|].
  apply Forall_forall. intros y Hy. split.
  - by eapply Forall_forall in Hx.
  - by intros ->.
Qed.

(** The books that [group_books] returns, spelled out. *)
Lemma group_books_spec rows :
  ∃ titles books,
    group_books rows = Some books ∧
    titles = Title <$> books ∧
    StronglySorted string_lt titles ∧
    (∀ t, t ∈ titles ↔ rows_of_title t rows ≠ []) ∧
    Forall2 (λ t b, book_of t (rows_of_title t rows) = Some b) titles books.
Proof.
  pose proof (group_rows_spec rows) as Hspec. unfold group_books.
  destruct (foldl group_row (∅, []) rows) as [grouped order].
  destruct Hspec as (Hg & Hnd & Hord). simpl in *.
  assert (∀ t, t ∈ sort_Strings order ↔ rows_of_title t rows ≠ []) as Hsorted.
  { intros t. by rewrite sort_Strings_Permutation. }
  assert (is_Some (mapM (λ t, grouped !! t) (sort_Strings order)))
    as [books Hbooks].
  { apply mapM_is_Some, Forall_forall. intros t Ht%Hsorted. simpl.
    rewrite Hg. by destruct (rows_of_title t rows). }
  exists (sort_Strings order), books. rewrite Hbooks.
  apply mapM_Some in Hbooks.
  assert (Forall2 (λ t b, book_of t (rows_of_title t rows) = Some b)
            (sort_Strings order) books) as HF.
  { eapply Forall2_impl; [done|]. intros t b. simpl. by rewrite Hg. }
  split; [done|]. split; [|split; [|done]].
  - clear -HF. induction HF as [|t b ts bs Hb _ IH]; [done|]. simpl. f_equal; [|done].
    destruct (rows_of_title t rows); simplify_eq/=; done.
  - apply StronglySorted_strict; [apply sort_Strings_sorted|].
    by rewrite sort_Strings_Permutation.
Qed.

Lemma rows_of_title_nonempty t rows :
  rows_of_title t rows ≠ [] ↔ t ∈ row_title <$> scanned rows.
Proof.
  unfold rows_of_title. rewrite list_elem_of_fmap. split.
  - destruct (filter _ _) as [|r rs] eqn:Hf; [done|]. intros _.
    assert (r ∈ filter (λ r, row_title r = t) (scanned rows)) as Hr
      by (rewrite Hf; left).
    apply list_elem_of_filter in Hr as [<- Hr]. eauto.
  - intros (r & -> & Hr) Hnil.
    assert (r ∈ filter (λ r', row_title r' = row_title r) (scanned rows)) as Hin
      by (by apply list_elem_of_filter).
    rewrite Hnil in Hin. by apply elem_of_nil in Hin.
Qed.

(** ** Counting highlights *)

Lemma sum_list_fmap_add {A} (f g : A → nat) (l : list A) :
  sum_list ((λ x, f x + g x) <$> l) = sum_list (f <$> l) + sum_list (g <$> l).
Proof. induction l as [|x l IH]; csimpl; lia. Qed.

Lemma sum_list_indicator (x : string) (ts : list string) :
  NoDup ts →
  sum_list ((λ t, if decide (x = t) then 1 else 0) <$> ts) =
  if decide (x ∈ ts) then 1 else 0.
Proof.
  induction 1 as [|t ts Ht Hnd IH]; csimpl.
  - done.
  - rewrite IH. repeat case_decide; subst; try done; exfalso;
      repeat match goal with
             | H : context [_ ∈ _ :: _] |- _ => rewrite elem_of_cons in H
             end;
      intuition congruence.
Qed.

(** Every row is counted once, under its own title. *)
Lemma sum_by_title (ts : list string) (l : list ScannedRow) :
  NoDup ts → (∀ r, r ∈ l → row_title r ∈ ts) →
  sum_list ((λ t, length (filter (λ r, row_title r = t) l)) <$> ts) = length l.
Proof.
  intros Hnd. induction l as [|r l IH]; intros Hin.
  - clear. induction ts; csimpl; auto.
  - trans (sum_list ((λ t, (if decide (row_title r = t) then 1 else 0)
                           + length (filter (λ r, row_title r = t) l)) <$> ts)).
    { f_equal. apply list_fmap_ext. intros _ t _. rewrite filter_cons.
      by destruct (decide _). }
    rewrite sum_list_fmap_add, sum_list_indicator by done.
    rewrite decide_True by (apply Hin; left).
    rewrite IH by (intros; apply Hin; by right). done.
Qed.

Lemma group_books_total rows books :
  group_books rows = Some books → total_highlights books = length (scanned rows).
Proof.
  intros Hb. destruct (group_books_spec rows) as (titles & books' & Hb' & -> & Hs & Hin & HF).
  rewrite Hb in Hb'. injection Hb' as <-.
  assert (NoDup (Title <$> books)) as Hnd.
  { clear -Hs. induction Hs as [|t ts Hs IH Ht]; constructor; [|done].
    intros Hin. eapply Forall_forall in Ht as [_ Hne]; done. }
  rewrite <-(sum_by_title (Title <$> books) (scanned rows) Hnd); cycle 1.
  { intros r Hr. apply Hin, rows_of_title_nonempty, list_elem_of_fmap. eauto. }
  unfold total_highlights. rewrite <-list_fmap_compose.
  f_equal. apply Forall_fmap_ext, Forall_forall. intros b Hbin.
  apply list_elem_of_lookup in Hbin as [i Hi].
  eapply Forall2_lookup_r in HF as (t & Ht & Hbook); [|done].
  rewrite list_lookup_fmap, Hi in Ht. injection Ht as <-.
  simpl. fold (rows_of_title (Title b) rows).
  destruct (rows_of_title (Title b) rows); simplify_eq/=.
  rewrite <-Hbook. simpl. by rewrite length_fmap.
Qed.

Lemma fetchBooks_inr db limit books :
  fetchBooks db limit = inr books →
  group_books (run_query db limit) = Some books.
Proof.
  unfold fetchBooks. repeat case_match; intros; simplify_eq/=; done.
Qed.

(** [fetchBooks] returns books whenever the file, the schema check and the
    query raise no error: the grouping itself never fails. *)
Lemma fetchBooks_returns db limit size :
  os_Stat db = StatSize size → sql_Open_fails db = false →
  schema_check db = BookmarkFound →
  Query_fails db limit = false → rows_Err db limit = false →
  ∃ books, fetchBooks db limit = inr books.
Proof.
  intros Hst Hop Hsc Hq He. unfold fetchBooks. rewrite Hst, Hop, Hsc, Hq, He.
  destruct (group_books_spec (run_query db limit)) as (_ & books & -> & _).
  by exists books.
Qed.

Lemma length_scanned rows : length (scanned rows) ≤ length rows.
Proof.
  unfold scanned. induction rows as [|r rows IH]; [done|].
  cbn [omap list_omap]. destruct (Scan r); cbn [length]; lia.
Qed.

(** ** The rows the query keeps *)

Lemma run_query_where db limit row :
  row ∈ run_query db limit →
  ∃ r, where_clause r = true ∧ row = select_columns r.
Proof.
  unfold run_query. intros Hrow.
  assert (row ∈ select_columns <$> filter (λ r, where_clause r = true) (joined_rows db))
    as Hin.
  { destruct (decide (0 < limit)%Z); [|done].
    apply elem_of_take in Hrow as (i & Hi & _). apply list_elem_of_lookup. eauto. }
  apply list_elem_of_fmap in Hin as (r & -> & Hr%list_elem_of_filter).
  exists r. by destruct Hr.
Qed.

Lemma scanned_text db limit r :
  r ∈ scanned (run_query db limit) → 0 < sql_LENGTH (sql_TRIM (Text (row_highlight r))).
Proof.
  unfold scanned. intros (row & Hrow & Hscan)%list_elem_of_omap.
  apply run_query_where in Hrow as (jr & Hw & ->).
  unfold where_clause in Hw. unfold select_columns, Scan in Hscan.
  destruct (b_Text jr) as [text|]; [|done].
  destruct (c_Title jr), (b_DateCreated jr); simplify_eq/=.
  by apply bool_decide_eq_true in Hw.
Qed.

Example group_books_sample :
  group_books [(Some "B", Some "x", Some "h1", Some "d");
               (Some "A", Some "y", Some "h2", Some "d");
               (None, Some "z", Some "skipped", Some "d");
               (Some "B", Some "z", Some "h3", Some "d")]
  = Some [mkBook "A" "y" [mkHighlight "h2" "d"];
          mkBook "B" "x" [mkHighlight "h1" "d"; mkHighlight "h3" "d"]].
Proof. reflexivity. Qed.

(** * The Notion client: the requests it sends *)

Lemma sent_new_requests st st' delta : sent st st' delta → new_requests st st' = delta.
Proof. unfold sent, new_requests. intros ->. by rewrite drop_app_length. Qed.

Lemma sent_refl st : sent st st [].
Proof. unfold sent. by rewrite app_nil_r. Qed.

Lemma sent_trans a b c d1 d2 : sent a b d1 → sent b c d2 → sent a c (d1 ++ d2).
Proof. unfold sent. intros H1 H2. by rewrite H2, H1, (assoc_L (++)). Qed.

Section client.
Context (env : NotionEnv).

Lemma http_request_sent id req hist :
  ∃ delta, (http_request env id req hist).2 = hist ++ delta
           ∧ (delta = [] ∨ delta = [req]).
Proof.
  unfold http_request, http_Do. destruct (url_ok env id).
  - exists [req]. destruct (server env hist req); auto.
  - exists []. rewrite app_nil_r. auto.
Qed.

Lemma resolve_sent st :
  ∃ delta, sent st (resolveTitlePropertyName env st).2 delta
           ∧ Forall (λ r, is_schema r = true) delta.
Proof.
  destruct st as [n hist]. unfold resolveTitlePropertyName, sent.
  destruct (http_request_sent (databaseID n) (GetDatabase (databaseID n)) hist)
    as (delta & Hd & Hdelta).
  exists delta. split.
  - destruct (http_request _ _ _ _) as [[e|resp] hist']; simpl in *; [done|].
    repeat case_match; done.
  - destruct Hdelta as [-> | ->]; repeat constructor.
Qed.

Lemma ensure_resolved_sent st :
  ∃ delta, sent st (ensure_resolved env st) delta
           ∧ Forall (λ r, is_schema r = true) delta.
Proof.
  unfold ensure_resolved. destruct (resolvedTitle st.1).
  - exists []. split; [apply sent_refl|constructor].
  - apply resolve_sent.
Qed.

Lemma pageExistsByTitle_sent title st :
  ∃ delta, sent st (pageExistsByTitle env title st).2 delta
           ∧ Forall (λ r, is_write r = false) delta.
Proof.
  unfold pageExistsByTitle.
  destruct (ensure_resolved_sent st) as (d1 & Hd1 & Hs1).
  destruct (ensure_resolved env st) as [n hist].
  destruct (http_request_sent (databaseID n)
              (QueryDatabase (databaseID n) (titlePropName n) title) hist)
    as (d2 & Hd2 & Hdelta).
  exists (d1 ++ d2). split.
  - eapply sent_trans; [done|]. unfold sent.
    destruct (http_request _ _ _ _) as [[e|resp] hist']; simpl in *; [done|].
    repeat case_match; done.
  - apply Forall_app. split.
    + eapply Forall_impl; [done|]. by intros [].
    + destruct Hdelta as [-> | ->]; repeat constructor.
Qed.

Lemma create_page_client title author st :
  (create_page env title author st).2.1 = st.1.
Proof.
  destruct st as [n hist]. unfold create_page, http_Do.
  repeat (case_match; simplify_eq/=); done.
Qed.

Lemma create_page_sent title author st :
  ∃ delta, sent st (create_page env title author st).2 delta
           ∧ Forall (λ r, is_create r = true) delta.
Proof.
  destruct st as [n hist]. unfold create_page, http_Do, sent.
  set (req1 := CreatePage _ _). set (req2 := CreatePage _ _).
  destruct (server env hist req1) as [|resp1]; simpl.
  { exists [req1]. split; [done|]. by repeat constructor. }
  destruct (decide _).
  - exists [req1; req2]. split; [|by repeat constructor].
    change [req1; req2] with ([req1] ++ [req2]). rewrite (assoc_L (++)).
    destruct (server env _ req2); simpl; [done|].
    repeat case_match; done.
  - exists [req1]. split; [|by repeat constructor].
    simpl. repeat case_match; done.
Qed.

(** ** The append loop *)

Lemma append_loop_step pageID blocks i st :
  append_loop env pageID blocks i st =
  if decide (i < length blocks) then
    match http_request env pageID
            (AppendChildren pageID (take 100 (drop i blocks))) st.2 with
    | (inl e, hist) => (Some (ErrAppendHttp e), (st.1, hist))
    | (inr resp, hist) =>
      if (300 <=? StatusCode resp)%Z
      then (Some (ErrAppend (Status resp) (truncateForLog (Body resp) 300)),
            (st.1, hist))
      else append_loop env pageID blocks (i + 100) (st.1, hist)
    end
  else (None, st).
Proof.
  rewrite append_loop_equation_1.
  destruct (decide (i < length blocks)) as [Hlt|Hge]; simp append_loop; [|done].
  cbv zeta.
  assert (take ((if decide (length blocks < i + 100) then length blocks else i + 100) - i)
            (drop i blocks) = take 100 (drop i blocks)) as ->; [|done].
  destruct (decide _); [|f_equal; lia].
  rewrite !take_ge; [done|rewrite length_drop; lia..].
Qed.

Lemma batch_count_lt blocks k : k < batch_count blocks ↔ 100 * k < length blocks.
Proof.
  unfold batch_count. split.
  - intros H. destruct (decide (100 * k < length blocks)); [done|exfalso].
    assert ((length blocks + 99) / 100 < S k); [|lia].
    apply Nat.Div0.div_lt_upper_bound. lia.
  - intros H. apply Nat.div_le_lower_bound; lia.
Qed.

(** The loop sends the batches in order and stops at the first failure. *)
Lemma append_loop_batches pageID blocks m : ∀ k st r st',
  batch_count blocks - k = m →
  append_loop env pageID blocks (100 * k) st = (r, st') →
  st'.1 = st.1 ∧
  ∃ j, j ≤ m ∧
    sent st st' (AppendChildren pageID ∘ batch blocks <$> seq k j) ∧
    (r = None → j = m).
Proof.
  induction m as [|m IH]; intros k [n hist] r st' Hm; rewrite append_loop_step;
    cbn [fst snd].
  - rewrite decide_False by (rewrite <-batch_count_lt; lia).
    intros [= <- <-]. split; [done|]. exists 0. split; [done|].
    split; [apply sent_refl|done].
  - rewrite decide_True by (rewrite <-batch_count_lt; lia).
    fold (batch blocks k). set (req := AppendChildren pageID (batch blocks k)).
    unfold http_request, http_Do.
    destruct (url_ok env pageID).
    2:{ intros [= <- <-]. split; [done|]. exists 0. split; [lia|].
        split; [apply sent_refl|done]. }
    destruct (server env hist req) as [|resp].
    { intros [= <- <-]. split; [done|]. exists 1. split; [lia|]. split; done. }
    destruct (300 <=? StatusCode resp)%Z.
    { intros [= <- <-]. split; [done|]. exists 1. split; [lia|]. split; done. }
    replace (100 * k + 100) with (100 * S k) by lia.
    intros Hrec. apply IH in Hrec as (Hn & j & Hj & Hsent & Hr); [|lia].
    split; [done|]. exists (S j). split; [lia|]. split; [|intros; f_equal; auto].
    unfold sent in *. simpl in *. rewrite Hsent. by rewrite <-(assoc_L (++)).
Qed.

Lemma length_batch blocks k : length (batch blocks k) ≤ 100.
Proof. unfold batch. rewrite length_take. lia. Qed.
End client.

(** ** The blocks of a page *)

Lemma highlight_blocks_go n (l : list string) : ∀ k acc,
  k + length l = n →
  foldl (λ blocks (ih : nat * string),
           let blocks := blocks ++ [QuoteBlock ih.2] in
           if decide (ih.1 < n - 1) then blocks ++ [ParagraphBlock] else blocks)
        acc (imap (λ i h, (k + i, h)) l)
  = acc ++ interleave l.
Proof.
  induction l as [|h l IH]; intros k acc Hk; simpl.
  - by rewrite app_nil_r.
  - rewrite (imap_ext _ (λ i h, (S k + i, h))) by (intros; simpl; f_equal; lia).
    rewrite IH by (simpl in *; lia). rewrite Nat.add_0_r.
    destruct l as [|h' l]; simpl in *.
    + rewrite decide_False by lia. by rewrite <-(assoc_L (++)).
    + rewrite decide_True by lia. by rewrite <-!(assoc_L (++)).
Qed.

Lemma highlight_blocks_interleave highlights :
  highlight_blocks highlights = interleave highlights.
Proof.
  unfold highlight_blocks.
  rewrite (imap_ext _ (λ i h, (0 + i, h))) by done.
  by rewrite (highlight_blocks_go (length highlights)).
Qed.

Lemma length_interleave l : length (interleave l) = 2 * length l - 1.
Proof.
  induction l as [|h l IH]; [done|]. simpl.
  destruct l; simpl in *; lia.
Qed.

Lemma length_highlight_blocks highlights :
  length (highlight_blocks highlights) = 2 * length highlights - 1.
Proof. by rewrite highlight_blocks_interleave, length_interleave. Qed.

Example highlight_blocks_3 :
  highlight_blocks ["a"; "b"; "c"] =
  [QuoteBlock "a"; ParagraphBlock; QuoteBlock "b"; ParagraphBlock; QuoteBlock "c"].
Proof. reflexivity. Qed.

(** ** [truncateForLog] *)

Lemma length_str s : String.length (str s) = length s.
Proof. by rewrite <-length_bts, bts_str. Qed.

Lemma length_append (a b : string) :
  String.length (a +:+ b) = String.length a + String.length b.
Proof. by rewrite <-!length_bts, bts_app, length_app. Qed.

Lemma truncateForLog_length s max : String.length (truncateForLog s max) ≤ max.
Proof.
  unfold truncateForLog. repeat case_decide; [done| |].
  - rewrite length_str, length_take. lia.
  - rewrite length_append, length_str, length_take. simpl. lia.
Qed.

Example truncateForLog_long : truncateForLog "abcdefgh" 5 = "ab...".
Proof. reflexivity. Qed.

Section phases.
Context (env : NotionEnv).

(** ** [EnsureBookPage], phase by phase *)

(** The book's page exists, or the check failed: nothing is written. *)
Lemma EnsureBookPage_no_write title author highlights st r st1 :
  pageExistsByTitle env (notionTitle title author) (ensure_resolved env st) = (r, st1) →
  r ≠ inr false →
  EnsureBookPage env title author highlights st =
    (match r with inl e => Some (ErrCheckExisting e) | inr _ => None end, st1)
  ∧ ∃ delta, sent st st1 delta ∧ Forall (λ r, is_write r = false) delta.
Proof.
  intros Hex Hr. unfold EnsureBookPage. rewrite Hex.
  split; [by destruct r as [e|[]]|].
  destruct (ensure_resolved_sent env st) as (d1 & Hd1 & Hs1).
  destruct (pageExistsByTitle_sent env (notionTitle title author)
              (ensure_resolved env st)) as (d2 & Hd2 & Hs2).
  rewrite Hex in Hd2. exists (d1 ++ d2). split; [by eapply sent_trans|].
  apply Forall_app. split; [|done]. eapply Forall_impl; [done|]. by intros [].
Qed.

(** The page does not exist: it is created and the blocks are appended. *)
Lemma EnsureBookPage_create title author highlights st st1 :
  pageExistsByTitle env (notionTitle title author) (ensure_resolved env st)
    = (inr false, st1) →
  EnsureBookPage env title author highlights st =
    match create_page env title author st1 with
    | (inl e, st2) => (Some e, st2)
    | (inr pageID, st2) => append_loop env pageID (highlight_blocks highlights) 0 st2
    end.
Proof. intros Hex. unfold EnsureBookPage. by rewrite Hex. Qed.
End phases.

(** ** Title-property discovery *)

Section discovery.
Context (env : NotionEnv).

Lemma steps_trans a b c : steps env a b → steps env b c → steps env a c.
Proof.
  induction 1; intros; [done|eapply steps_send|eapply steps_resolve]; eauto.
Qed.

Lemma steps_sent n hist delta :
  Forall (λ r, is_schema r = false) delta → steps env (n, hist) (n, hist ++ delta).
Proof.
  intros HF. revert hist. induction HF as [|r delta Hr _ IH]; intros hist.
  - rewrite app_nil_r. constructor.
  - eapply steps_send; [done|].
    replace (hist ++ r :: delta) with ((hist ++ [r]) ++ delta)
      by (by rewrite <-(assoc_L (++))).
    apply IH.
Qed.

Lemma steps_http_request n id req hist :
  is_schema req = false → steps env (n, hist) (n, (http_request env id req hist).2).
Proof.
  intros Hreq. destruct (http_request_sent env id req hist) as (d & -> & [-> | ->]);
    apply steps_sent; by repeat constructor.
Qed.

Lemma steps_ensure_resolved st : steps env st (ensure_resolved env st).
Proof.
  unfold ensure_resolved. destruct (resolvedTitle st.1) eqn:Hr; [constructor|].
  eapply steps_resolve; [done|constructor].
Qed.

Lemma steps_pageExistsByTitle title st :
  steps env st (pageExistsByTitle env title st).2.
Proof.
  unfold pageExistsByTitle. eapply steps_trans; [apply steps_ensure_resolved|].
  destruct (ensure_resolved env st) as [n hist].
  pose proof (steps_http_request n (databaseID n)
    (QueryDatabase (databaseID n) (titlePropName n) title) hist eq_refl) as Hs.
  destruct (http_request _ _ _ _) as [[e|resp] hist']; simpl in *; [done|].
  repeat case_match; done.
Qed.

Lemma steps_create_page title author st :
  steps env st (create_page env title author st).2.
Proof.
  pose proof (create_page_client env title author st) as Hc.
  destruct (create_page_sent env title author st) as (d & Hd & HF).
  destruct (create_page env title author st) as [res [n' hist']].
  destruct st as [n hist]. unfold sent in Hd. simpl in *. subst.
  apply steps_sent. eapply Forall_impl; [done|]. by intros [].
Qed.

Lemma steps_append_loop pageID blocks st :
  steps env st (append_loop env pageID blocks 0 st).2.
Proof.
  destruct (append_loop env pageID blocks 0 st) as [r st'] eqn:Hl.
  change 0 with (100 * 0) in Hl.
  eapply append_loop_batches in Hl as (Hn & j & _ & Hsent & _); [|done].
  destruct st as [n hist], st' as [n' hist']. unfold sent in Hsent. simpl in *. subst.
  apply steps_sent, Forall_fmap, Forall_forall. done.
Qed.

Lemma steps_EnsureBookPage title author highlights st :
  steps env st (EnsureBookPage env title author highlights st).2.
Proof.
  unfold EnsureBookPage.
  eapply steps_trans; [apply steps_ensure_resolved|].
  pose proof (steps_pageExistsByTitle (notionTitle title author)
                (ensure_resolved env st)) as Hq.
  destruct (pageExistsByTitle _ _ _) as [[e|[]] st1]; simpl in *; [done..|].
  eapply steps_trans; [done|].
  pose proof (steps_create_page title author st1) as Hc.
  destruct (create_page _ _ _ _) as [[e|pageID] st2]; simpl in *; [done|].
  eapply steps_trans; [done|]. apply steps_append_loop.
Qed.

Lemma steps_export_pages books : ∀ st, steps env st (export_pages env books st).2.
Proof.
  induction books as [|b books IH]; intros st; simpl; [constructor|].
  pose proof (steps_EnsureBookPage (Title b) (Author b) (Text <$> Highlights b) st) as Hb.
  destruct (EnsureBookPage _ _ _ _ _) as [[e|] st1]; simpl in *; [done|].
  eapply steps_trans; [done|apply IH].
Qed.

(** A client marked resolved is left as it is and sends no discovery
    call. *)
Lemma steps_resolved st st' :
  steps env st st' → resolvedTitle st.1 = true →
  st'.1 = st.1 ∧ ∃ delta, sent st st' delta ∧ Forall (λ r, is_schema r = false) delta.
Proof.
  induction 1 as [st|n hist req st' Hreq _ IH|st st' Hun _ _]; intros Hres.
  - split; [done|]. exists []. split; [apply sent_refl|constructor].
  - destruct (IH Hres) as (Hn & d & Hd & HF). split; [done|].
    exists (req :: d). split; [|by constructor].
    unfold sent in *. simpl in *. by rewrite Hd, <-(assoc_L (++)).
  - congruence.
Qed.

Lemma discovered_lt hist i : discovered env hist i → i < length hist.
Proof. intros (id & _ & _ & Hi & _). by eapply lookup_lt_Some. Qed.

Lemma discovered_snoc hist req i :
  discovered env (hist ++ [req]) i ↔
  discovered env hist i ∨ (i = length hist ∧ discovered env (hist ++ [req]) i).
Proof.
  split; [|intros [(id & resp & props & Hi & Hs & ?)|[_ ?]]; [|done]].
  - intros Hd. destruct (decide (i = length hist)) as [->|Hne]; [by right|left].
    pose proof (discovered_lt _ _ Hd) as Hlt. rewrite length_app in Hlt. simpl in Hlt.
    destruct Hd as (id & resp & props & Hi & Hs & ?).
    exists id, resp, props. rewrite lookup_app_l in Hi by lia.
    rewrite take_app_le in Hs by lia. done.
  - pose proof (lookup_lt_Some _ _ _ Hi).
    exists id, resp, props. rewrite lookup_app_l by lia.
    rewrite take_app_le by lia. done.
Qed.

Lemma cached_send n hist req :
  is_schema req = false → cached env (n, hist) → cached env (n, hist ++ [req]).
Proof.
  intros Hreq [Hafter Hnone]. simpl in *.
  assert (∀ i, discovered env (hist ++ [req]) i → discovered env hist i) as Hold.
  { intros i [?|[-> (id & ? & ? & Hi & _)]]%discovered_snoc; [done|].
    rewrite lookup_app_r, Nat.sub_diag in Hi by done. simpl in Hi.
    injection Hi as ->. done. }
  split; simpl.
  - intros i j req' Hd%Hold Hij Hj.
    destruct (decide (j < length hist)).
    + rewrite lookup_app_l in Hj by done. eauto.
    + pose proof (lookup_lt_Some _ _ _ Hj) as Hlt. rewrite length_app in Hlt.
      simpl in Hlt. rewrite lookup_app_r in Hj by lia.
      replace (j - length hist) with 0 in Hj by lia. by injection Hj as <-.
  - intros Hres i Hd%Hold. by eapply Hnone.
Qed.

Lemma cached_resolve st :
  resolvedTitle st.1 = false → cached env st →
  cached env (resolveTitlePropertyName env st).2.
Proof.
  destruct st as [n hist]. intros Hun [_ Hnone]. simpl in *.
  specialize (Hnone Hun).
  unfold resolveTitlePropertyName, http_request, http_Do.
  set (req := GetDatabase (databaseID n)).
  destruct (url_ok env (databaseID n)); cycle 1.
  { split; simpl; [intros i j req' Hd|intros _ i Hd]; by edestruct Hnone. }
  assert (∀ n', cached env (n', hist ++ [req]) ↔
                (resolvedTitle n' = false → ¬ discovered env (hist ++ [req]) (length hist)))
    as Hiff.
  { intros n'. unfold cached. simpl. split.
    - intros [_ H] ?. by apply H.
    - intros H. split.
      + intros i j req' [?|[-> _]]%discovered_snoc Hij Hj; [by edestruct Hnone|].
        apply lookup_lt_Some in Hj. rewrite length_app in Hj. simpl in Hj. lia.
      + intros Hres i [?|[-> ?]]%discovered_snoc; [by eapply Hnone|by apply H]. }
  destruct (server env hist req) as [|resp] eqn:Hresp; simpl.
  { apply Hiff. intros _ (id & resp & props & Hi & Hs & _).
    rewrite lookup_app_r, Nat.sub_diag in Hi by done. injection Hi as <-.
    rewrite take_app_length in Hs. fold req in Hs. congruence. }
  destruct (Z.leb_spec 300 (StatusCode resp)).
  { apply Hiff. intros _ (id & resp' & props & Hi & Hs & Hlt & _).
    rewrite lookup_app_r, Nat.sub_diag in Hi by done. injection Hi as <-.
    rewrite take_app_length in Hs. fold req in Hs.
    rewrite Hresp in Hs. injection Hs as <-. lia. }
  destruct (json_database env (Body resp)) as [props|] eqn:Hj.
  - apply Hiff. done.
  - apply Hiff. intros _ (id & resp' & props & Hi & Hs & Hlt & Hp).
    rewrite lookup_app_r, Nat.sub_diag in Hi by done. injection Hi as <-.
    rewrite take_app_length in Hs. fold req in Hs.
    rewrite Hresp in Hs. injection Hs as <-. congruence.
Qed.

Lemma steps_cached st st' : steps env st st' → cached env st → cached env st'.
Proof.
  induction 1 as [st|n hist req st' Hreq _ IH|st st' Hun _ IH]; intros Hc; [done|..].
  - by apply IH, cached_send.
  - by apply IH, cached_resolve.
Qed.

(** A client that is still not marked resolved is the one that started. *)
Lemma steps_unresolved st st' :
  steps env st st' → resolvedTitle st'.1 = false → st'.1 = st.1.
Proof.
  induction 1 as [st|n hist req st' Hreq _ IH|st st' Hunres _ IH]; intros Hun;
    [done|by apply IH|].
  rewrite (IH Hun). specialize (IH Hun). rewrite IH in Hun. clear -Hun.
  destruct st as [n hist]. unfold resolveTitlePropertyName in *.
  destruct (http_request _ _ _ _) as [[e|resp] hist']; [done|].
  repeat case_match; simplify_eq/=; done.
Qed.

Lemma cached_fresh n : cached env (n, []).
Proof.
  assert (∀ i, ¬ discovered env [] i) as Hnone.
  { intros i Hd%discovered_lt. simpl in Hd. lia. }
  split; simpl; [intros i j req Hd|intros _ i Hd]; by edestruct Hnone.
Qed.
End discovery.

(** C6. The file-name sanitizer is idempotent; its output contains none of
    the nine characters of [hostile] (slash, backslash, colon, star, question
    mark, double quote, less-than, greater-than, bar); and an input that is
    empty or made of white space only becomes the placeholder name book. *)
Theorem sanitizeFilename_spec :
  (∀ s, sanitizeFilename (sanitizeFilename s) = sanitizeFilename s) ∧
  (∀ s c, c ∈ hostile → c ∉ bts (sanitizeFilename s)) ∧
  (∀ s, whitespace_only s → sanitizeFilename s = "book").
Proof.
  split; [apply sanitizeFilename_idempotent|].
  split; [intros; by apply sanitizeFilename_clean|apply sanitizeFilename_blank].
Qed.

Lemma sanitizeFilename_spec_witness :
  ("/"%char ∉ bts (sanitizeFilename "a/b")) ∧
  sanitizeFilename (sp +:+ tab +:+ nbsp +:+ nl) = "book".
Proof.
  split.
  - apply (proj1 (proj2 sanitizeFilename_spec)). decide_closed.
  - apply (proj2 (proj2 sanitizeFilename_spec)). decide_closed.
Defined.

(** C10. The sanitizer is not injective: the titles a/b and a:b, and names
    that differ in a run of spaces, get the same file name, so the two books
    get the same path, and exporting one after the other leaves a single file
    there with the content of the second book, which differs from the content
    of the first. *)
Theorem sanitizer_collision_overwrites :
  Title book_slash ≠ Title book_colon ∧
  sanitizeFilename "a/b" = sanitizeFilename "a:b" ∧
  sanitizeFilename "a b" = sanitizeFilename "a   b" ∧
  spec_content book_slash ≠ spec_content book_colon ∧
  (∀ os Dir, markdown_path os Dir book_slash = markdown_path os Dir book_colon) ∧
  (∀ os Dir (fs : FS),
     Dir ≠ EmptyString → MkdirAll_fails os Dir = false →
     Create_fails os (markdown_path os Dir book_colon) = false →
     Close_fails os (markdown_path os Dir book_colon) = false →
     MarkdownFormat_Export os Dir fs [book_slash; book_colon]
     = (<[markdown_path os Dir book_colon := spec_content book_colon]> fs, None)).
Proof.
  split; [done|]. split; [reflexivity|]. split; [reflexivity|].
  split; [by vm_compute|]. split; [reflexivity|].
  intros os Dir fs HDir Hmk Hcr Hcl. unfold MarkdownFormat_Export.
  rewrite decide_False, Hmk by done. cbn [export_books].
  assert (markdown_path os Dir book_slash = markdown_path os Dir book_colon) as Hp
    by reflexivity.
  pose proof (export_book_insert os Dir fs book_slash) as H1.
  rewrite Hp in H1. specialize (H1 Hcr).
  assert (export_book os Dir fs book_slash = ((export_book os Dir fs book_slash).1, None)) as ->.
  { unfold export_book. rewrite Hp, Hcr, Hcl. done. }
  rewrite H1.
  pose proof (export_book_insert os Dir
    (<[markdown_path os Dir book_colon := spec_content book_slash]> fs) book_colon Hcr) as H2.
  rewrite insert_insert_eq in H2.
  assert (∀ fs0, export_book os Dir fs0 book_colon
                 = ((export_book os Dir fs0 book_colon).1, None)) as ->.
  { intros fs0. unfold export_book. rewrite Hcr, Hcl. done. }
  by rewrite H2.
Qed.

Lemma sanitizer_collision_overwrites_witness :
  MarkdownFormat_Export os_ok "out" ∅ [book_slash; book_colon]
  = ({[ "out/a-b.md" := "# a:b" +:+ nl +:+ nl +:+ "> y" +:+ nl +:+ nl ]}, None).
Proof.
  rewrite (proj2 (proj2 (proj2 (proj2 (proj2 sanitizer_collision_overwrites))))
             os_ok "out" ∅); [reflexivity|done|reflexivity..].
Defined.

(** C4. The highlights of all returned books are as many as the rows
    fetched that scan. With a positive limit the rows fetched are the first
    [limit] rows of the unlimited result, whichever book they fall in, so the
    total of highlights is at most the limit; with limit 0 every selected row
    is fetched. *)
Theorem limit_caps_raw_rows db limit books :
  fetchBooks db limit = inr books →
  total_highlights books = length (scanned (run_query db limit)) ∧
  ((0 < limit)%Z →
     run_query db limit = take (Z.to_nat limit) (run_query db 0) ∧
     length (run_query db limit) ≤ Z.to_nat limit ∧
     (Z.of_nat (total_highlights books) ≤ limit)%Z) ∧
  (limit = 0%Z →
     run_query db limit
     = select_columns <$> filter (λ r, where_clause r = true) (joined_rows db)).
Proof.
  intros Hf%fetchBooks_inr. split; [by apply group_books_total|]. split.
  - intros Hpos. rewrite (group_books_total _ _ Hf).
    pose proof (length_scanned (run_query db limit)) as Hsc.
    unfold run_query in *. rewrite decide_True in * by done.
    rewrite decide_False by lia. split; [done|].
    rewrite length_take in *. lia.
  - intros ->. unfold run_query. by rewrite decide_False by lia.
Qed.

Lemma limit_caps_raw_rows_witness :
  (Z.of_nat (total_highlights
     [mkBook "A" EmptyString
        [mkHighlight "one" "2024-01-01T00:00:00";
         mkHighlight "two" "2024-01-01T00:00:00"]]) ≤ 2)%Z.
Proof.
  apply (limit_caps_raw_rows db_three 2); [vm_compute; reflexivity|lia].
Defined.

Lemma sql_TRIM_spaces text :
  Forall (λ c, c = " "%char) (bts text) → sql_TRIM text = EmptyString.
Proof.
  unfold sql_TRIM. intros HF.
  assert (trim_spaces_left (bts text) = []) as ->; [|done].
  induction HF as [|c l -> _ IH]; [done|]. cbn [trim_spaces_left].
  by rewrite decide_True.
Qed.

(** C9, as amended. Every returned Book has at least one highlight, and the
    text of every highlight satisfies the row-selection predicate: it is not
    empty after SQL's TRIM, which removes spaces (0x20) only, so it is not
    made of spaces only. *)
Theorem books_have_selected_highlights db limit books :
  fetchBooks db limit = inr books →
  ∀ b, b ∈ books →
    Highlights b ≠ [] ∧
    ∀ h, h ∈ Highlights b →
      0 < sql_LENGTH (sql_TRIM (Text h)) ∧
      ¬ Forall (λ c, c = " "%char) (bts (Text h)).
Proof.
  intros Hf%fetchBooks_inr b Hb.
  destruct (group_books_spec (run_query db limit))
    as (titles & books' & Hb' & -> & _ & _ & HF).
  rewrite Hf in Hb'. injection Hb' as <-.
  apply list_elem_of_lookup in Hb as [i Hi].
  eapply Forall2_lookup_r in HF as (t & _ & Hbook); [|done].
  destruct (rows_of_title t (run_query db limit)) as [|r rs] eqn:Hrows; [done|].
  assert (Highlights b = row_highlight <$> r :: rs) as ->
    by (by injection Hbook as <-).
  split; [done|].
  intros h (r' & -> & Hr')%list_elem_of_fmap.
  rewrite <-Hrows in Hr'. apply list_elem_of_filter in Hr' as [_ Hr'].
  pose proof (scanned_text _ _ _ Hr') as Hlen. split; [done|].
  intros Hsp%sql_TRIM_spaces. rewrite Hsp in Hlen. vm_compute in Hlen. lia.
Qed.

Lemma books_have_selected_highlights_witness :
  0 < sql_LENGTH (sql_TRIM "one").
Proof.
  refine (proj1 (proj2 (books_have_selected_highlights db_three 2 _ _
            (mkBook "A" EmptyString _) _) (mkHighlight "one" _) _)).
  - vm_compute. reflexivity.
  - left.
  - left.
Defined.

(** C9 as stated fails: a row whose text is one newline passes the
    predicate, and the highlight of the returned Book is blank, that is empty
    after [strings.TrimSpace], the test of the Markdown exporter. *)
Lemma blank_highlight_counterexample :
  ¬ (∀ db limit books, fetchBooks db limit = inr books →
       ∀ b, b ∈ books → ∀ h, h ∈ Highlights b →
         strings_TrimSpace (Text h) ≠ EmptyString).
Proof.
  intros H.
  apply (H db_newline 0%Z [mkBook "A" EmptyString [mkHighlight nl "2024-01-01T00:00:00"]]
           eq_refl _ ltac:(left) _ ltac:(left)).
  reflexivity.
Qed.

(** C7. When the existence check finds a page with the book's display
    title, [EnsureBookPage] returns no error, none of the requests sent for
    the book is a page creation or a block append, and the export continues
    with the next book. *)
Theorem existing_page_skipped env (b : Book) books st st1 :
  pageExistsByTitle env (notionTitle (Title b) (Author b)) (ensure_resolved env st)
    = (inr true, st1) →
  EnsureBookPage env (Title b) (Author b) (Text <$> Highlights b) st = (None, st1) ∧
  Forall (λ r, is_write r = false) (new_requests st st1) ∧
  export_pages env (b :: books) st = export_pages env books st1.
Proof.
  intros Hex.
  destruct (EnsureBookPage_no_write env _ _ (Text <$> Highlights b) _ _ _ Hex)
    as (Hen & d & Hd & HF); [done|].
  split; [done|]. split.
  - by rewrite (sent_new_requests _ _ _ Hd).
  - simpl. by rewrite Hen.
Qed.

Lemma existing_page_skipped_witness :
  Forall (λ r, is_write r = false)
    (new_requests fresh
       (pageExistsByTitle env_existing "T (A)" (ensure_resolved env_existing fresh)).2).
Proof.
  refine (proj1 (proj2 (existing_page_skipped env_existing book_TA [] fresh _ _))).
  vm_compute. reflexivity.
Defined.

(** C2, as amended. After a first answer [resp1] to the create request, the
    request is sent once more, with the Author property deleted, exactly when
    the status is 400 and the author is not empty; otherwise it is sent once.
    A final status of 300 or more gives the error [ErrCreatePage] with the
    status and the body truncated to at most 300 bytes, and that error ends
    the export at this book. *)
Theorem create_retry_after_400 env title author n hist resp1 :
  let props := page_properties n title author in
  let req1 := CreatePage (databaseID n) props in
  let req2 := CreatePage (databaseID n) (delete "Author" props) in
  let out := create_page env title author (n, hist) in
  let retry := StatusCode resp1 = 400%Z ∧ author ≠ EmptyString in
  server env hist req1 = Reply resp1 →
  (new_requests (n, hist) out.2 = [req1; req2] ↔ retry) ∧
  (new_requests (n, hist) out.2 = [req1] ↔ ¬ retry) ∧
  (∀ resp,
     (if decide retry then server env (hist ++ [req1]) req2 else Reply resp1) = Reply resp →
     (300 ≤ StatusCode resp)%Z →
     out.1 = inl (ErrCreatePage (Status resp) (truncateForLog (Body resp) 300)) ∧
     String.length (truncateForLog (Body resp) 300) ≤ 300) ∧
  (∀ b books st st1 e st2,
     pageExistsByTitle env (notionTitle (Title b) (Author b)) (ensure_resolved env st)
       = (inr false, st1) →
     create_page env (Title b) (Author b) st1 = (inl e, st2) →
     export_pages env (b :: books) st = (Some (ErrNotionExport (Title b) e), st2)).
Proof.
  intros props req1 req2 out retry Hresp.
  assert (new_requests (n, hist) out.2 = if decide retry then [req1; req2] else [req1])
    as Hnew.
  { apply sent_new_requests. subst out. unfold create_page, http_Do, sent.
    fold props. fold req1. fold req2. rewrite Hresp. fold retry.
    destruct (decide retry); simpl.
    - change [req1; req2] with ([req1] ++ [req2]). rewrite (assoc_L (++)).
      destruct (server env _ req2); simpl; [done|]. repeat case_match; done.
    - repeat case_match; done. }
  split; [|split; [|split]].
  - rewrite Hnew. destruct (decide retry); [done|]. split; [done|by intros].
  - rewrite Hnew. destruct (decide retry); [|done]. split; [done|by intros].
  - intros resp Hfinal Hstatus. split; [|apply truncateForLog_length].
    subst out. unfold create_page, http_Do. fold props. fold req1. fold req2.
    rewrite Hresp. fold retry.
    destruct (decide retry); simpl.
    + rewrite Hfinal. simpl. by destruct (Z.leb_spec 300 (StatusCode resp)); [|lia].
    + injection Hfinal as ->. by destruct (Z.leb_spec 300 (StatusCode resp)); [|lia].
  - intros b books st st1 e st2 Hex Hcreate. simpl.
    rewrite (EnsureBookPage_create env _ _ _ _ _ Hex), Hcreate. done.
Qed.

Lemma create_retry_after_400_witness :
  new_requests fresh
    (create_page env_no_author "T" "A" fresh).2
  = [CreatePage "db" (page_properties fresh.1 "T" "A");
     CreatePage "db" (delete "Author" (page_properties fresh.1 "T" "A"))].
Proof.
  apply (proj2 (proj1 (create_retry_after_400 env_no_author "T" "A" fresh.1 []
                         (mkResponse 400 "400 Bad Request" "Author is not a property")
                         eq_refl))).
  split; [reflexivity|discriminate].
Defined.

(** C2 as stated fails: on a 404, a client error, with an author supplied,
    the create request is not retried. *)
Lemma create_retry_counterexample :
  ¬ (∀ env title author n hist resp1,
       server env hist (CreatePage (databaseID n) (page_properties n title author))
         = Reply resp1 →
       ((400 ≤ StatusCode resp1 < 500)%Z ∧ author ≠ EmptyString ↔
        length (filter (λ r, is_create r = true)
                  (new_requests (n, hist) (create_page env title author (n, hist)).2))
        = 2)).
Proof.
  intros H.
  specialize (H env_404 "T" "A" fresh.1 []
                (mkResponse 404 "404 Not Found" "object_not_found") eq_refl).
  destruct H as [H _]. specialize (H ltac:(split; [simpl; lia|discriminate])).
  vm_compute in H. discriminate.
Qed.

(** ** The append requests of a book whose page is created *)

Lemma concat_batches blocks j k :
  concat (batch blocks <$> seq k j) = take (100 * j) (drop (100 * k) blocks).
Proof.
  revert k. induction j as [|j IH]; intros k; [done|].
  cbn [seq]. rewrite fmap_cons, concat_cons, IH. unfold batch.
  replace (100 * S j) with (100 + 100 * j) by lia.
  rewrite <-take_take_drop, drop_drop. do 3 f_equal. lia.
Qed.

Lemma length_batch_full blocks k :
  100 * S k ≤ length blocks → length (batch blocks k) = 100.
Proof. intros H. unfold batch. rewrite length_take, length_drop. lia. Qed.

Lemma length_batch_last blocks k :
  100 * k ≤ length blocks ≤ 100 * S k →
  length (batch blocks k) = length blocks - 100 * k.
Proof. intros H. unfold batch. rewrite length_take, length_drop. lia. Qed.

Lemma filter_none {A} (P : A → Prop) `{∀ x, Decision (P x)} (l : list A) :
  Forall (λ x, ¬ P x) l → filter P l = [].
Proof.
  induction 1 as [|x l Hx _ IH]; [done|]. by rewrite filter_cons_False.
Qed.

Lemma filter_all {A} (P : A → Prop) `{∀ x, Decision (P x)} (l : list A) :
  Forall P l → filter P l = l.
Proof.
  induction 1 as [|x l Hx _ IH]; [done|]. rewrite filter_cons_True by done.
  by rewrite IH.
Qed.

Section appends.
Context (env : NotionEnv).

(** The requests of a book whose page is created: reads, then the create
    requests, then the batches in order up to the first failure. *)
Lemma EnsureBookPage_appends title author highlights st st1 pageID st2 r st3 :
  pageExistsByTitle env (notionTitle title author) (ensure_resolved env st)
    = (inr false, st1) →
  create_page env title author st1 = (inr pageID, st2) →
  EnsureBookPage env title author highlights st = (r, st3) →
  let blocks := highlight_blocks highlights in
  ∃ reads creates j,
    new_requests st st3 =
      reads ++ creates ++ (AppendChildren pageID ∘ batch blocks <$> seq 0 j) ∧
    Forall (λ r, is_write r = false) reads ∧
    Forall (λ r, is_create r = true) creates ∧
    j ≤ batch_count blocks ∧
    (r = None → j = batch_count blocks).
Proof.
  intros Hex Hcreate Hen blocks.
  rewrite (EnsureBookPage_create env _ _ _ _ _ Hex), Hcreate in Hen.
  destruct (ensure_resolved_sent env st) as (d0 & Hd0 & HF0).
  destruct (pageExistsByTitle_sent env (notionTitle title author)
              (ensure_resolved env st)) as (d1 & Hd1 & HF1).
  rewrite Hex in Hd1.
  destruct (create_page_sent env title author st1) as (d2 & Hd2 & HF2).
  rewrite Hcreate in Hd2.
  change 0 with (100 * 0) in Hen.
  eapply append_loop_batches in Hen as (_ & j & Hj & Hd3 & Hr); [|done].
  rewrite Nat.sub_0_r in *.
  exists (d0 ++ d1), d2, j. split; [|split; [|done]].
  - apply sent_new_requests. rewrite (assoc_L (++)).
    eapply sent_trans; [|done]. eapply sent_trans; [|done].
    by eapply sent_trans.
  - apply Forall_app. split; [|done]. eapply Forall_impl; [done|]. by intros [].
Qed.

Lemma filter_appends (reads creates : list Request) pageID (bs : list (list Block)) :
  Forall (λ r, is_write r = false) reads →
  Forall (λ r, is_create r = true) creates →
  filter (λ r, is_append r = true)
    (reads ++ creates ++ (AppendChildren pageID <$> bs))
  = AppendChildren pageID <$> bs.
Proof.
  intros Hr Hc. rewrite !filter_app.
  rewrite (filter_none _ reads); cycle 1.
  { eapply Forall_impl; [done|]. intros [] H Hx; unfold is_write in *; simpl in *; congruence. }
  rewrite (filter_none _ creates); cycle 1.
  { eapply Forall_impl; [done|]. intros [] H Hx; simpl in *; congruence. }
  simpl. apply filter_all, Forall_fmap, Forall_forall. done.
Qed.
End appends.

(** C1, as amended. For a book whose page is created: the blocks are a
    quote per highlight with a blank paragraph between two quotes; no request
    sent for the book carries more than 100 blocks; and with 250 highlights
    and every append accepted, there are 499 blocks, sent to the created page
    in five append requests of 100, 100, 100, 100 and 99 blocks that together
    carry the blocks in order. *)
Theorem append_in_batches env title author highlights st st1 pageID st2 r st3 :
  pageExistsByTitle env (notionTitle title author) (ensure_resolved env st)
    = (inr false, st1) →
  create_page env title author st1 = (inr pageID, st2) →
  EnsureBookPage env title author highlights st = (r, st3) →
  let appends := filter (λ req, is_append req = true) (new_requests st st3) in
  highlight_blocks highlights = interleave highlights ∧
  Forall (λ req, length (children_of req) ≤ 100) (new_requests st st3) ∧
  (length highlights = 250 → r = None →
     length (highlight_blocks highlights) = 499 ∧
     Forall (λ req, ∃ children, req = AppendChildren pageID children) appends ∧
     length ∘ children_of <$> appends = [100; 100; 100; 100; 99] ∧
     concat (children_of <$> appends) = highlight_blocks highlights).
Proof.
  intros Hex Hcreate Hen appends.
  destruct (EnsureBookPage_appends env _ _ _ _ _ _ _ _ _ Hex Hcreate Hen)
    as (reads & creates & j & Hnew & Hr & Hc & Hj & Hall).
  split; [apply highlight_blocks_interleave|]. split.
  - rewrite Hnew. rewrite !Forall_app. split; [|split].
    + eapply Forall_impl; [done|].
      intros [] H; unfold is_write in *; simpl in *; (lia || congruence).
    + eapply Forall_impl; [done|]. intros [] H; simpl in *; (lia || congruence).
    + apply Forall_fmap, Forall_forall. intros k _. simpl. apply length_batch.
  - intros Hlen ->. specialize (Hall eq_refl).
    pose proof (length_highlight_blocks highlights) as Hblocks.
    rewrite Hlen in Hblocks. simpl in Hblocks.
    split; [done|].
    assert (j = 5) as -> by (rewrite Hall; unfold batch_count; by rewrite Hblocks).
    subst appends. rewrite Hnew.
    rewrite list_fmap_compose, filter_appends by done.
    split; [|split].
    + apply Forall_fmap, Forall_forall. intros bs _. by eexists.
    + rewrite <-!list_fmap_compose. cbn [seq fmap list_fmap compose children_of].
      rewrite !length_batch_full by lia. rewrite length_batch_last by lia.
      rewrite Hblocks. done.
    + rewrite <-list_fmap_compose.
      rewrite (list_fmap_ext (children_of ∘ AppendChildren pageID) id) by done.
      rewrite list_fmap_id, concat_batches. simpl. rewrite drop_0.
      apply take_ge. lia.
Qed.

Lemma append_in_batches_witness :
  length ∘ children_of <$>
    filter (λ req, is_append req = true)
      (new_requests fresh (EnsureBookPage env_empty "T" "A" highlights_250 fresh).2)
  = [100; 100; 100; 100; 99].
Proof.
  refine (proj1 (proj2 (proj2 (proj2 (proj2
    (append_in_batches env_empty "T" "A" highlights_250 fresh
       (pageExistsByTitle env_empty "T (A)" (ensure_resolved env_empty fresh)).2
       "page-1"
       (create_page env_empty "T" "A"
          (pageExistsByTitle env_empty "T (A)" (ensure_resolved env_empty fresh)).2).2
       None _ _ _ _)) _ _)))).
  - vm_compute. reflexivity.
  - vm_compute. reflexivity.
  - vm_compute. reflexivity.
  - reflexivity.
  - reflexivity.
Defined.

(** C1 as stated fails: 250 highlights take five append requests, not
    three. *)
Lemma three_append_requests_counterexample :
  ¬ (∀ env title author highlights st st',
       length highlights = 250 →
       EnsureBookPage env title author highlights st = (None, st') →
       filter (λ req, is_create req = true) (new_requests st st') ≠ [] →
       length (filter (λ req, is_append req = true) (new_requests st st')) = 3).
Proof.
  intros H.
  specialize (H env_empty "T" "A" highlights_250 fresh
                (EnsureBookPage env_empty "T" "A" highlights_250 fresh).2 eq_refl).
  assert (length (filter (λ req, is_append req = true)
            (new_requests fresh (EnsureBookPage env_empty "T" "A" highlights_250 fresh).2))
          = 5) as H5 by (by vm_compute).
  rewrite H in H5; [discriminate|by vm_compute|by vm_compute].
Qed.

(** C8, as amended. In a run from a new client: no discovery call follows
    a discovery call that succeeded; a client that is still not marked
    resolved is unchanged (its title property is the default Title) and no
    discovery call has succeeded; and once the client is marked resolved,
    exporting more books leaves it unchanged and sends no discovery call. *)
Theorem discovery_cached_after_success env books token db r st' :
  export_pages env books (NewNotionClient token db, []) = (r, st') →
  (∀ i j req, discovered env st'.2 i → i < j → st'.2 !! j = Some req →
              is_schema req = false) ∧
  (resolvedTitle st'.1 = false →
     st'.1 = NewNotionClient token db ∧ ∀ i, ¬ discovered env st'.2 i) ∧
  (∀ more r2 st2,
     resolvedTitle st'.1 = true →
     export_pages env more st' = (r2, st2) →
     st2.1 = st'.1 ∧ Forall (λ req, is_schema req = false) (new_requests st' st2)).
Proof.
  intros Hex.
  pose proof (steps_export_pages env books (NewNotionClient token db, [])) as Hsteps.
  rewrite Hex in Hsteps. simpl in Hsteps.
  destruct (steps_cached env _ _ Hsteps (cached_fresh env _)) as [Hafter Hnone].
  split; [done|]. split.
  - intros Hun. split; [|by apply Hnone].
    by apply (steps_unresolved env _ _ Hsteps).
  - intros more r2 st2 Hres Hmore.
    pose proof (steps_export_pages env more st') as Hs2. rewrite Hmore in Hs2.
    simpl in Hs2. destruct (steps_resolved env _ _ Hs2 Hres) as (Hn & d & Hd & HF).
    split; [done|]. by rewrite (sent_new_requests _ _ _ Hd).
Qed.

Lemma discovery_cached_after_success_witness :
  Forall (λ req, is_schema req = false)
    (new_requests (export_pages env_existing [book_TA] fresh).2
       (export_pages env_existing [book_slash]
          (export_pages env_existing [book_TA] fresh).2).2).
Proof.
  refine (proj2 (proj2 (proj2 (discovery_cached_after_success env_existing [book_TA]
            "secret" "db" None (export_pages env_existing [book_TA] fresh).2 _))
            [book_slash] None _ _ _)).
  - vm_compute. reflexivity.
  - reflexivity.
  - vm_compute. reflexivity.
Defined.

(** C8 as stated fails: when the schema cannot be fetched, the discovery
    call is repeated, four times for two books. *)
Lemma discovery_repeated_counterexample :
  ¬ (∀ env books token db r st',
       export_pages env books (NewNotionClient token db, []) = (r, st') →
       length (filter (λ req, is_schema req = true) st'.2) ≤ 1).
Proof.
  intros H.
  specialize (H env_schema_down [book_TA; book_slash] "secret" "db" None
                (export_pages env_schema_down [book_TA; book_slash] fresh).2
                ltac:(by vm_compute)).
  vm_compute in H. lia.
Qed.

(** * [strings.TrimSpace]: what is removed and what is left *)

Lemma DecodeRune_take s :
  utf8_DecodeRune (take (utf8_DecodeRune s).2 s) = utf8_DecodeRune s.
Proof.
  destruct s as [|c0 t]; [done|].
  destruct (utf8_DecodeRune (c0 :: t)) as [r n] eqn:Hd. cbn [snd].
  revert Hd. unfold utf8_DecodeRune.
  destruct (byte_val c0 <? RuneSelf)%N eqn:H0.
  { intros [= <- <-]. simpl. by rewrite H0. }
  destruct (utf8_first (byte_val c0)) as [[[sz lo] hi]|] eqn:Hf; cycle 1.
  { intros [= <- <-]. simpl. by rewrite H0, Hf. }
  assert (∀ t', take 1 (c0 :: t') = [c0]) as Htake1 by (by intros []).
  destruct t as [|c1 t].
  { intros [= <- <-]. simpl. by rewrite H0, Hf. }
  destruct (in_range lo hi c1) eqn:Hc1; simpl negb; cbv iota; cycle 1.
  { intros [= <- <-]. rewrite Htake1. by rewrite H0, Hf. }
  destruct (sz <=? 2) eqn:Hs2.
  { intros [= <- <-]. simpl. by rewrite H0, Hf, Hc1, Hs2. }
  destruct t as [|c2 t].
  { intros [= <- <-]. rewrite Htake1. by rewrite H0, Hf. }
  destruct (in_range locb hicb c2) eqn:Hc2; simpl negb; cbv iota; cycle 1.
  { intros [= <- <-]. rewrite Htake1. by rewrite H0, Hf. }
  destruct (sz <=? 3) eqn:Hs3.
  { intros [= <- <-]. simpl. by rewrite H0, Hf, Hc1, Hs2, Hc2, Hs3. }
  destruct t as [|c3 t].
  { intros [= <- <-]. rewrite Htake1. by rewrite H0, Hf. }
  destruct (in_range locb hicb c3) eqn:Hc3; simpl negb; cbv iota; cycle 1.
  { intros [= <- <-]. rewrite Htake1. by rewrite H0, Hf. }
  intros [= <- <-]. simpl. by rewrite H0, Hf, Hc1, Hs2, Hc2, Hs3, Hc3.
Qed.

Lemma all_space_nil : all_space [].
Proof. constructor. Qed.

Lemma all_space_clean_start s : all_space s → clean_start s.
Proof.
  destruct s as [|c t]; [done|]. unfold all_space. rewrite range_string_cons.
  intros [H _]%Forall_cons. simpl in *. by apply (DecodeRune_space_start c t).
Qed.

Lemma all_space_app a b : all_space a → all_space b → all_space (a ++ b).
Proof.
  intros Ha Hb. unfold all_space.
  rewrite range_string_app by (by apply all_space_clean_start).
  by apply Forall_app.
Qed.

(** One rune, given with exactly its bytes. *)
Lemma all_space_single y :
  y ≠ [] → (utf8_DecodeRune y).2 = length y →
  unicode_IsSpace (utf8_DecodeRune y).1 = true → all_space y.
Proof.
  intros Hy Hsz Hsp. unfold all_space. rewrite range_string_single by done.
  by repeat constructor.
Qed.

Lemma first_chunk_single c t :
  range_string (take (utf8_DecodeRune (c :: t)).2 (c :: t))
  = [((utf8_DecodeRune (c :: t)).1, take (utf8_DecodeRune (c :: t)).2 (c :: t))].
Proof.
  pose proof (DecodeRune_size (c :: t) ltac:(done)) as Hsz.
  pose proof (DecodeRune_take (c :: t)) as Ht.
  assert (length (take (utf8_DecodeRune (c :: t)).2 (c :: t))
          = (utf8_DecodeRune (c :: t)).2) as Hlen
    by (rewrite length_take; apply Nat.min_l, Hsz).
  rewrite range_string_single; rewrite ?Ht; [done| |done].
  intros E%(f_equal length). rewrite Hlen in E.
  change (length (@nil ascii)) with 0 in E. lia.
Qed.

(** [TrimLeftFunc] removes a prefix of white space; what is left is empty or
    starts with a rune that is not white space. *)
Lemma TrimLeft_spec s :
  ∃ lead, s = lead ++ TrimLeftFunc s unicode_IsSpace ∧ all_space lead ∧
          (TrimLeftFunc s unicode_IsSpace = [] ∨
           starts_nonspace (TrimLeftFunc s unicode_IsSpace)).
Proof.
  remember (length s) as n eqn:Hn. revert s Hn.
  induction n as [n IH] using lt_wf_ind. intros [|c t] ->.
  { exists []. split; [done|]. split; [constructor|by left]. }
  pose proof (DecodeRune_size (c :: t) ltac:(done)) as Hsz.
  pose proof (first_chunk_single c t) as Hfirst.
  unfold TrimLeftFunc. rewrite range_string_cons. cbn [trim_left_go].
  destruct (unicode_IsSpace (utf8_DecodeRune (c :: t)).1) eqn:Hsp.
  - destruct (IH (length (drop (utf8_DecodeRune (c :: t)).2 (c :: t)))
               ltac:(rewrite length_drop; simpl in *; lia) _ eq_refl)
      as (lead & Hs & Hlead & Hres).
    fold (TrimLeftFunc (drop (utf8_DecodeRune (c :: t)).2 (c :: t)) unicode_IsSpace).
    exists (take (utf8_DecodeRune (c :: t)).2 (c :: t) ++ lead).
    split; [|split; [|done]].
    + rewrite <-(assoc_L (++)), <-Hs. by rewrite take_drop.
    + apply all_space_app; [|done]. unfold all_space. rewrite Hfirst.
      by repeat constructor.
  - exists []. split; [|split; [constructor|right]].
    + rewrite <-range_string_cons. by rewrite range_string_concat.
    + rewrite <-range_string_cons, range_string_concat. done.
Qed.

Lemma TrimLeft_fixed s :
  s = [] ∨ starts_nonspace s → TrimLeftFunc s unicode_IsSpace = s.
Proof.
  intros [->|Hs]; [done|]. destruct s as [|c t]; [done|].
  unfold TrimLeftFunc. pose proof (range_string_concat (c :: t)) as Hc.
  rewrite range_string_cons in *. cbn [trim_left_go].
  unfold starts_nonspace in Hs. by rewrite Hs.
Qed.

(** What the backward loop of [TrimRightFunc] has found when it stops: a
    cut [k] with white space only behind it, and before it nothing or a last
    rune that is not white space. *)
Lemma lastIndexFunc_go_spec x n : ∀ i,
  i ≤ n → i ≤ length x → all_space (drop i x) →
  ∃ k, k ≤ i ∧ all_space (drop k x) ∧
    ((k = 0 ∧ lastIndexFunc_go n x unicode_IsSpace i = None) ∨
     (k ≠ 0 ∧ ends_nonspace (take k x) ∧
      lastIndexFunc_go n x unicode_IsSpace i
        = Some (k - (utf8_DecodeLastRune (take k x)).2))).
Proof.
  induction n as [|n IH]; intros i Hn Hi Hsp.
  { assert (i = 0) as -> by lia. exists 0. split; [done|]. split; [done|by left]. }
  cbn [lastIndexFunc_go]. destruct (decide (i = 0)) as [->|Hi0].
  { exists 0. split; [done|]. split; [done|by left]. }
  assert (take i x ≠ []) as Hne.
  { intros E%(f_equal length). rewrite length_take, Nat.min_l in E by done.
    simpl in E. lia. }
  destruct (utf8_DecodeLastRune (take i x)) as [r size] eqn:Hlast.
  destruct (DecodeLastRune_spec _ _ _ Hne Hlast) as (Hsz & Hw & Hr & _).
  assert (length (take i x) = i) as Hli by (rewrite length_take; by apply Nat.min_l).
  rewrite Hli in Hsz, Hw, Hr.
  destruct (unicode_IsSpace r) eqn:Hrsp.
  - destruct Hr as [Hr|Hr]; [|by rewrite Hr in Hrsp].
    set (y := drop (i - size) (take i x)) in *.
    assert (length y = size) as Hlen
      by (subst y; rewrite length_drop, length_take, Nat.min_l by done; lia).
    assert (y ≠ []) as Hy by (intros E; rewrite E in Hlen; simpl in Hlen; lia).
    assert (drop (i - size) x = y ++ drop i x) as Hdrop.
    { subst y. rewrite <-(take_drop i x) at 1.
      rewrite drop_app_le by (rewrite length_take; lia). done. }
    destruct (IH (i - size)) as (k & Hk & Hksp & Hres); [lia|lia| |].
    { rewrite Hdrop. apply all_space_app; [|done].
      apply all_space_single; [done|lia|by rewrite <-Hr]. }
    exists k. split; [lia|]. split; done.
  - exists i. split; [done|]. split; [done|]. right. split; [done|].
    split; [unfold ends_nonspace; by rewrite Hlast|]. by rewrite Hlast.
Qed.

(** A string whose last rune, decoded backwards, is not white space is left
    as it is by [TrimRightFunc], also when white space follows it in a
    longer string. *)
Lemma TrimRight_cut x k :
  k ≠ 0 → k ≤ length x → ends_nonspace (take k x) → clean_start (drop k x) →
  let j := k - (utf8_DecodeLastRune (take k x)).2 in
  (if (RuneSelf <=? byte_val (default "000"%char (x !! j)))%N
   then take (j + (utf8_DecodeRune (drop j x)).2) x
   else take (j + 1) x) = take k x.
Proof.
  intros Hk0 Hk Hend Hclean j.
  assert (take k x ≠ []) as Hne.
  { intros E%(f_equal length). rewrite length_take, Nat.min_l in E by done.
    simpl in E. lia. }
  destruct (utf8_DecodeLastRune (take k x)) as [r size] eqn:Hlast.
  destruct (DecodeLastRune_spec _ _ _ Hne Hlast) as (Hsz & Hw & _ & Hlow).
  assert (length (take k x) = k) as Hlk by (rewrite length_take; by apply Nat.min_l).
  rewrite Hlk in Hsz, Hw, Hlow. simpl in j.
  set (y := drop (k - size) (take k x)) in *.
  assert (length y = size) as Hlen
    by (subst y; rewrite length_drop, length_take, Nat.min_l by done; lia).
  assert (y ≠ []) as Hy by (intros E; rewrite E in Hlen; simpl in Hlen; lia).
  assert (drop j x = y ++ drop k x) as Hdrop.
  { subst y j. rewrite <-(take_drop k x) at 1.
    rewrite drop_app_le by (rewrite length_take; lia). done. }
  assert (take k x !! j = x !! j) as Hlook by (apply lookup_take_lt; lia).
  fold j in Hlow. rewrite Hlook in Hlow.
  destruct (RuneSelf <=? _)%N.
  - rewrite Hdrop, DecodeRune_app, Hw by done. f_equal. lia.
  - specialize (Hlow eq_refl). f_equal. lia.
Qed.

(** [TrimRightFunc] removes a suffix of white space; what is left is empty
    or ends with a rune that is not white space. *)
Lemma TrimRight_spec x :
  ∃ k, k ≤ length x ∧ TrimRightFunc x unicode_IsSpace = take k x ∧
       all_space (drop k x) ∧ (k = 0 ∨ ends_nonspace (take k x)).
Proof.
  destruct (lastIndexFunc_go_spec x (length x) (length x))
    as (k & Hk & Hsp & Hres); [done|done|rewrite drop_all; constructor|].
  exists k. split; [done|]. unfold TrimRightFunc, lastIndexFunc. split; [|split; [done|]].
  - destruct Hres as [[-> ->]|(Hk0 & Hend & ->)]; [done|].
    apply TrimRight_cut; [done..|]. by apply all_space_clean_start.
  - destruct Hres as [[-> _]|(_ & Hend & _)]; auto.
Qed.

Lemma TrimRight_fixed z :
  z = [] ∨ ends_nonspace z → TrimRightFunc z unicode_IsSpace = z.
Proof.
  intros [->|Hend]; [done|].
  destruct (decide (z = [])) as [->|Hne]; [done|].
  unfold TrimRightFunc, lastIndexFunc.
  destruct (length z) as [|n] eqn:Hlen; [by destruct z|].
  cbn [lastIndexFunc_go]. rewrite decide_False by lia.
  rewrite <-Hlen, firstn_all.
  unfold ends_nonspace in Hend.
  pose proof (TrimRight_cut z (length z)) as Hcut.
  rewrite firstn_all, drop_all in Hcut.
  destruct (utf8_DecodeLastRune z) as [r size] eqn:Hlast. cbn [fst snd] in *.
  cbv beta iota zeta. rewrite Hend.
  apply Hcut; [lia|done|unfold ends_nonspace; by rewrite Hlast|done].
Qed.

(** [strings.TrimSpace] removes white space at both ends and nothing else:
    what is left is empty, or starts and ends with runes that are not white
    space. *)
Lemma TrimSpace_spec s :
  ∃ lead trail,
    s = lead ++ TrimSpace_bytes s ++ trail ∧ all_space lead ∧ all_space trail ∧
    (TrimSpace_bytes s = [] ∨
     (starts_nonspace (TrimSpace_bytes s) ∧ ends_nonspace (TrimSpace_bytes s))).
Proof.
  destruct (TrimLeft_spec s) as (lead & Hs & Hlead & Hx).
  unfold TrimSpace_bytes. set (x := TrimLeftFunc s unicode_IsSpace) in *.
  destruct (TrimRight_spec x) as (k & Hk & -> & Htrail & Hz).
  exists lead, (drop k x). rewrite take_drop. split; [done|]. split; [done|].
  split; [done|].
  destruct (decide (take k x = [])) as [|Hne]; [by left|right].
  destruct Hz as [->|Hend]; [done|]. split; [|done].
  destruct Hx as [Hx|Hx]; [by rewrite Hx, take_nil in Hne|].
  unfold starts_nonspace in *.
  rewrite <-(take_drop k x), DecodeRune_app in Hx;
    [done|done|by apply all_space_clean_start].
Qed.

Lemma TrimSpace_fixed z :
  z = [] ∨ (starts_nonspace z ∧ ends_nonspace z) → TrimSpace_bytes z = z.
Proof.
  intros Hz. unfold TrimSpace_bytes.
  rewrite TrimLeft_fixed by (destruct Hz as [?|[??]]; auto).
  apply TrimRight_fixed. destruct Hz as [?|[??]]; auto.
Qed.

Lemma TrimSpace_idempotent s :
  TrimSpace_bytes (TrimSpace_bytes s) = TrimSpace_bytes s.
Proof.
  destruct (TrimSpace_spec s) as (_ & _ & _ & _ & _ & Hz). by apply TrimSpace_fixed.
Qed.

Lemma TrimSpace_nil_iff s : TrimSpace_bytes s = [] ↔ all_space s.
Proof.
  split.
  - intros Hnil. destruct (TrimSpace_spec s) as (lead & trail & Hs & Hl & Ht & _).
    rewrite Hnil in Hs. rewrite Hs. by apply all_space_app.
  - intros Hs. unfold TrimSpace_bytes, TrimLeftFunc.
    by rewrite trim_left_go_all_space.
Qed.

Lemma strings_TrimSpace_empty_iff s :
  strings_TrimSpace s = EmptyString ↔ whitespace_only s.
Proof.
  unfold strings_TrimSpace. rewrite <-(TrimSpace_nil_iff (bts s)). split.
  - intros H%(f_equal bts). by rewrite bts_str in H.
  - by intros ->.
Qed.

(** * The format registry *)

Lemma ListFormatNames_elem reg name :
  name ∈ ListFormatNames reg ↔ is_Some (GetFormatFactory name reg).
Proof.
  unfold ListFormatNames, GetFormatFactory. rewrite list_elem_of_fmap. split.
  - intros ([k f] & -> & Hin%elem_of_map_to_list). by exists f.
  - intros [f Hf]. exists (name, f). split; [done|]. by apply elem_of_map_to_list.
Qed.

(** X1. Registering a factory makes it the one found under its name,
    replaces a factory registered under that name before, and leaves the
    lookup of every other name as it was. The names listed are the names
    that can be looked up, each of them once. *)
Theorem registry_last_wins (f g : FormatFactory) (reg : gmap string FormatFactory) :
  GetFormatFactory (Name g) (RegisterFormat g reg) = Some g ∧
  (∀ name, name ≠ Name g →
     GetFormatFactory name (RegisterFormat g reg) = GetFormatFactory name reg) ∧
  (Name f = Name g →
     RegisterFormat g (RegisterFormat f reg) = RegisterFormat g reg) ∧
  NoDup (ListFormatNames reg) ∧
  (∀ name, name ∈ ListFormatNames reg ↔ is_Some (GetFormatFactory name reg)) ∧
  (∀ name, name ∈ ListFormatNames (RegisterFormat g reg) ↔
           name = Name g ∨ name ∈ ListFormatNames reg).
Proof.
  unfold RegisterFormat, GetFormatFactory.
  split; [apply lookup_insert_eq|]. split; [intros; by apply lookup_insert_ne|].
  split; [intros ->; apply insert_insert_eq|].
  split; [apply NoDup_fst_map_to_list|].
  split; [apply ListFormatNames_elem|].
  intros name. rewrite !ListFormatNames_elem. unfold RegisterFormat, GetFormatFactory.
  destruct (decide (name = Name g)) as [->|Hne].
  - rewrite lookup_insert_eq. split; [by left|by eexists].
  - rewrite lookup_insert_ne by done. split; [by right|by intros [?|?]].
Qed.

Lemma registry_last_wins_witness :
  RegisterFormat notionFactory (RegisterFormat (mkFactory "notion" [] (Build markdownFactory)) ∅)
  = RegisterFormat notionFactory ∅.
Proof.
  apply (proj1 (proj2 (proj2 (registry_last_wins
           (mkFactory "notion" [] (Build markdownFactory)) notionFactory ∅)))).
  reflexivity.
Defined.

Lemma initial_registry_cases name f :
  GetFormatFactory name initial_registry = Some f →
  (name = "markdown" ∧ f = markdownFactory) ∨ (name = "notion" ∧ f = notionFactory).
Proof.
  unfold initial_registry, RegisterFormat, GetFormatFactory. simpl.
  destruct (decide (name = "notion")) as [->|Hn].
  { rewrite lookup_insert_eq. intros [= <-]. by right. }
  rewrite lookup_insert_ne by done.
  destruct (decide (name = "markdown")) as [->|Hm].
  { rewrite lookup_insert_eq. intros [= <-]. by left. }
  by rewrite lookup_insert_ne, lookup_empty.
Qed.

Lemma initial_registry_names name :
  is_Some (GetFormatFactory name initial_registry) ↔
  name = "markdown" ∨ name = "notion".
Proof.
  split.
  - intros [f Hf]. destruct (initial_registry_cases _ _ Hf) as [[-> _]|[-> _]]; auto.
  - intros [->| ->]; by eexists.
Qed.

(** X2. The registry left by the two [init] functions does not depend on
    their order and holds the names markdown and notion and no other. Each
    factory is stored under its own name, and an exporter built by the factory
    found under a name reports that name. *)
Theorem initial_registry_formats :
  initial_registry = RegisterFormat markdownFactory (RegisterFormat notionFactory ∅) ∧
  (∀ name, is_Some (GetFormatFactory name initial_registry) ↔
           name = "markdown" ∨ name = "notion") ∧
  (∀ name f, GetFormatFactory name initial_registry = Some f → Name f = name) ∧
  (∀ name f r fmt,
     GetFormatFactory name initial_registry = Some f →
     Build f r = inr fmt → Format_Name fmt = name).
Proof.
  split; [|split; [|split]].
  - unfold initial_registry, RegisterFormat. simpl. by apply insert_insert_ne.
  - apply initial_registry_names.
  - intros name f Hf. by destruct (initial_registry_cases _ _ Hf) as [[-> ->]|[-> ->]].
  - intros name f r fmt Hf.
    destruct (initial_registry_cases _ _ Hf) as [[-> ->]|[-> ->]]; simpl;
      repeat case_decide; by intros [= <-].
Qed.

Lemma initial_registry_formats_witness :
  Format_Name (MarkdownFormat "out") = "markdown".
Proof.
  apply (proj2 (proj2 (proj2 initial_registry_formats))
           "markdown" markdownFactory resolver_md); reflexivity.
Defined.

(** * The factories *)

Lemma strings_TrimSpace_spec s :
  ∃ lead trail,
    bts s = lead ++ bts (strings_TrimSpace s) ++ trail ∧
    all_space lead ∧ all_space trail ∧
    (strings_TrimSpace s = EmptyString ∨
     (starts_nonspace (bts (strings_TrimSpace s)) ∧
      ends_nonspace (bts (strings_TrimSpace s)))).
Proof.
  destruct (TrimSpace_spec (bts s)) as (lead & trail & Hs & Hl & Ht & Hz).
  exists lead, trail. unfold strings_TrimSpace. rewrite bts_str.
  split; [done|]. split; [done|]. split; [done|].
  destruct Hz as [->|Hz]; [by left|by right].
Qed.

(** X3. The Markdown factory refuses to build exactly when every rune of the
    markdown-dir value is white space (the empty value included). Otherwise
    the directory of the exporter is the value without the white space at its
    two ends: it begins and ends with a rune that is not white space, and the
    exporter built never fails with the empty-directory error. *)
Theorem markdown_build_trims_dir (r : string → string) :
  (Build markdownFactory r = inl ErrMarkdownDirRequired ↔
   whitespace_only (r "markdown-dir")) ∧
  (∀ fmt, Build markdownFactory r = inr fmt →
     ∃ Dir lead trail,
       fmt = MarkdownFormat Dir ∧
       bts (r "markdown-dir") = lead ++ bts Dir ++ trail ∧
       all_space lead ∧ all_space trail ∧
       starts_nonspace (bts Dir) ∧ ends_nonspace (bts Dir) ∧
       ∀ os fs books,
         (MarkdownFormat_Export os Dir fs books).2 ≠ Some ErrEmptyDirectory).
Proof.
  simpl. split.
  - rewrite <-strings_TrimSpace_empty_iff. by case_decide.
  - intros fmt. case_decide as Hdir; [done|]. intros [= <-].
    destruct (strings_TrimSpace_spec (r "markdown-dir"))
      as (lead & trail & Hs & Hl & Ht & [?|[Hb He]]); [done|].
    exists (strings_TrimSpace (r "markdown-dir")), lead, trail.
    repeat (split; [done|]).
    intros os fs books. unfold MarkdownFormat_Export.
    rewrite decide_False by done.
    destruct (MkdirAll_fails os _); [done|].
    clear. revert fs. induction books as [|b books IH]; intros fs; [done|].
    simpl. destruct (export_book os _ fs b) as [fs' [e|]] eqn:Hb; [|apply IH].
    simpl. unfold export_book in Hb. repeat case_match; by simplify_eq/=.
Qed.

Lemma markdown_build_trims_dir_witness :
  ∃ Dir lead trail,
    MarkdownFormat "out" = MarkdownFormat Dir ∧
    bts (resolver_md "markdown-dir") = lead ++ bts Dir ++ trail ∧
    all_space lead ∧ all_space trail ∧
    starts_nonspace (bts Dir) ∧ ends_nonspace (bts Dir) ∧
    ∀ os fs books, (MarkdownFormat_Export os Dir fs books).2 ≠ Some ErrEmptyDirectory.
Proof.
  apply (proj2 (markdown_build_trims_dir resolver_md)). reflexivity.
Defined.

(** X4. The Notion factory refuses to build exactly when the notion-token
    or the notion-database value has only white space. Otherwise the exporter
    holds a client that is not nil, with both values trimmed and not empty, the
    default title property Title and no discovery done; its export never
    fails with the nil-client error. *)
Theorem notion_build_trims_flags (r : string → string) :
  (Build notionFactory r = inl ErrNotionFlagsRequired ↔
   whitespace_only (r "notion-token") ∨ whitespace_only (r "notion-database")) ∧
  (∀ fmt, Build notionFactory r = inr fmt →
     ∃ n,
       fmt = NotionFormat (Some n) ∧
       token n = strings_TrimSpace (r "notion-token") ∧
       databaseID n = strings_TrimSpace (r "notion-database") ∧
       token n ≠ EmptyString ∧ databaseID n ≠ EmptyString ∧
       titlePropName n = "Title" ∧ resolvedTitle n = false ∧
       ∀ env books hist,
         (NotionFormat_Export env (Some n) books hist).1.1 ≠ Some ErrNilClient).
Proof.
  simpl. split.
  - rewrite <-!strings_TrimSpace_empty_iff. by case_decide.
  - intros fmt. case_decide as Hflags; [done|]. intros [= <-].
    eexists. split; [done|]. simpl. repeat (split; [tauto|]).
    intros env books hist.
    destruct (export_pages env books _) as [e [n' hist']] eqn:Hexp. simpl.
    clear Hflags. revert Hexp. generalize (NewNotionClient
      (strings_TrimSpace (r "notion-token")) (strings_TrimSpace (r "notion-database")), hist).
    induction books as [|b books IH]; intros st; simpl; [by intros [= <- _]|].
    destruct (EnsureBookPage env _ _ _ st) as [[err|] st']; [by intros [= <- _]|].
    apply IH.
Qed.

Lemma notion_build_trims_flags_witness :
  ∃ n,
    NotionFormat (Some (NewNotionClient "secret" "db")) = NotionFormat (Some n) ∧
    token n = strings_TrimSpace (resolver_notion "notion-token") ∧
    databaseID n = strings_TrimSpace (resolver_notion "notion-database") ∧
    token n ≠ EmptyString ∧ databaseID n ≠ EmptyString ∧
    titlePropName n = "Title" ∧ resolvedTitle n = false ∧
    ∀ env books hist,
      (NotionFormat_Export env (Some n) books hist).1.1 ≠ Some ErrNilClient.
Proof.
  apply (proj2 (notion_build_trims_flags resolver_notion)). reflexivity.
Defined.

(** * The Markdown exporter: which files change, and when it stops *)

Lemma export_book_cases os Dir (fs fs' : FS) b r :
  export_book os Dir fs b = (fs', r) →
  (Create_fails os (markdown_path os Dir b) = true ∧ fs' = fs ∧
   r = Some (ErrCreateFile (markdown_path os Dir b))) ∨
  (Create_fails os (markdown_path os Dir b) = false ∧
   fs' = <[markdown_path os Dir b := spec_content b]> fs ∧
   r = if Close_fails os (markdown_path os Dir b)
       then Some (ErrCloseFile (markdown_path os Dir b)) else None).
Proof.
  intros H. destruct (Create_fails os (markdown_path os Dir b)) eqn:Hc.
  - left. unfold export_book in H. rewrite Hc in H. by simplify_eq/=.
  - right. split; [done|].
    pose proof (export_book_insert os Dir fs b Hc) as Hi. rewrite H in Hi.
    split; [done|]. unfold export_book in H. rewrite Hc in H.
    destruct (Close_fails _ _); by simplify_eq/=.
Qed.

Lemma export_books_app os Dir l1 l2 : ∀ fs : FS,
  export_books os Dir fs (l1 ++ l2) =
  match export_books os Dir fs l1 with
  | (fs1, Some e) => (fs1, Some e)
  | (fs1, None) => export_books os Dir fs1 l2
  end.
Proof.
  induction l1 as [|b l1 IH]; intros fs; [done|]. simpl.
  destruct (export_book os Dir fs b) as [fs' [e|]]; [done|apply IH].
Qed.





(** When every file could be created and closed, the result is the same
    whatever the files of the books held before. *)
Lemma export_books_ok_inv os Dir books : ∀ (fs fs' : FS),
  export_books os Dir fs books = (fs', None) →
  ∀ b, b ∈ books →
    Create_fails os (markdown_path os Dir b) = false ∧
    Close_fails os (markdown_path os Dir b) = false.
Proof.
  induction books as [|b books IH]; intros fs fs'; simpl.
  { intros _ b Hb. by apply elem_of_nil in Hb. }
  destruct (export_book os Dir fs b) as [fs1 [e|]] eqn:Hb; [done|].
  intros Hrest b' [->|Hin]%elem_of_cons; [|by eapply IH].
  apply export_book_cases in Hb as [(_ & _ & ?)|(Hc & _ & Hr)]; [done|].
  split; [done|]. by destruct (Close_fails _ _).
Qed.

Lemma export_books_ok_intro os Dir books : ∀ (fs : FS),
  (∀ b, b ∈ books →
    Create_fails os (markdown_path os Dir b) = false ∧
    Close_fails os (markdown_path os Dir b) = false) →
  ∃ fs', export_books os Dir fs books = (fs', None).
Proof.
  induction books as [|b books IH]; intros fs Hok; simpl; [by eexists|].
  destruct (Hok b) as [Hc Hcl]; [by left|].
  unfold export_book. rewrite Hc, Hcl.
  apply IH. intros; apply Hok. by right.
Qed.




(** X7. After books that were written without error, a book whose file
    cannot be created stops the export with the create-file error and the
    files as the earlier books left them; a file that cannot be closed stops
    it with the close-file error, the content of the book being written;
    otherwise the export goes on from the file system with that book
    written. The books after the failing one are not looked at. *)
Theorem markdown_export_stops os Dir (fs fs1 : FS) pre b post :
  MarkdownFormat_Export os Dir fs pre = (fs1, None) →
  (Create_fails os (markdown_path os Dir b) = true →
   MarkdownFormat_Export os Dir fs (pre ++ b :: post)
   = (fs1, Some (ErrCreateFile (markdown_path os Dir b)))) ∧
  (Create_fails os (markdown_path os Dir b) = false →
   Close_fails os (markdown_path os Dir b) = true →
   MarkdownFormat_Export os Dir fs (pre ++ b :: post)
   = (<[markdown_path os Dir b := spec_content b]> fs1,
      Some (ErrCloseFile (markdown_path os Dir b)))) ∧
  (Create_fails os (markdown_path os Dir b) = false →
   Close_fails os (markdown_path os Dir b) = false →
   MarkdownFormat_Export os Dir fs (pre ++ b :: post)
   = MarkdownFormat_Export os Dir
       (<[markdown_path os Dir b := spec_content b]> fs1) post).
Proof.
  unfold MarkdownFormat_Export. case_decide; [done|].
  destruct (MkdirAll_fails os Dir); [done|]. intros Hpre.
  rewrite export_books_app, Hpre. simpl.
  destruct (export_book os Dir fs1 b) as [fs2 r] eqn:Hb.
  apply export_book_cases in Hb as [(Hc & -> & ->)|(Hc & -> & ->)]; rewrite Hc.
  - by repeat split.
  - split; [done|]. split; intros _ ->; done.
Qed.

Lemma markdown_export_stops_witness :
  MarkdownFormat_Export os_no_create "out" ∅ ([book_TA] ++ book_slash :: [book_TA])
  = (<["out/T-A.md" := spec_content book_TA]> ∅, Some (ErrCreateFile "out/a-b.md")).
Proof.
  refine (proj1 (markdown_export_stops os_no_create "out" ∅
                   (<["out/T-A.md" := spec_content book_TA]> ∅)
                   [book_TA] book_slash [book_TA] _) _); reflexivity.
Defined.

(** X8. The Markdown export returns no error exactly when the directory is
    not empty, it can be created, and the file of every book can be created
    and closed. *)
Theorem markdown_export_succeeds_iff os Dir (fs : FS) books :
  (MarkdownFormat_Export os Dir fs books).2 = None ↔
  Dir ≠ EmptyString ∧ MkdirAll_fails os Dir = false ∧
  ∀ b, b ∈ books →
    Create_fails os (markdown_path os Dir b) = false ∧
    Close_fails os (markdown_path os Dir b) = false.
Proof.
  unfold MarkdownFormat_Export. split.
  - case_decide; [done|]. destruct (MkdirAll_fails os Dir); [done|].
    destruct (export_books os Dir fs books) as [fs' r] eqn:Hexp. simpl. intros ->.
    split; [done|]. split; [done|]. by eapply export_books_ok_inv.
  - intros (HDir & -> & Hok). rewrite decide_False by done.
    by destruct (export_books_ok_intro os Dir books fs Hok) as [fs' ->].
Qed.

Lemma markdown_export_succeeds_iff_witness :
  (MarkdownFormat_Export os_ok "out" ∅ [book_TA; book_slash]).2 = None.
Proof.
  apply (proj2 (markdown_export_succeeds_iff os_ok "out" ∅ [book_TA; book_slash])).
  split; [done|]. split; [reflexivity|]. intros b _. split; reflexivity.
Defined.

(** * The Markdown exporter: file names and quote paragraphs *)

Lemma nospace_book : nospace (bts "book").
Proof. unfold nospace. vm_compute. repeat constructor. Qed.

(** X9. The file name chosen for a book is never empty, contains no white
    space of any kind and none of the nine replaced characters, is left
    unchanged by the sanitizer, and comes from the title alone when the book
    has no author. *)
Theorem markdown_filename_safe (b : Book) :
  markdown_filename b ≠ EmptyString ∧
  nospace (bts (markdown_filename b)) ∧
  (∀ c, c ∈ hostile → c ∉ bts (markdown_filename b)) ∧
  sanitizeFilename (markdown_filename b) = markdown_filename b ∧
  (Author b = EmptyString → markdown_filename b = sanitizeFilename (Title b)).
Proof.
  assert (∀ s, sanitizeFilename s ≠ EmptyString ∧ nospace (bts (sanitizeFilename s)))
    as Hsan.
  { intros s. rewrite sanitizeFilename_unfold. case_decide; [|split; [done|]].
    - split; [done|apply nospace_book].
    - apply sanitize_joined_nospace. }
  unfold markdown_filename. case_decide as Ha.
  - split; [apply Hsan|]. split; [apply Hsan|].
    split; [intros; by apply sanitizeFilename_clean|].
    split; [apply sanitizeFilename_idempotent|done].
  - split; [apply Hsan|]. split; [apply Hsan|].
    split; [intros; by apply sanitizeFilename_clean|].
    split; [apply sanitizeFilename_idempotent|done].
Qed.

Lemma markdown_filename_safe_witness :
  markdown_filename book_slash = sanitizeFilename (Title book_slash).
Proof.
  apply (proj2 (proj2 (proj2 (proj2 (markdown_filename_safe book_slash))))).
  reflexivity.
Defined.

Lemma ReplaceAll_newline (s : bytes) :
  ("010"%char ∉ Replacer_bytes [("010"%char, " ")] s) ∧
  length (Replacer_bytes [("010"%char, " ")] s) = length s.
Proof.
  unfold Replacer_bytes.
  set (f := λ c : ascii, match replacer_lookup [("010"%char, " ")] c with
                         | Some n => bts n | None => [c] end).
  induction s as [|c s [IH1 IH2]].
  { split; [apply not_elem_of_nil|done]. }
  rewrite bind_cons, length_app, IH2. unfold f at 1 3. cbn [replacer_lookup].
  case_decide as Hc.
  - split; [|done]. intros [Hin|Hin]%elem_of_app; [|by apply IH1].
    by apply list_elem_of_singleton in Hin.
  - split; [|done]. intros [Hin|Hin]%elem_of_app; [|by apply IH1].
    by apply list_elem_of_singleton in Hin.
Qed.

Lemma filter_trimmed (hs : list Highlight) :
  filter (λ t, t ≠ EmptyString) (strings_TrimSpace ∘ Text <$> hs)
  = strings_TrimSpace ∘ Text <$> filter (λ h, ¬ whitespace_only (Text h)) hs.
Proof.
  induction hs as [|h hs IH]; [done|]. rewrite fmap_cons, !filter_cons, IH.
  simpl. destruct (decide (whitespace_only (Text h))) as [Hw|Hw].
  - rewrite decide_False by (intros Hn; by apply Hn, strings_TrimSpace_empty_iff).
    by rewrite decide_False by tauto.
  - rewrite decide_True by (by rewrite strings_TrimSpace_empty_iff).
    by rewrite decide_True by done.
Qed.

(** X10. When the file of a book can be created, it holds the heading and
    then one quote paragraph for each highlight that is not made of white
    space only, in order. The text of such a paragraph is not empty, has no
    newline byte and is as long as the trimmed highlight. A book whose
    highlights are all blank gets the heading alone. *)
Theorem markdown_skips_blank_highlights os Dir (fs : FS) (b : Book) :
  Create_fails os (markdown_path os Dir b) = false →
  (export_book os Dir fs b).1 !! markdown_path os Dir b
  = Some (spec_heading b +:+
          String.concat EmptyString
            ((λ h, "> " +:+ quote_text h +:+ nl +:+ nl) <$>
               filter (λ h, ¬ whitespace_only (Text h)) (Highlights b))) ∧
  (∀ h, h ∈ Highlights b → ¬ whitespace_only (Text h) →
     quote_text h ≠ EmptyString ∧ ("010"%char ∉ bts (quote_text h)) ∧
     String.length (quote_text h) = String.length (strings_TrimSpace (Text h))) ∧
  ((∀ h, h ∈ Highlights b → whitespace_only (Text h)) →
   (export_book os Dir fs b).1 !! markdown_path os Dir b = Some (spec_heading b)).
Proof.
  intros Hc. rewrite export_book_insert, lookup_insert_eq by done.
  unfold spec_content. rewrite filter_trimmed, <-list_fmap_compose.
  split; [done|]. split.
  - intros h _ Hh. unfold quote_text, strings_ReplaceAll, Replacer_Replace.
    rewrite bts_str.
    destruct (ReplaceAll_newline (bts (strings_TrimSpace (Text h)))) as [Hnl Hlen].
    split; [|split; [done|]].
    + intros E%(f_equal bts). rewrite bts_str in E. rewrite E in Hlen.
      symmetry in Hlen. apply nil_length_inv in Hlen.
      apply Hh, strings_TrimSpace_empty_iff, bts_inj. by rewrite Hlen.
    + by rewrite <-!length_bts, bts_str.
  - intros Hall. replace (filter _ (Highlights b)) with (@nil Highlight).
    { simpl. by rewrite append_empty_r. }
    symmetry. induction (Highlights b) as [|h hs IH]; [done|].
    rewrite filter_cons, decide_False.
    + apply IH. intros; apply Hall. by right.
    + intros Hn. apply Hn, Hall. by left.
Qed.

Lemma markdown_skips_blank_highlights_witness :
  (export_book os_ok "out" ∅ book_blank).1 !! markdown_path os_ok "out" book_blank
  = Some (spec_heading book_blank +:+
          String.concat EmptyString
            ((λ h, "> " +:+ quote_text h +:+ nl +:+ nl) <$>
               filter (λ h, ¬ whitespace_only (Text h)) (Highlights book_blank))).
Proof.
  apply (markdown_skips_blank_highlights os_ok "out" ∅ book_blank). reflexivity.
Defined.

(** * The Notion exporter: failures and what has been sent by then *)

Lemma pageExistsByTitle_error env title st e st1 :
  pageExistsByTitle env title st = (inl e, st1) →
  match e with
  | ErrQueryAPI _ snippet => String.length snippet ≤ 200
  | _ => True
  end.
Proof.
  unfold pageExistsByTitle. destruct (ensure_resolved env st) as [n hist].
  destruct (http_request _ _ _ _) as [[e'|resp] hist']; [by intros [= <- _]|].
  destruct (300 <=? StatusCode resp)%Z.
  - intros [= <- _]. apply truncateForLog_length.
  - destruct (json_query env (Body resp)); [done|by intros [= <- _]].
Qed.

(** X11. When the existence check of a book fails, [EnsureBookPage] returns
    the check-existing error, no page creation and no block append has been
    sent for the book, the body snippet of an API error has at most 200 bytes,
    and the export stops at that book with the error under the book's
    title. *)
Theorem check_failure_stops_export env (b : Book) books st e st1 :
  pageExistsByTitle env (notionTitle (Title b) (Author b)) (ensure_resolved env st)
    = (inl e, st1) →
  EnsureBookPage env (Title b) (Author b) (Text <$> Highlights b) st
    = (Some (ErrCheckExisting e), st1) ∧
  Forall (λ r, is_write r = false) (new_requests st st1) ∧
  (∀ status snippet, e = ErrQueryAPI status snippet → String.length snippet ≤ 200) ∧
  export_pages env (b :: books) st
    = (Some (ErrNotionExport (Title b) (ErrCheckExisting e)), st1).
Proof.
  intros Hq.
  assert (EnsureBookPage env (Title b) (Author b) (Text <$> Highlights b) st
          = (Some (ErrCheckExisting e), st1)) as HE.
  { unfold EnsureBookPage. by rewrite Hq. }
  split; [done|]. split; [|split].
  - destruct (ensure_resolved_sent env st) as (d1 & Hd1 & Hs1).
    destruct (pageExistsByTitle_sent env (notionTitle (Title b) (Author b))
                (ensure_resolved env st)) as (d2 & Hd2 & Hs2).
    rewrite Hq in Hd2. simpl in Hd2.
    rewrite (sent_new_requests _ _ _ (sent_trans _ _ _ _ _ Hd1 Hd2)).
    apply Forall_app. split; [|done].
    eapply Forall_impl; [done|]. by intros [].
  - intros status snippet ->. by apply pageExistsByTitle_error in Hq.
  - simpl. by rewrite HE.
Qed.

Lemma check_failure_stops_export_witness :
  export_pages env_query_down (book_TA :: [book_slash]) fresh
  = (Some (ErrNotionExport "T"
       (ErrCheckExisting (ErrQueryAPI "401 Unauthorized" "unauthorized"))),
     (mkClient "secret" "db" "Name" true,
      [GetDatabase "db"; QueryDatabase "db" "Name" "T (A)"])).
Proof.
  refine (proj2 (proj2 (proj2 (check_failure_stops_export env_query_down book_TA
            [book_slash] fresh (ErrQueryAPI "401 Unauthorized" "unauthorized")
            (mkClient "secret" "db" "Name" true,
             [GetDatabase "db"; QueryDatabase "db" "Name" "T (A)"]) _)))).
  reflexivity.
Defined.

(** The append loop, told by its result: on success every batch was sent; on
    failure the batches before the failing one were accepted and nothing
    follows the failing one. *)
Lemma append_loop_result env pageID blocks m : ∀ k st r st',
  batch_count blocks - k = m →
  append_loop env pageID blocks (100 * k) st = (r, st') →
  match r with
  | None => sent st st' (AppendChildren pageID ∘ batch blocks <$> seq k m)
  | Some e =>
    is_append_error e ∧
    ∃ j, j < m ∧
      (sent st st' (AppendChildren pageID ∘ batch blocks <$> seq k j) ∨
       sent st st' (AppendChildren pageID ∘ batch blocks <$> seq k (S j)))
  end.
Proof.
  induction m as [|m IH]; intros k [n hist] r st' Hm; rewrite append_loop_step;
    cbn [fst snd].
  - rewrite decide_False by (rewrite <-batch_count_lt; lia).
    intros [= <- <-]. apply sent_refl.
  - rewrite decide_True by (rewrite <-batch_count_lt; lia).
    fold (batch blocks k). set (req := AppendChildren pageID (batch blocks k)).
    unfold http_request, http_Do.
    destruct (url_ok env pageID).
    2:{ intros [= <- <-]. split; [done|]. exists 0. split; [lia|].
        left. apply sent_refl. }
    destruct (server env hist req) as [|resp].
    { intros [= <- <-]. split; [done|]. exists 0. split; [lia|]. by right. }
    destruct (300 <=? StatusCode resp)%Z.
    { intros [= <- <-]. split; [apply truncateForLog_length|].
      exists 0. split; [lia|]. by right. }
    replace (100 * k + 100) with (100 * S k) by lia.
    intros Hrec. apply IH in Hrec; [|lia].
    assert (∀ j d, sent (n, hist ++ [req]) st' d →
              d = (AppendChildren pageID ∘ batch blocks <$> seq (S k) j) →
              sent (n, hist) st' (AppendChildren pageID ∘ batch blocks <$> seq k (S j)))
      as Hcons.
    { intros j d Hd ->. unfold sent in *. simpl in *. rewrite Hd.
      by rewrite <-(assoc_L (++)). }
    destruct r as [e|]; [|by eapply Hcons].
    destruct Hrec as (He & j & Hj & Hsent). split; [done|].
    exists (S j). split; [lia|]. destruct Hsent; [left|right]; by eapply Hcons.
Qed.

(** X12. For any number of highlights, when the page of a book is created
    and the book is exported without error, the append requests are exactly
    the consecutive batches of 100 blocks, sent to the created page in order:
    their number is the number of blocks, twice the highlights less one,
    divided by 100 and rounded up; together they carry the blocks in order;
    every request but the last carries 100 blocks; a book without highlights
    causes no append request. *)
Theorem appends_cover_blocks env title author highlights st st1 pageID st2 st3 :
  pageExistsByTitle env (notionTitle title author) (ensure_resolved env st)
    = (inr false, st1) →
  create_page env title author st1 = (inr pageID, st2) →
  EnsureBookPage env title author highlights st = (None, st3) →
  let blocks := highlight_blocks highlights in
  let appends := filter (λ req, is_append req = true) (new_requests st st3) in
  appends = (AppendChildren pageID ∘ batch blocks <$> seq 0 (batch_count blocks)) ∧
  length appends = (2 * length highlights - 1 + 99) / 100 ∧
  concat (children_of <$> appends) = blocks ∧
  (∀ k, S k < length appends → (length ∘ children_of <$> appends) !! k = Some 100) ∧
  (highlights = [] → appends = []).
Proof.
  intros Hq Hc HE blocks appends.
  destruct (EnsureBookPage_appends env _ _ _ _ _ _ _ _ _ Hq Hc HE)
    as (reads & creates & j & Hnew & Hreads & Hcreates & Hj & Hdone).
  rewrite (Hdone eq_refl) in Hnew. fold blocks in Hnew.
  assert (appends = (AppendChildren pageID ∘ batch blocks <$> seq 0 (batch_count blocks)))
    as Happ.
  { unfold appends. rewrite Hnew, list_fmap_compose. by apply filter_appends. }
  split; [done|]. rewrite Happ. split; [|split; [|split]].
  - rewrite length_fmap, length_seq. unfold batch_count, blocks.
    by rewrite length_highlight_blocks.
  - rewrite <-list_fmap_compose.
    transitivity (concat (batch blocks <$> seq 0 (batch_count blocks))); [done|].
    rewrite concat_batches, Nat.mul_0_r, drop_0. apply take_ge.
    unfold batch_count.
    pose proof (Nat.div_mod_eq (length blocks + 99) 100).
    pose proof (Nat.mod_upper_bound (length blocks + 99) 100). lia.
  - intros k. rewrite length_fmap, length_seq. intros Hk.
    rewrite list_lookup_fmap, list_lookup_fmap, lookup_seq_lt by lia. simpl.
    f_equal. apply length_batch_full.
    assert (S k < batch_count blocks) as Hlt%batch_count_lt by done. lia.
  - intros ->. done.
Qed.

Lemma appends_cover_blocks_witness :
  length (filter (λ req, is_append req = true)
            (new_requests fresh (EnsureBookPage env_empty "T" "A" highlights_250 fresh).2))
  = (2 * length highlights_250 - 1 + 99) / 100.
Proof.
  refine (proj1 (proj2 (appends_cover_blocks env_empty "T" "A" highlights_250 fresh
            (mkClient "secret" "db" "Name" true,
             [GetDatabase "db"; QueryDatabase "db" "Name" "T (A)"])
            "page-1"
            (mkClient "secret" "db" "Name" true,
             [GetDatabase "db"; QueryDatabase "db" "Name" "T (A)";
              CreatePage "db" (page_properties (mkClient "secret" "db" "Name" true) "T" "A")])
            _ _ _ _))); vm_compute; reflexivity.
Defined.

(** X13. When the page of a book is created and the book then fails, the
    error is an append error (with a body snippet of at most 300 bytes), the
    book has highlights, and the append requests sent are the first batches,
    in order, up to the failing one at the latest: the page keeps the blocks
    of the batches accepted before and no later batch is sent. *)
Theorem append_failure_leaves_partial_page env title author highlights
    st st1 pageID st2 e st3 :
  pageExistsByTitle env (notionTitle title author) (ensure_resolved env st)
    = (inr false, st1) →
  create_page env title author st1 = (inr pageID, st2) →
  EnsureBookPage env title author highlights st = (Some e, st3) →
  let blocks := highlight_blocks highlights in
  let appends := filter (λ req, is_append req = true) (new_requests st st3) in
  is_append_error e ∧
  highlights ≠ [] ∧
  ∃ j, j < batch_count blocks ∧
    (appends = (AppendChildren pageID ∘ batch blocks <$> seq 0 j) ∨
     appends = (AppendChildren pageID ∘ batch blocks <$> seq 0 (S j))) ∧
    concat (batch blocks <$> seq 0 j) = take (100 * j) blocks.
Proof.
  intros Hex Hcreate Hen blocks appends.
  rewrite (EnsureBookPage_create env _ _ _ _ _ Hex), Hcreate in Hen.
  destruct (ensure_resolved_sent env st) as (d0 & Hd0 & HF0).
  destruct (pageExistsByTitle_sent env (notionTitle title author)
              (ensure_resolved env st)) as (d1 & Hd1 & HF1).
  rewrite Hex in Hd1.
  destruct (create_page_sent env title author st1) as (d2 & Hd2 & HF2).
  rewrite Hcreate in Hd2.
  change 0 with (100 * 0) in Hen.
  eapply append_loop_result in Hen as (He & j & Hj & Hd3); [|done].
  rewrite Nat.sub_0_r in Hj. fold blocks in Hj, Hd3.
  split; [done|]. split.
  { intros ->. unfold batch_count in Hj. simpl in Hj. lia. }
  exists j. split; [done|]. split.
  - assert (∀ i, sent st2 st3 (AppendChildren pageID ∘ batch blocks <$> seq 0 i) →
              appends = (AppendChildren pageID ∘ batch blocks <$> seq 0 i)) as Hi.
    { intros i Hs. unfold appends.
      rewrite (sent_new_requests st st3 ((d0 ++ d1) ++ d2 ++
                 (AppendChildren pageID ∘ batch blocks <$> seq 0 i))).
      - rewrite list_fmap_compose. apply filter_appends; [|done].
        apply Forall_app. split; [|done]. eapply Forall_impl; [done|]. by intros [].
      - rewrite (assoc_L (++)).
        eapply sent_trans; [|done]. eapply sent_trans; [|done].
        by eapply sent_trans. }
    destruct Hd3 as [Hs|Hs]; [left|right]; by apply Hi.
  - by rewrite concat_batches, Nat.mul_0_r, drop_0.
Qed.

Lemma append_failure_leaves_partial_page_witness :
  is_append_error (ErrAppend "502 Bad Gateway" "upstream") ∧ highlights_250 ≠ [].
Proof.
  pose proof (append_failure_leaves_partial_page env_append_fails "T" "A" highlights_250
    fresh
    (mkClient "secret" "db" "Name" true,
     [GetDatabase "db"; QueryDatabase "db" "Name" "T (A)"])
    "page-1"
    (mkClient "secret" "db" "Name" true,
     [GetDatabase "db"; QueryDatabase "db" "Name" "T (A)";
      CreatePage "db" (page_properties (mkClient "secret" "db" "Name" true) "T" "A")])
    (ErrAppend "502 Bad Gateway" "upstream")
    (EnsureBookPage env_append_fails "T" "A" highlights_250 fresh).2) as H.
  destruct H as (H1 & H2 & _); [vm_compute; reflexivity..|].
  exact (conj H1 H2).
Defined.

(** * The Notion exporter: the loop over the books *)

Lemma export_pages_app env l1 l2 : ∀ st,
  export_pages env (l1 ++ l2) st =
  match export_pages env l1 st with
  | (Some e, st1) => (Some e, st1)
  | (None, st1) => export_pages env l2 st1
  end.
Proof.
  induction l1 as [|b l1 IH]; intros st; [done|]. simpl.
  destruct (EnsureBookPage env _ _ _ st) as [[e|] st1]; [done|apply IH].
Qed.

(** X14. When the loop over the books returns an error, it is the error of
    the first book that failed, under that book's title; the books before it
    were exported without error, and the result and the requests sent do not
    depend on the books that come after it. *)
Theorem notion_export_stops_at_first_error env books st err st' :
  export_pages env books st = (Some err, st') →
  ∃ pre b post e st0,
    books = pre ++ b :: post ∧
    export_pages env pre st = (None, st0) ∧
    EnsureBookPage env (Title b) (Author b) (Text <$> Highlights b) st0 = (Some e, st') ∧
    err = ErrNotionExport (Title b) e ∧
    ∀ others, export_pages env (pre ++ b :: others) st = (Some err, st').
Proof.
  revert st. induction books as [|b books IH]; intros st; simpl; [done|].
  destruct (EnsureBookPage env (Title b) (Author b) (Text <$> Highlights b) st)
    as [[e|] st1] eqn:HE.
  - intros [= <- <-]. exists [], b, books, e, st.
    split; [done|]. split; [done|]. split; [done|]. split; [done|].
    intros others. simpl. by rewrite HE.
  - intros Hrest. destruct (IH _ Hrest) as (pre & b' & post & e & st0 & -> & Hpre & Hb & -> & Hall).
    exists (b :: pre), b', post, e, st0. split; [done|]. simpl. rewrite HE.
    split; [done|]. split; [done|]. split; [done|].
    intros others. apply Hall.
Qed.

Lemma notion_export_stops_at_first_error_witness :
  ∃ pre b post e st0,
    [book_TA; book_slash] = pre ++ b :: post ∧
    export_pages env_404 pre fresh = (None, st0) ∧
    EnsureBookPage env_404 (Title b) (Author b) (Text <$> Highlights b) st0
      = (Some e, (export_pages env_404 [book_TA; book_slash] fresh).2) ∧
    ErrNotionExport "T" (ErrCreatePage "404 Not Found" "object_not_found")
      = ErrNotionExport (Title b) e ∧
    ∀ others, export_pages env_404 (pre ++ b :: others) fresh
      = (Some (ErrNotionExport "T" (ErrCreatePage "404 Not Found" "object_not_found")),
         (export_pages env_404 [book_TA; book_slash] fresh).2).
Proof.
  apply (notion_export_stops_at_first_error env_404 [book_TA; book_slash] fresh).
  vm_compute. reflexivity.
Defined.

(** * The Notion exporter: what a request can be *)

Lemma request_of_databaseID n n' req :
  databaseID n' = databaseID n → request_of n req → request_of n' req.
Proof. intros Hdb. destruct req; simpl; congruence. Qed.

Lemma keeps_refl st : keeps st st.
Proof.
  split; [done|]. split; [done|]. exists []. split; [apply sent_refl|constructor].
Qed.

Lemma keeps_trans a b c : keeps a b → keeps b c → keeps a c.
Proof.
  intros (Ht1 & Hd1 & d1 & Hs1 & HF1) (Ht2 & Hd2 & d2 & Hs2 & HF2).
  split; [congruence|]. split; [congruence|].
  exists (d1 ++ d2). split; [by eapply sent_trans|].
  apply Forall_app. split; [done|].
  eapply Forall_impl; [done|]. intros req. by apply request_of_databaseID.
Qed.

Lemma keeps_http_request env n n' id req hist :
  token n' = token n → databaseID n' = databaseID n → request_of n req →
  keeps (n, hist) (n', (http_request env id req hist).2).
Proof.
  intros Ht Hd Hreq. split; [done|]. split; [done|].
  destruct (http_request_sent env id req hist) as (delta & -> & [-> | ->]);
    eexists; (split; [done|]); by repeat constructor.
Qed.

Lemma keeps_resolve env st : keeps st (resolveTitlePropertyName env st).2.
Proof.
  destruct st as [n hist]. unfold resolveTitlePropertyName.
  pose proof (λ n', keeps_http_request env n n' (databaseID n)
                (GetDatabase (databaseID n)) hist) as Hk.
  destruct (http_request _ _ _ _) as [[e|resp] hist']; simpl in *; [by apply Hk|].
  repeat case_match; by apply Hk.
Qed.

Lemma keeps_ensure_resolved env st : keeps st (ensure_resolved env st).
Proof.
  unfold ensure_resolved. destruct (resolvedTitle st.1);
    [apply keeps_refl|apply keeps_resolve].
Qed.

Lemma keeps_pageExistsByTitle env title st : keeps st (pageExistsByTitle env title st).2.
Proof.
  unfold pageExistsByTitle. eapply keeps_trans; [apply (keeps_ensure_resolved env)|].
  destruct (ensure_resolved env st) as [n hist].
  pose proof (keeps_http_request env n n (databaseID n)
    (QueryDatabase (databaseID n) (titlePropName n) title) hist eq_refl eq_refl eq_refl)
    as Hk.
  destruct (http_request _ _ _ _) as [[e|resp] hist']; simpl in *; [done|].
  repeat case_match; done.
Qed.

Lemma keeps_create_page env title author st :
  keeps st (create_page env title author st).2.
Proof.
  pose proof (create_page_client env title author st) as Hc.
  split; [by rewrite Hc|]. split; [by rewrite Hc|].
  destruct st as [n hist]. unfold create_page, http_Do, sent.
  set (req1 := CreatePage _ _). set (req2 := CreatePage _ _).
  destruct (server env hist req1) as [|resp1]; simpl.
  { exists [req1]. split; [done|]. by repeat constructor. }
  destruct (decide _).
  - exists [req1; req2]. split; [|by repeat constructor].
    change [req1; req2] with ([req1] ++ [req2]). rewrite (assoc_L (++)).
    destruct (server env _ req2); simpl; [done|].
    repeat case_match; done.
  - exists [req1]. split; [|by repeat constructor].
    simpl. repeat case_match; done.
Qed.

Lemma create_page_pageID env title author st pageID st' :
  create_page env title author st = (inr pageID, st') → pageID ≠ EmptyString.
Proof.
  destruct st as [n hist]. unfold create_page.
  repeat case_match; intros [= <- _]; done.
Qed.

Lemma batch_nonempty blocks k : k < batch_count blocks → 0 < length (batch blocks k).
Proof.
  intros Hk%batch_count_lt. unfold batch. rewrite length_take, length_drop. lia.
Qed.

Lemma keeps_append_loop env pageID blocks st :
  pageID ≠ EmptyString → keeps st (append_loop env pageID blocks 0 st).2.
Proof.
  intros Hid. destruct (append_loop env pageID blocks 0 st) as [r st'] eqn:Hl.
  change 0 with (100 * 0) in Hl.
  eapply append_loop_batches in Hl as (Hn & j & Hj & Hsent & _); [|done].
  simpl. split; [by rewrite Hn|]. split; [by rewrite Hn|].
  eexists. split; [done|]. apply Forall_fmap, Forall_forall.
  intros k [_ Hk]%elem_of_seq. simpl. split; [done|]. split.
  - apply batch_nonempty. lia.
  - apply length_batch.
Qed.

Lemma keeps_EnsureBookPage env title author highlights st :
  keeps st (EnsureBookPage env title author highlights st).2.
Proof.
  unfold EnsureBookPage.
  eapply keeps_trans; [apply (keeps_ensure_resolved env)|].
  pose proof (keeps_pageExistsByTitle env (notionTitle title author)
                (ensure_resolved env st)) as Hq.
  destruct (pageExistsByTitle _ _ _) as [[e|[]] st1]; simpl in *; [done..|].
  eapply keeps_trans; [done|].
  pose proof (keeps_create_page env title author st1) as Hc.
  destruct (create_page _ _ _ _) as [[e|pageID] st2] eqn:Hcreate; simpl in *; [done|].
  eapply keeps_trans; [done|]. apply keeps_append_loop.
  by eapply create_page_pageID.
Qed.

Lemma keeps_export_pages env books : ∀ st, keeps st (export_pages env books st).2.
Proof.
  induction books as [|b books IH]; intros st; simpl; [apply keeps_refl|].
  pose proof (keeps_EnsureBookPage env (Title b) (Author b) (Text <$> Highlights b) st)
    as Hb.
  destruct (EnsureBookPage _ _ _ _ _) as [[e|] st1]; simpl in *; [done|].
  eapply keeps_trans; [done|apply IH].
Qed.

(** X15. An export never changes the token or the database id of the
    client and never removes a request from the history. Every schema fetch,
    query and page creation it sends names the client's database; every append
    request names a page id that is not empty and carries between 1 and 100
    blocks. *)
Theorem requests_stay_in_database env (n : NotionClient) books hist r n' hist' :
  NotionFormat_Export env (Some n) books hist = (r, Some n', hist') →
  token n' = token n ∧ databaseID n' = databaseID n ∧
  ∃ delta, hist' = hist ++ delta ∧
    ∀ req, req ∈ delta →
      match req with
      | GetDatabase id | QueryDatabase id _ _ | CreatePage id _ => id = databaseID n
      | AppendChildren pageID children =>
        pageID ≠ EmptyString ∧ 0 < length children ≤ 100
      end.
Proof.
  unfold NotionFormat_Export.
  pose proof (keeps_export_pages env books (n, hist)) as Hk.
  destruct (export_pages env books (n, hist)) as [r0 [n0 hist0]].
  intros [= <- <- <-]. destruct Hk as (Ht & Hd & delta & Hs & HF).
  split; [done|]. split; [done|]. exists delta. split; [done|].
  by apply Forall_forall.
Qed.

Lemma requests_stay_in_database_witness :
  token (mkClient "secret" "db" "Name" true) = token fresh.1 ∧
  databaseID (mkClient "secret" "db" "Name" true) = databaseID fresh.1.
Proof.
  pose proof (requests_stay_in_database env_empty fresh.1 [book_TA] []
    None (mkClient "secret" "db" "Name" true)
    (export_pages env_empty [book_TA] fresh).2.2) as H.
  destruct H as (H1 & H2 & _); [vm_compute; reflexivity|].
  exact (conj H1 H2).
Defined.

(** * The Notion exporter: the title property *)

(** X16. On a fresh client, when the schema is fetched and decoded, the
    existence check sends the schema request and then one query that filters
    on the title property the schema names (Title when it names none) with
    the display title of the book; the client is then marked resolved with
    that name, and the page properties built for creation carry the same
    display title under the same name, unless that name is Author and the book
    has an author. *)
Theorem discovered_title_property_used env token db title author hist resp props :
  url_ok env db = true →
  server env hist (GetDatabase db) = Reply resp →
  (StatusCode resp < 300)%Z →
  json_database env (Body resp) = Some props →
  let name := default "Title" (title_property props) in
  let st := (NewNotionClient token db, hist) in
  let out := pageExistsByTitle env (notionTitle title author) st in
  out.2.1 = mkClient token db name true ∧
  new_requests st out.2
    = [GetDatabase db; QueryDatabase db name (notionTitle title author)] ∧
  (name ≠ "Author" ∨ author = EmptyString →
   page_properties out.2.1 title author !! name
     = Some (TitleProp (notionTitle title author))).
Proof.
  intros Hurl Hserver Hstatus Hjson name st out.
  assert (ensure_resolved env st = (mkClient token db name true, hist ++ [GetDatabase db]))
    as Hres.
  { unfold ensure_resolved, st, resolveTitlePropertyName, http_request, http_Do. simpl.
    rewrite Hurl, Hserver. simpl.
    destruct (Z.leb_spec 300 (StatusCode resp)); [lia|]. rewrite Hjson. simpl.
    do 3 f_equal. unfold name. destruct (title_property props) as [nm|]; [|done].
    simpl. by case_decide. }
  assert (out.2 = (mkClient token db name true,
                   hist ++ [GetDatabase db] ++
                     [QueryDatabase db name (notionTitle title author)])) as Hout.
  { unfold out, pageExistsByTitle. rewrite Hres. unfold http_request, http_Do. simpl.
    rewrite Hurl.
    destruct (server env (hist ++ [GetDatabase db]) _) as [|resp'];
      simpl; rewrite <-(assoc_L (++)); [done|].
    repeat case_match; done. }
  rewrite Hout. split; [done|]. split.
  - unfold new_requests, st. simpl. by rewrite drop_app_length.
  - simpl. unfold page_properties. simpl. intros Hname. case_decide as Ha.
    + destruct Hname as [Hname|Hname]; [|done].
      rewrite lookup_insert_ne by done. apply lookup_singleton_eq.
    + apply lookup_singleton_eq.
Qed.

Lemma discovered_title_property_used_witness :
  new_requests fresh (pageExistsByTitle env_empty (notionTitle "T" "A") fresh).2
  = [GetDatabase "db"; QueryDatabase "db" "Name" (notionTitle "T" "A")].
Proof.
  refine (proj1 (proj2 (discovered_title_property_used env_empty "secret" "db" "T" "A" []
            ok_response [("Name", "title")] _ _ _ _))); reflexivity.
Defined.

(** X17. The properties of a create request: the title alone when the book
    has no author; with an author, the property Author holds the author. When
    the title property is not called Author it holds the display title and is
    all that is left once Author is deleted for the retry. When the title
    property is itself called Author and the book has an author, the request
    carries the author only and the retry carries no property at all. No
    other property is ever sent. *)
Theorem create_request_properties (n : NotionClient) (title author : string) :
  let props := page_properties n title author in
  (author = EmptyString → props = {[titlePropName n := TitleProp title]}) ∧
  (author ≠ EmptyString → props !! "Author" = Some (RichTextProp author)) ∧
  (titlePropName n ≠ "Author" →
     props !! titlePropName n = Some (TitleProp (notionTitle title author)) ∧
     delete "Author" props = {[titlePropName n := TitleProp (notionTitle title author)]}) ∧
  (titlePropName n = "Author" → author ≠ EmptyString →
     props = {["Author" := RichTextProp author]} ∧ delete "Author" props = ∅) ∧
  (∀ k, is_Some (props !! k) →
        k = titlePropName n ∨ (k = "Author" ∧ author ≠ EmptyString)).
Proof.
  unfold page_properties, notionTitle. simpl. split; [|split; [|split; [|split]]].
  - intros ->. by rewrite !decide_False by (by intros ?).
  - intros Ha. rewrite decide_True by done. apply lookup_insert_eq.
  - intros Hne. case_decide as Ha.
    + rewrite lookup_insert_ne by done. split; [apply lookup_singleton_eq|].
      rewrite delete_insert_eq. apply delete_id. by apply lookup_singleton_ne.
    + split; [apply lookup_singleton_eq|].
      apply delete_id. by apply lookup_singleton_ne.
  - intros -> Ha. rewrite !decide_True by done. rewrite insert_singleton_eq.
    split; [done|]. apply delete_singleton_eq.
  - intros k [v Hk]. case_decide as Ha.
    + destruct (decide (k = "Author")) as [->|Hne]; [by right|].
      rewrite lookup_insert_ne in Hk by done.
      apply lookup_singleton_Some in Hk as [<- _]. by left.
    + apply lookup_singleton_Some in Hk as [<- _]. by left.
Qed.

Lemma create_request_properties_witness :
  page_properties (mkClient "secret" "db" "Author" true) "T" "A"
    = {["Author" := RichTextProp "A"]} ∧
  delete "Author" (page_properties (mkClient "secret" "db" "Author" true) "T" "A") = ∅.
Proof.
  apply (proj1 (proj2 (proj2 (proj2
    (create_request_properties (mkClient "secret" "db" "Author" true) "T" "A")))));
    [reflexivity|discriminate].
Defined.

(** * [fetchBooks]: when it returns, and what a limit cuts *)

(** X18. [fetchBooks] returns books exactly when the file can be examined
    and opened, the Bookmark table is found, and the query run for the limit
    and the iteration over its rows report no error. The grouping never
    dereferences a missing book. *)
Theorem fetchBooks_succeeds_iff db limit :
  ((∃ books, fetchBooks db limit = inr books) ↔
   (∃ size, os_Stat db = StatSize size) ∧ sql_Open_fails db = false ∧
   schema_check db = BookmarkFound ∧
   Query_fails db limit = false ∧ rows_Err db limit = false) ∧
  fetchBooks db limit ≠ inl PanicNilBook.
Proof.
  split; [split|].
  - intros [books Hb]. unfold fetchBooks in Hb.
    destruct (os_Stat db) as [| |size]; [done..|].
    destruct (sql_Open_fails db); [done|].
    destruct (schema_check db); [|done..].
    destruct (Query_fails db limit); [done|].
    destruct (rows_Err db limit); [done|]. by repeat split; [eexists|..].
  - intros ([size Hs] & ? & ? & ? & ?). by eapply fetchBooks_returns.
  - unfold fetchBooks.
    destruct (group_books_spec (run_query db limit)) as (? & books & -> & _).
    repeat case_match; done.
Qed.

Lemma fetchBooks_succeeds_iff_witness : ∃ books, fetchBooks db_three 1 = inr books.
Proof.
  apply (proj2 (proj1 (fetchBooks_succeeds_iff db_three 1))).
  split; [by exists 4096%Z|]. repeat split.
Defined.

Lemma scanned_app a b : scanned (a ++ b) = scanned a ++ scanned b.
Proof. unfold scanned. apply omap_app. Qed.

Lemma rows_of_title_app t a b :
  rows_of_title t (a ++ b) = rows_of_title t a ++ rows_of_title t b.
Proof. unfold rows_of_title. by rewrite scanned_app, filter_app. Qed.

Lemma group_books_lookup rows books b :
  group_books rows = Some books →
  b ∈ books ↔ book_of (Title b) (rows_of_title (Title b) rows) = Some b.
Proof.
  intros Hg. destruct (group_books_spec rows) as (titles & books' & Hb & -> & Hs & Hin & HF).
  rewrite Hg in Hb. injection Hb as <-. split.
  - intros [i Hi]%list_elem_of_lookup.
    eapply Forall2_lookup_r in HF as (t & Ht & Hbook); [|done].
    rewrite list_lookup_fmap, Hi in Ht. by injection Ht as <-.
  - intros Hbook.
    assert (Title b ∈ Title <$> books) as [i Hi]%list_elem_of_lookup.
    { apply Hin. by destruct (rows_of_title _ _). }
    eapply Forall2_lookup_l in HF as (b' & Hb' & Hbook'); [|done].
    rewrite Hbook in Hbook'. injection Hbook' as <-.
    by eapply list_elem_of_lookup_2.
Qed.

(** X19. With a positive limit, every book returned is also returned
    under a larger limit or without limit, with the same title and author,
    and its highlights are a prefix of the highlights the book has there. *)
Theorem limit_keeps_prefix_of_each_book db limit limit' some all :
  (0 < limit)%Z → (limit' ≤ 0 ∨ limit ≤ limit')%Z →
  fetchBooks db limit = inr some →
  fetchBooks db limit' = inr all →
  ∀ b, b ∈ some →
    ∃ b', b' ∈ all ∧ Title b' = Title b ∧ Author b' = Author b ∧
          Highlights b `prefix_of` Highlights b'.
Proof.
  intros Hpos Hle Hsome%fetchBooks_inr Hall%fetchBooks_inr b Hb.
  assert (∃ rest, run_query db limit' = run_query db limit ++ rest) as [rest Hrows].
  { unfold run_query. rewrite (decide_True _ _ Hpos).
    set (sel := select_columns <$> _).
    case_decide.
    - exists (drop (Z.to_nat limit) (take (Z.to_nat limit') sel)).
      rewrite <-(take_drop (Z.to_nat limit) (take (Z.to_nat limit') sel)) at 1.
      f_equal. rewrite take_take. f_equal. lia.
    - exists (drop (Z.to_nat limit) sel). by rewrite take_drop. }
  apply (group_books_lookup _ _ b Hsome) in Hb.
  destruct (rows_of_title (Title b) (run_query db limit)) as [|r rs] eqn:Hrs; [done|].
  injection Hb as Hb.
  exists (mkBook (Title b) (row_author r)
            (row_highlight <$> (r :: rs) ++ rows_of_title (Title b) rest)).
  split; [|split; [done|split]].
  - apply (group_books_lookup _ _ _ Hall). simpl.
    by rewrite Hrows, rows_of_title_app, Hrs.
  - by rewrite <-Hb.
  - rewrite <-Hb. simpl. rewrite fmap_app.
    by exists (row_highlight <$> rows_of_title (Title b) rest).
Qed.

Lemma limit_keeps_prefix_of_each_book_witness :
  ∃ b', b' ∈ [mkBook "A" EmptyString
                [mkHighlight "one" "2024-01-01T00:00:00";
                 mkHighlight "two" "2024-01-01T00:00:00";
                 mkHighlight "three" "2024-01-01T00:00:00"];
              mkBook "B" EmptyString [mkHighlight "four" "2024-01-01T00:00:00"]] ∧
    Title b' = "A" ∧ Author b' = EmptyString ∧
    [mkHighlight "one" "2024-01-01T00:00:00"; mkHighlight "two" "2024-01-01T00:00:00"]
      `prefix_of` Highlights b'.
Proof.
  apply (limit_keeps_prefix_of_each_book db_three 2 0
           [mkBook "A" EmptyString
              [mkHighlight "one" "2024-01-01T00:00:00";
               mkHighlight "two" "2024-01-01T00:00:00"]]
           _ ltac:(lia) ltac:(lia) ltac:(vm_compute; reflexivity)
           ltac:(vm_compute; reflexivity)
           (mkBook "A" EmptyString
              [mkHighlight "one" "2024-01-01T00:00:00";
               mkHighlight "two" "2024-01-01T00:00:00"])).
  by left.
Defined.

(** * [fetchBooks]: the rows behind the highlights *)

Lemma scanned_elem rows title author text date :
  (title, author, text, date) ∈ scanned rows ↔
  (Some title, Some author, Some text, Some date) ∈ rows.
Proof.
  unfold scanned. rewrite list_elem_of_omap. split.
  - intros ([[[[t|] [a|]] [x|]] [d|]] & Hin & Hs); simplify_eq/=. done.
  - intros Hin. by eexists.
Qed.

Lemma run_query_elem db limit row :
  (limit ≤ 0)%Z →
  row ∈ run_query db limit ↔
  ∃ r, r ∈ joined_rows db ∧ where_clause r = true ∧ row = select_columns r.
Proof.
  intros Hl. unfold run_query. rewrite decide_False by lia.
  rewrite list_elem_of_fmap. split.
  - intros (r & -> & [Hw Hin]%list_elem_of_filter). by exists r.
  - intros (r & Hin & Hw & ->). exists r. split; [done|]. by apply list_elem_of_filter.
Qed.

Lemma run_query_sound db limit row :
  row ∈ run_query db limit →
  ∃ r, r ∈ joined_rows db ∧ where_clause r = true ∧ row = select_columns r.
Proof.
  unfold run_query. intros Hin.
  assert (row ∈ select_columns <$> filter (λ r, where_clause r = true) (joined_rows db))
    as (r & -> & [Hw Hr]%list_elem_of_filter)%list_elem_of_fmap.
  { case_decide; [|done].
    apply elem_of_take in Hin as (i & Hi & _). by eapply list_elem_of_lookup_2. }
  by exists r.
Qed.

Lemma book_highlight_rows rows books t text date :
  group_books rows = Some books →
  (∃ b, b ∈ books ∧ Title b = t ∧ mkHighlight text date ∈ Highlights b) ↔
  (∃ author, (t, author, text, date) ∈ scanned rows).
Proof.
  intros Hg. split.
  - intros (b & Hb & <- & Hh). apply (group_books_lookup _ _ _ Hg) in Hb.
    destruct (rows_of_title (Title b) rows) as [|r rs] eqn:Hrs; [done|].
    injection Hb as Hb. rewrite <-Hb in Hh.
    change (mkHighlight text date ∈ row_highlight <$> (r :: rs)) in Hh.
    rewrite <-Hrs in Hh.
    apply list_elem_of_fmap in Hh as ([[[t a] x] d] & [= -> ->] & Hin).
    unfold rows_of_title in Hin. apply list_elem_of_filter in Hin as [Ht Hin].
    unfold row_title in Ht. simpl in Ht. subst t. by exists a.
  - intros [author Hin].
    assert ((t, author, text, date) ∈ rows_of_title t rows) as Hin'.
    { unfold rows_of_title. by apply list_elem_of_filter. }
    destruct (rows_of_title t rows) as [|r rs] eqn:Hrs; [by apply elem_of_nil in Hin'|].
    exists (mkBook t (row_author r) (row_highlight <$> r :: rs)).
    split; [|split; [done|]].
    + apply (group_books_lookup _ _ _ Hg). simpl. by rewrite Hrs.
    + cbn [Highlights]. apply list_elem_of_fmap.
      by exists (t, author, text, date).
Qed.

(** X20. Every highlight of a returned book is the text and date of a
    selected row with the book's title, and the author of a returned book is
    the attribution of such a row, the empty string when the attribution is
    NULL. Without limit the converse holds: every selected row whose title
    and date are not NULL appears as a highlight of the book with that title.
    Rows with a NULL title or date are dropped. *)
Theorem highlights_come_from_rows db limit books :
  fetchBooks db limit = inr books →
  (∀ b h, b ∈ books → h ∈ Highlights b →
     ∃ r, r ∈ joined_rows db ∧ where_clause r = true ∧
          c_Title r = Some (Title b) ∧ b_Text r = Some (Text h) ∧
          b_DateCreated r = Some (Date h)) ∧
  (∀ b, b ∈ books →
     ∃ r, r ∈ joined_rows db ∧ where_clause r = true ∧
          c_Title r = Some (Title b) ∧
          Author b = default EmptyString (c_Attribution r)) ∧
  ((limit ≤ 0)%Z →
   ∀ r title text date,
     r ∈ joined_rows db → where_clause r = true →
     c_Title r = Some title → b_Text r = Some text → b_DateCreated r = Some date →
     ∃ b, b ∈ books ∧ Title b = title ∧ mkHighlight text date ∈ Highlights b).
Proof.
  intros Hg%fetchBooks_inr. split; [|split].
  - intros b [text date] Hb Hh.
    destruct (proj1 (book_highlight_rows _ _ (Title b) text date Hg)) as [author Hin].
    { by exists b. }
    apply scanned_elem, run_query_sound in Hin as (r & Hr & Hw & Hsel).
    exists r. unfold select_columns in Hsel. by simplify_eq/=.
  - intros b Hb. apply (group_books_lookup _ _ _ Hg) in Hb.
    destruct (rows_of_title (Title b) (run_query db limit)) as [|[[[t a] x] d] rs] eqn:Hrs;
      [done|].
    injection Hb as Hb.
    assert ((t, a, x, d) ∈ rows_of_title (Title b) (run_query db limit)) as Hin
      by (rewrite Hrs; by left).
    unfold rows_of_title in Hin. apply list_elem_of_filter in Hin as [Ht Hin].
    unfold row_title in Ht. simpl in Ht. subst t.
    apply scanned_elem, run_query_sound in Hin as (r & Hr & Hw & Hsel).
    exists r. unfold select_columns in Hsel. rewrite <-Hb. by simplify_eq/=.
  - intros Hl r title text date Hr Hw Ht Hx Hd.
    apply (book_highlight_rows _ _ title text date Hg).
    exists (default EmptyString (c_Attribution r)).
    apply scanned_elem, run_query_elem; [done|]. exists r.
    split; [done|]. split; [done|]. unfold select_columns. by rewrite Ht, Hx, Hd.
Qed.

Lemma highlights_come_from_rows_witness :
  ∃ b, b ∈ [mkBook "A" EmptyString [mkHighlight "kept" "d"]] ∧ Title b = "A" ∧
       mkHighlight "kept" "d" ∈ Highlights b.
Proof.
  apply (proj2 (proj2 (highlights_come_from_rows db_nulls 0
           [mkBook "A" EmptyString [mkHighlight "kept" "d"]]
           ltac:(vm_compute; reflexivity))) ltac:(lia)
           (mkRow (Some "A") None (Some "kept") (Some "d")));
    [by right; left|reflexivity..].
Defined.

(** * The row-selection predicate *)

Lemma trim_spaces_left_head s c rest :
  trim_spaces_left s = c :: rest → c ≠ " "%char.
Proof.
  induction s as [|x s IH]; simpl; [done|]. case_decide; [done|]. by intros [= <- _].
Qed.

Lemma trim_spaces_left_snoc a c :
  c ≠ " "%char → ∃ z, trim_spaces_left (a ++ [c]) = z ++ [c].
Proof.
  intros Hc. induction a as [|x a IH]; simpl.
  - rewrite decide_False by done. by exists [].
  - case_decide; [done|]. by exists (x :: a).
Qed.

Lemma byte_val_zero c : byte_val c = 0%N ↔ c = "000"%char.
Proof.
  unfold byte_val. split; [|by intros ->].
  intros H. by rewrite <-(ascii_N_embedding c), H.
Qed.

(** X21. A row is selected exactly when its text is not NULL, has a byte
    other than the space, and the first such byte is not NUL. *)
Theorem where_clause_spec (r : Row) :
  where_clause r = true ↔
  ∃ text c rest,
    b_Text r = Some text ∧ trim_spaces_left (bts text) = c :: rest ∧
    c ≠ " "%char ∧ c ≠ "000"%char.
Proof.
  unfold where_clause. destruct (b_Text r) as [text|]; cycle 1.
  { split; [done|]. by intros (? & ? & ? & ? & _). }
  rewrite bool_decide_eq_true. unfold sql_LENGTH, sql_TRIM. rewrite bts_str.
  destruct (trim_spaces_left (bts text)) as [|c rest] eqn:Hy.
  { simpl. split; [lia|]. intros (? & ? & ? & [= <-] & Hx & _). by rewrite Hy in Hx. }
  pose proof (trim_spaces_left_head _ _ _ Hy) as Hc.
  rewrite reverse_cons.
  destruct (trim_spaces_left_snoc (reverse rest) c Hc) as [z ->].
  rewrite reverse_app. simpl. split.
  - intros Hlen. exists text, c, rest. split; [done|]. split; [done|]. split; [done|].
    intros ->. simpl in Hlen. lia.
  - intros (? & c' & ? & [= <-] & Hx & _ & Hnul). rewrite Hy in Hx.
    injection Hx as <- <-.
    destruct (byte_val c =? 0)%N eqn:Hz; [|lia].
    apply N.eqb_eq, byte_val_zero in Hz. done.
Qed.

Lemma where_clause_spec_witness : where_clause (sample_row "A" "  x ") = true.
Proof.
  apply (proj2 (where_clause_spec (sample_row "A" "  x "))).
  exists "  x ", "x"%char, [" "%char]. repeat split; discriminate.
Defined.

(** * [truncateForLog] *)

(** X22. The result of [truncateForLog] has the length of the input or
    [max], whichever is smaller; it is the input exactly when the input fits.
    When the input is cut, the result begins with the first [max - 3] bytes of
    the input followed by three dots, or is the first [max] bytes when [max]
    is below 3. *)
Theorem truncateForLog_spec (s : string) (max : nat) :
  String.length (truncateForLog s max) = String.length s `min` max ∧
  (truncateForLog s max = s ↔ String.length s ≤ max) ∧
  (max < String.length s →
     take (max - 3) (bts (truncateForLog s max)) = take (max - 3) (bts s) ∧
     drop (max - 3) (bts (truncateForLog s max))
       = if decide (max < 3) then take max (bts s) else bts "...").
Proof.
  assert (String.length (truncateForLog s max) = String.length s `min` max) as Hlen.
  { unfold truncateForLog. repeat case_decide.
    - by rewrite Nat.min_l.
    - rewrite length_str, length_take, length_bts. apply Nat.min_comm.
    - rewrite length_append, length_str, length_take, length_bts. simpl.
      rewrite Nat.min_l by lia. rewrite Nat.min_r by lia. lia. }
  split; [done|]. split; [split|].
  - intros E. rewrite E in Hlen.
    destruct (Nat.min_spec (String.length s) max) as [[? Hm]|[? Hm]];
      rewrite Hm in Hlen; lia.
  - intros Hle. unfold truncateForLog. by rewrite decide_True.
  - intros Hlt. unfold truncateForLog. rewrite decide_False by lia.
    case_decide as H3.
    + replace (max - 3) with 0 by lia. by rewrite bts_str.
    + rewrite bts_app, bts_str.
      assert (length (take (max - 3) (bts s)) = max - 3) as Hl.
      { rewrite length_take, length_bts. apply Nat.min_l. lia. }
      split.
      * rewrite take_app_le by lia. rewrite take_take. f_equal. lia.
      * rewrite drop_app_ge by lia. rewrite Hl, Nat.sub_diag. done.
Qed.

Lemma truncateForLog_spec_witness : truncateForLog "abc" 5 = "abc".
Proof. apply (proj2 (proj1 (proj2 (truncateForLog_spec "abc" 5)))). simpl. lia. Defined.

(** * UTF-8: encoding what was decoded *)

(** Linear arithmetic with division and remainder by constants. *)
Ltac dlia := zify; Z.to_euclidean_division_equations; lia.

Lemma lor_disjoint (x y k : N) :
  (x mod 2 ^ k = 0 → y < 2 ^ k → N.lor x y = x + y)%N.
Proof.
  intros Hx Hy. rewrite N.add_nocarry_lxor; [symmetry; apply N.lxor_lor|];
  (apply N.bits_inj; intros i; rewrite N.land_spec, N.bits_0;
   destruct (N.lt_ge_cases i k);
   [rewrite <-(N.mod_pow2_bits_low x k i), Hx, N.bits_0 by done; done
   |rewrite <-(N.mod_small y (2^k)) by done;
    rewrite N.mod_pow2_bits_high by done; apply andb_false_r]).
Qed.

Lemma land_mask (x : N) :
  (N.land x 0xFF = x mod 256 ∧ N.land x 0x3F = x mod 64 ∧ N.land x 0x1F = x mod 32 ∧
   N.land x 0x0F = x mod 16 ∧ N.land x 0x07 = x mod 8)%N.
Proof.
  change 0xFF%N with (N.ones 8). change 0x3F%N with (N.ones 6).
  change 0x1F%N with (N.ones 5). change 0x0F%N with (N.ones 4).
  change 0x07%N with (N.ones 3). by rewrite !N.land_ones.
Qed.

Lemma shift_arith (x : N) :
  (N.shiftr x 6 = x / 64 ∧ N.shiftr x 12 = x / 4096 ∧ N.shiftr x 18 = x / 262144 ∧
   N.shiftl x 6 = x * 64 ∧ N.shiftl x 12 = x * 4096 ∧ N.shiftl x 18 = x * 262144)%N.
Proof. by rewrite !N.shiftr_div_pow2, !N.shiftl_mul_pow2. Qed.

(** Bit operations on bytes and runes, as arithmetic. *)
Ltac to_arith :=
  repeat match goal with
  | |- context [N.land ?x 0xFF%N] => rewrite (proj1 (land_mask x))
  | |- context [N.land ?x 0x3F%N] => rewrite (proj1 (proj2 (land_mask x)))
  | |- context [N.land ?x 0x1F%N] => rewrite (proj1 (proj2 (proj2 (land_mask x))))
  | |- context [N.land ?x 0x0F%N] => rewrite (proj1 (proj2 (proj2 (proj2 (land_mask x)))))
  | |- context [N.land ?x 0x07%N] => rewrite (proj2 (proj2 (proj2 (proj2 (land_mask x)))))
  | |- context [N.shiftr ?x 6] => rewrite (proj1 (shift_arith x))
  | |- context [N.shiftr ?x 12] => rewrite (proj1 (proj2 (shift_arith x)))
  | |- context [N.shiftr ?x 18] => rewrite (proj1 (proj2 (proj2 (shift_arith x))))
  | |- context [N.shiftl ?x 6] => rewrite (proj1 (proj2 (proj2 (proj2 (shift_arith x)))))
  | |- context [N.shiftl ?x 12] =>
      rewrite (proj1 (proj2 (proj2 (proj2 (proj2 (shift_arith x))))))
  | |- context [N.shiftl ?x 18] =>
      rewrite (proj2 (proj2 (proj2 (proj2 (proj2 (shift_arith x))))))
  end.

Ltac pow_const k :=
  let p := eval vm_compute in (N.pow 2 k) in change (N.pow 2 k) with p.

Tactic Notation "lor_add" uconstr(x) constr(k) :=
  rewrite (lor_disjoint x _ k); [|pow_const k..]; [|dlia..].

Lemma rune2_arith (s0 s1 : N) :
  (0xC2 ≤ s0 ≤ 0xDF → 0x80 ≤ s1 ≤ 0xBF →
   rune2 s0 s1 = (s0 - 0xC0) * 64 + (s1 - 0x80))%N.
Proof. intros. unfold rune2. to_arith. lor_add _ 6%N. dlia. Qed.

Lemma rune3_arith (s0 s1 s2 : N) :
  (0xE0 ≤ s0 ≤ 0xEF → 0x80 ≤ s1 ≤ 0xBF → 0x80 ≤ s2 ≤ 0xBF →
   rune3 s0 s1 s2 = (s0 - 0xE0) * 4096 + (s1 - 0x80) * 64 + (s2 - 0x80))%N.
Proof.
  intros. unfold rune3. to_arith. lor_add (_ * 4096)%N 12%N. lor_add _ 6%N. dlia.
Qed.

Lemma rune4_arith (s0 s1 s2 s3 : N) :
  (0xF0 ≤ s0 ≤ 0xF4 → 0x80 ≤ s1 ≤ 0xBF → 0x80 ≤ s2 ≤ 0xBF → 0x80 ≤ s3 ≤ 0xBF →
   rune4 s0 s1 s2 s3
   = (s0 - 0xF0) * 262144 + (s1 - 0x80) * 4096 + (s2 - 0x80) * 64 + (s3 - 0x80))%N.
Proof.
  intros. unfold rune4. to_arith.
  lor_add (_ * 262144)%N 18%N. lor_add (_ + _ * 4096)%N 12%N. lor_add _ 6%N. dlia.
Qed.

Ltac decide_cmp :=
  repeat match goal with
  | |- context [(?a <=? ?b)%N] => destruct (N.leb_spec a b); try (exfalso; dlia)
  | |- context [(?a <? ?b)%N] => destruct (N.ltb_spec a b); try (exfalso; dlia)
  end; cbn [orb andb].

Ltac byte_eq :=
  match goal with
  | |- ascii_of_N ?n = ?c =>
    replace n with (byte_val c) by dlia; apply ascii_N_embedding
  end.

Lemma Encode_rune2 (c0 c1 : ascii) :
  (0xC2 ≤ byte_val c0 ≤ 0xDF)%N → (0x80 ≤ byte_val c1 ≤ 0xBF)%N →
  utf8_EncodeRune (rune2 (byte_val c0) (byte_val c1)) = [c0; c1].
Proof.
  intros H0 H1. rewrite rune2_arith by done.
  cbv beta zeta delta [utf8_EncodeRune]. decide_cmp. to_arith.
  lor_add 192%N 6%N. lor_add 128%N 6%N.
  f_equal; [|f_equal]; byte_eq.
Qed.

Lemma Encode_rune3 (c0 c1 c2 : ascii) :
  (0xE0 ≤ byte_val c0 ≤ 0xEF)%N → (0x80 ≤ byte_val c1 ≤ 0xBF)%N →
  (0x80 ≤ byte_val c2 ≤ 0xBF)%N →
  (byte_val c0 = 0xE0 → 0xA0 ≤ byte_val c1)%N →
  (byte_val c0 = 0xED → byte_val c1 ≤ 0x9F)%N →
  utf8_EncodeRune (rune3 (byte_val c0) (byte_val c1) (byte_val c2)) = [c0; c1; c2].
Proof.
  intros H0 H1 H2 Hlo Hhi. rewrite rune3_arith by done.
  cbv beta zeta delta [utf8_EncodeRune]. decide_cmp.
  all: to_arith; lor_add 224%N 4%N; lor_add 128%N 6%N; lor_add 128%N 6%N.
  all: f_equal; [|f_equal; [|f_equal]]; byte_eq.
Qed.

Lemma Encode_rune4 (c0 c1 c2 c3 : ascii) :
  (0xF0 ≤ byte_val c0 ≤ 0xF4)%N → (0x80 ≤ byte_val c1 ≤ 0xBF)%N →
  (0x80 ≤ byte_val c2 ≤ 0xBF)%N → (0x80 ≤ byte_val c3 ≤ 0xBF)%N →
  (byte_val c0 = 0xF0 → 0x90 ≤ byte_val c1)%N →
  (byte_val c0 = 0xF4 → byte_val c1 ≤ 0x8F)%N →
  utf8_EncodeRune (rune4 (byte_val c0) (byte_val c1) (byte_val c2) (byte_val c3))
  = [c0; c1; c2; c3].
Proof.
  intros H0 H1 H2 H3 Hlo Hhi. rewrite rune4_arith by done.
  cbv beta zeta delta [utf8_EncodeRune]. decide_cmp.
  all: to_arith; lor_add 240%N 3%N; lor_add 128%N 6%N; lor_add 128%N 6%N;
    lor_add 128%N 6%N.
  all: f_equal; [|f_equal; [|f_equal; [|f_equal]]]; byte_eq.
Qed.

Lemma utf8_first_cases (s0 : N) sz lo hi :
  utf8_first s0 = Some (sz, lo, hi) →
  (sz = 2 ∧ (0xC2 ≤ s0 ≤ 0xDF ∧ lo = 0x80 ∧ hi = 0xBF)%N) ∨
  (sz = 3 ∧ (0xE0 ≤ s0 ≤ 0xEF ∧ 0x80 ≤ lo ∧ hi ≤ 0xBF ∧
   (s0 = 0xE0 → lo = 0xA0) ∧ (s0 = 0xED → hi = 0x9F))%N) ∨
  (sz = 4 ∧ (0xF0 ≤ s0 ≤ 0xF4 ∧ 0x80 ≤ lo ∧ hi ≤ 0xBF ∧
   (s0 = 0xF0 → lo = 0x90) ∧ (s0 = 0xF4 → hi = 0x8F))%N).
Proof.
  unfold utf8_first, locb, hicb.
  repeat match goal with
  | |- context [(?a <? ?b)%N] => destruct (N.ltb_spec a b)
  | |- context [(?a =? ?b)%N] => destruct (N.eqb_spec a b)
  end; intros [= <- <- <-]; lia.
Qed.

Lemma in_range_bounds lo hi c :
  in_range lo hi c = true → (lo ≤ byte_val c ≤ hi)%N.
Proof. unfold in_range. intros [?%N.leb_le ?%N.leb_le]%andb_prop. done. Qed.

(** The encoding of a decoded rune is the bytes it was decoded from, unless
    the decoder gave up on the first byte. *)
Lemma Encode_Decode (s : bytes) r n :
  utf8_DecodeRune s = (r, n) → s ≠ [] →
  utf8_EncodeRune r = take n s ∨ (r = RuneError ∧ n = 1).
Proof.
  destruct s as [|c0 t]; [done|]. intros Hd _. revert Hd.
  unfold utf8_DecodeRune, RuneSelf.
  destruct (N.ltb_spec (byte_val c0) 128) as [Hascii|Hwide].
  { intros [= <- <-]. left. cbv beta zeta delta [utf8_EncodeRune]. decide_cmp.
    to_arith. simpl. f_equal. byte_eq. }
  destruct (utf8_first (byte_val c0)) as [[[sz lo] hi]|] eqn:Hf; [|intros [= <- <-]; by right].
  apply utf8_first_cases in Hf.
  destruct t as [|c1 t1]; [intros [= <- <-]; by right|].
  destruct (in_range lo hi c1) eqn:H1; [|intros [= <- <-]; by right].
  apply in_range_bounds in H1. cbn [negb].
  destruct Hf as [(-> & H0 & -> & ->)|[(-> & H0 & Hlo & Hhi & HE0 & HED)
                                       |(-> & H0 & Hlo & Hhi & HF0 & HF4)]].
  - intros [= <- <-]. left. by apply Encode_rune2.
  - cbn [Nat.leb].
    destruct t1 as [|c2 t2]; [intros [= <- <-]; by right|].
    destruct (in_range locb hicb c2) eqn:H2; [|intros [= <- <-]; by right].
    apply in_range_bounds in H2. unfold locb, hicb in H2. cbn [negb].
    intros [= <- <-]. left. apply Encode_rune3; lia.
  - cbn [Nat.leb].
    destruct t1 as [|c2 t2]; [intros [= <- <-]; by right|].
    destruct (in_range locb hicb c2) eqn:H2; [|intros [= <- <-]; by right].
    apply in_range_bounds in H2. unfold locb, hicb in H2. cbn [negb].
    destruct t2 as [|c3 t3]; [intros [= <- <-]; by right|].
    destruct (in_range locb hicb c3) eqn:H3; [|intros [= <- <-]; by right].
    apply in_range_bounds in H3. unfold locb, hicb in H3. cbn [negb].
    intros [= <- <-]. left. apply Encode_rune4; lia.
Qed.

(** * The runes of a string, encoded again *)

Lemma range_string_chunk (s : bytes) (c : N * bytes) :
  c ∈ range_string s →
  ∃ s', s' ≠ [] ∧ c = ((utf8_DecodeRune s').1, take (utf8_DecodeRune s').2 s').
Proof.
  remember (length s) as n eqn:Hn. revert s Hn.
  induction n as [n IH] using lt_wf_ind. intros [|c0 t] ->.
  { intros Hc. by apply elem_of_nil in Hc. }
  rewrite range_string_cons. intros [->|Hin]%elem_of_cons.
  - by exists (c0 :: t).
  - eapply IH; [|done|done].
    pose proof (DecodeRune_size (c0 :: t) ltac:(done)). rewrite length_drop. simpl in *. lia.
Qed.

Lemma Encode_RuneError :
  utf8_EncodeRune RuneError = ["239"; "191"; "189"]%char.
Proof. reflexivity. Qed.

Lemma canonical_RuneError : canonical RuneError.
Proof. by vm_compute. Qed.

Lemma chunk_encoded (s : bytes) (c : N * bytes) :
  c ∈ range_string s →
  (utf8_EncodeRune c.1 = c.2 ∨ (c.1 = RuneError ∧ length c.2 = 1)) ∧ canonical c.1.
Proof.
  intros (s' & Hne & ->)%range_string_chunk.
  destruct (utf8_DecodeRune s') as [r n] eqn:Hd. cbn [fst snd].
  pose proof (DecodeRune_size s' Hne) as Hsz. rewrite Hd in Hsz. cbn [snd] in Hsz.
  destruct (Encode_Decode s' r n Hd Hne) as [Henc|[-> ->]].
  - split; [by left|]. unfold canonical. rewrite Henc.
    assert (take n s' ≠ []) as Hne'.
    { intros E%(f_equal length). rewrite length_take in E. simpl in E. lia. }
    split; [done|]. split.
    + pose proof (DecodeRune_take s') as Ht. rewrite Hd in Ht. cbn [snd] in Ht.
      rewrite Ht, length_take. f_equal. lia.
    + destruct s' as [|c0 t]; [done|]. destruct n as [|n]; [lia|]. simpl.
      destruct (is_cont c0) eqn:Hc; [|done].
      rewrite (DecodeRune_cont c0 t Hc) in Hd. injection Hd as <- <-.
      rewrite Encode_RuneError in Henc. done.
  - split; [|apply canonical_RuneError]. right. split; [done|].
    rewrite length_take. lia.
Qed.

Lemma canonical_clean_start r post :
  canonical r → clean_start (utf8_EncodeRune r ++ post).
Proof.
  intros (Hne & _ & Hc). by destruct (utf8_EncodeRune r).
Qed.

Lemma range_string_encoded (rs : list N) (post : bytes) :
  Forall canonical rs → clean_start post →
  range_string ((rs ≫= utf8_EncodeRune) ++ post)
  = ((λ r, (r, utf8_EncodeRune r)) <$> rs) ++ range_string post.
Proof.
  intros Hrs Hpost. induction Hrs as [|r rs Hr Hrs IH]; [done|].
  rewrite bind_cons, <-(assoc_L (++)), range_string_app.
  - rewrite IH. destruct Hr as (Hne & Hd & _).
    rewrite (range_string_single (utf8_EncodeRune r)) by (by rewrite ?Hd).
    by rewrite Hd.
  - destruct Hrs as [|r' rs' Hr' _]; [done|].
    rewrite bind_cons, <-(assoc_L (++)). by apply canonical_clean_start.
Qed.

Lemma runes_canonical (s : string) : Forall canonical (runes_of_string s).
Proof.
  unfold runes_of_string. apply Forall_fmap, Forall_forall.
  intros c Hc. by apply (chunk_encoded (bts s)).
Qed.

Lemma preview_clean_no_newline (s : string) : "010"%char ∉ bts (preview_clean s).
Proof.
  unfold preview_clean.
  destruct (strings_TrimSpace_spec (strings_ReplaceAll s "010"%char " "))
    as (lead & trail & Hs & _).
  intros Hin.
  destruct (ReplaceAll_newline (bts s)) as [Hnl _]. apply Hnl.
  unfold strings_ReplaceAll, Replacer_Replace in Hs. rewrite bts_str in Hs.
  rewrite Hs. apply elem_of_app. right. apply elem_of_app. by left.
Qed.

Lemma elem_of_concat {A} (x : A) (l : list A) (ls : list (list A)) :
  l ∈ ls → x ∈ l → x ∈ concat ls.
Proof.
  induction ls as [|l' ls IH]; [by intros ?%elem_of_nil|].
  simpl. intros [->|Hin]%elem_of_cons Hx; apply elem_of_app; [by left|right; auto].
Qed.

Lemma chunk_bytes (s : bytes) (c : N * bytes) (x : ascii) :
  c ∈ range_string s → x ∈ c.2 → x ∈ s.
Proof.
  intros Hc Hx. rewrite <-(range_string_concat s).
  apply (elem_of_concat _ c.2); [|done].
  apply list_elem_of_fmap. by exists c.
Qed.

(** * [truncateClean] *)

Lemma truncateClean_cut (s : string) (max : nat) :
  max < utf8_RuneCountInString (preview_clean s) →
  bts (truncateClean s max)
  = (take max (runes_of_string (preview_clean s)) ≫= utf8_EncodeRune) ++ bts ellipsis.
Proof.
  intros Hlt. unfold truncateClean. fold (preview_clean s).
  rewrite decide_False by lia. unfold string_of_runes. by rewrite bts_app, bts_str.
Qed.

Lemma runes_of_string_length (s : string) :
  length (runes_of_string s) = utf8_RuneCountInString s.
Proof. unfold runes_of_string, utf8_RuneCountInString. by rewrite length_fmap. Qed.

Lemma truncateClean_fits (s : string) (max : nat) :
  utf8_RuneCountInString (preview_clean s) ≤ max → truncateClean s max = preview_clean s.
Proof.
  intros Hle. unfold truncateClean. fold (preview_clean s). by rewrite decide_True.
Qed.

Lemma truncateClean_runes (s : string) (max : nat) :
  max < utf8_RuneCountInString (preview_clean s) →
  runes_of_string (truncateClean s max)
  = take max (runes_of_string (preview_clean s)) ++ [0x2026%N].
Proof.
  intros Hlt. unfold runes_of_string at 1. rewrite truncateClean_cut by done.
  rewrite range_string_encoded.
  - rewrite fmap_app, <-list_fmap_compose.
    rewrite (list_fmap_ext _ id (take max (runes_of_string (preview_clean s)))) by done.
    by rewrite list_fmap_id.
  - apply Forall_take, runes_canonical.
  - done.
Qed.

Lemma truncateClean_count (s : string) (max : nat) :
  utf8_RuneCountInString (truncateClean s max)
  = utf8_RuneCountInString (preview_clean s) `min` (max + 1).
Proof.
  destruct (decide (utf8_RuneCountInString (preview_clean s) ≤ max)) as [Hle|Hgt].
  - rewrite truncateClean_fits by done. rewrite Nat.min_l; lia.
  - rewrite <-(runes_of_string_length (truncateClean s max)), truncateClean_runes by lia.
    rewrite length_app, length_take, runes_of_string_length. simpl.
    rewrite Nat.min_l by lia. rewrite Nat.min_r; lia.
Qed.

Lemma truncateClean_no_newline (s : string) (max : nat) :
  "010"%char ∉ bts (truncateClean s max).
Proof.
  destruct (decide (utf8_RuneCountInString (preview_clean s) ≤ max)) as [Hle|Hgt].
  { rewrite truncateClean_fits by done. apply preview_clean_no_newline. }
  rewrite truncateClean_cut by lia.
  intros [Hin|Hin]%elem_of_app.
  - apply list_elem_of_bind in Hin as (r & Hx & Hr).
    apply elem_of_take in Hr as (i & Hr%list_elem_of_lookup_2 & _).
    unfold runes_of_string in Hr. apply list_elem_of_fmap in Hr as (c & -> & Hc).
    destruct (chunk_encoded _ _ Hc) as [[Henc|[Herr _]] _].
    + rewrite Henc in Hx. eapply (preview_clean_no_newline s), chunk_bytes; done.
    + rewrite Herr, Encode_RuneError in Hx. revert Hx. by decide_closed.
  - revert Hin. by decide_closed.
Qed.

(** X23. [truncateClean] returns the cleaned text (newlines replaced by
    spaces, then trimmed) when it has at most [max] runes. Otherwise the runes
    of the result are the first [max] runes of the cleaned text followed by
    the ellipsis U+2026, an invalid byte counting as the rune U+FFFD. In both
    cases the result has at most [max + 1] runes and no newline byte. *)
Theorem truncateClean_spec (s : string) (max : nat) :
  let cleaned := preview_clean s in
  (utf8_RuneCountInString cleaned ≤ max → truncateClean s max = cleaned) ∧
  (max < utf8_RuneCountInString cleaned →
     runes_of_string (truncateClean s max)
       = take max (runes_of_string cleaned) ++ [0x2026%N]) ∧
  utf8_RuneCountInString (truncateClean s max)
    = utf8_RuneCountInString cleaned `min` (max + 1) ∧
  ("010"%char ∉ bts (truncateClean s max)).
Proof.
  intros cleaned. split; [apply truncateClean_fits|].
  split; [apply truncateClean_runes|].
  split; [apply truncateClean_count|apply truncateClean_no_newline].
Qed.

Lemma chunk_nonempty (s : bytes) (c : N * bytes) : c ∈ range_string s → c.2 ≠ [].
Proof.
  intros (s' & Hne & ->)%range_string_chunk. cbn [snd].
  pose proof (DecodeRune_size s' Hne) as Hsz.
  intros E%(f_equal length). rewrite length_take in E. simpl in E. lia.
Qed.

(** X24. On a cleaned text that is valid UTF-8 and has more than [max]
    runes, the result of [truncateClean] is a proper prefix of the cleaned
    text, cut between two runes after the first [max] of them, followed by
    the ellipsis. *)
Theorem truncateClean_valid_prefix (s : string) (max : nat) :
  let cleaned := preview_clean s in
  valid_utf8 cleaned →
  max < utf8_RuneCountInString cleaned →
  ∃ k, k < String.length cleaned ∧
       bts (truncateClean s max) = take k (bts cleaned) ++ bts ellipsis ∧
       range_string (take k (bts cleaned)) = take max (range_string (bts cleaned)).
Proof.
  intros cleaned Hvalid Hlt. rewrite truncateClean_cut by done. fold cleaned.
  set (chunks := range_string (bts cleaned)).
  assert (Forall (λ c, utf8_EncodeRune c.1 = c.2) (take max chunks)) as HF.
  { apply Forall_take, Forall_forall. intros c Hc.
    destruct (chunk_encoded _ _ Hc) as [[Henc|[Herr Hlen]] _]; [done|].
    unfold valid_utf8 in Hvalid. eapply Forall_forall in Hvalid; [|done].
    by destruct (Hvalid Herr). }
  assert (take max (runes_of_string cleaned) ≫= utf8_EncodeRune
          = concat ((take max chunks).*2)) as Henc.
  { unfold runes_of_string. fold chunks. rewrite <-fmap_take.
    induction HF as [|c cs Hc _ IH]; [done|].
    rewrite fmap_cons, bind_cons, IH. simpl. by rewrite Hc. }
  assert (bts cleaned = concat ((take max chunks).*2) ++ concat ((drop max chunks).*2))
    as Hsplit.
  { rewrite <-concat_app, <-fmap_app, take_drop. symmetry. apply range_string_concat. }
  exists (length (concat ((take max chunks).*2))). split; [|split].
  - rewrite <-length_bts, Hsplit, length_app.
    destruct (drop max chunks) as [|c rest] eqn:Hd.
    { apply (f_equal length) in Hd. rewrite length_drop in Hd. simpl in Hd.
      unfold utf8_RuneCountInString in Hlt. fold chunks in Hlt. lia. }
    assert (c ∈ chunks) as Hc.
    { rewrite <-(take_drop max chunks), Hd. apply elem_of_app. right. by left. }
    apply chunk_nonempty in Hc. simpl. rewrite length_app.
    destruct c.2; [done|]. simpl. lia.
  - rewrite Henc. f_equal. rewrite Hsplit at 1. by rewrite take_app_length.
  - rewrite Hsplit at 1. rewrite take_app_length, <-Henc.
    rewrite <-(app_nil_r (_ ≫= _)), range_string_encoded;
      [|apply Forall_take, runes_canonical|done].
    rewrite app_nil_r. unfold runes_of_string. fold chunks.
    rewrite <-fmap_take, <-list_fmap_compose.
    clear -HF. induction HF as [|[r x] cs Hc _ IH]; [done|].
    rewrite fmap_cons, IH. simpl in *. by rewrite Hc.
Qed.

Lemma truncateClean_valid_prefix_witness :
  ∃ k, k < String.length (preview_clean "abcdef") ∧
       bts (truncateClean "abcdef" 3) = take k (bts (preview_clean "abcdef")) ++ bts ellipsis ∧
       range_string (take k (bts (preview_clean "abcdef")))
         = take 3 (range_string (bts (preview_clean "abcdef"))).
Proof.
  apply (truncateClean_valid_prefix "abcdef" 3).
  - unfold valid_utf8. vm_compute. repeat constructor; discriminate.
  - vm_compute. lia.
Defined.

Lemma truncateClean_spec_witness : truncateClean " ab " 5 = preview_clean " ab ".
Proof. apply (proj1 (truncateClean_spec " ab " 5)). vm_compute. lia. Defined.

(** * The action of the command *)



(** * The console preview *)

Lemma pretty_N_char_no_newline (x : N) : pretty_N_char x ≠ "010"%char.
Proof. unfold pretty_N_char. by repeat case_match. Qed.

Lemma pretty_N_go_no_newline (x : N) (s : string) :
  ("010"%char ∉ bts s) → "010"%char ∉ bts (pretty_N_go x s).
Proof.
  revert s. induction (N.lt_wf_0 x) as [x _ IH]; intros s Hs.
  destruct (decide (x = 0%N)) as [->|Hx]; [by rewrite pretty_N_go_0|].
  rewrite pretty_N_go_step by lia. apply IH.
  - apply N.div_lt; lia.
  - simpl. intros [E|Hin]%elem_of_cons; [|done].
    by apply (pretty_N_char_no_newline (x `mod` 10)).
Qed.

Lemma fmt_2d_no_newline (n : nat) : "010"%char ∉ bts (fmt_2d n).
Proof.
  unfold fmt_2d. rewrite bts_app, bts_str. intros [Hin|Hin]%elem_of_app.
  - apply elem_of_replicate_inv in Hin. discriminate Hin.
  - revert Hin. unfold pretty, pretty_nat, pretty, pretty_N.
    case_decide; [by decide_closed|]. apply pretty_N_go_no_newline, not_elem_of_nil.
Qed.

(** X25. The preview of a book is a rule, the heading, one write for each
    highlight and a blank line. Every highlight, blank or not, gets exactly
    one line: its number and its cleaned text of at most 101 runes, with no
    newline before the one that ends the line. *)
Theorem preview_one_line_per_highlight (b : Book) :
  length (preview_book b) = 3 + length (Highlights b) ∧
  ∀ i h, Highlights b !! i = Some h →
    ∃ body,
      preview_book b !! (2 + i) = Some (body +:+ nl) ∧
      body = "  " +:+ fmt_2d (i + 1) +:+ ". " +:+ truncateClean (Text h) previewLen ∧
      ("010"%char ∉ bts body) ∧
      utf8_RuneCountInString (truncateClean (Text h) previewLen) ≤ 101.
Proof.
  unfold preview_book. split.
  { rewrite !length_app, length_imap. simpl. lia. }
  intros i h Hi. eexists. split; [|split; [done|split]].
  - change (2 + i) with (S (S i)). cbn [app lookup list_lookup].
    apply lookup_app_l_Some.
    rewrite list_lookup_imap, Hi. simpl. f_equal.
    by rewrite !append_assoc.
  - rewrite !bts_app. intros Hin.
    repeat (apply elem_of_app in Hin as [Hin|Hin]).
    + revert Hin. by decide_closed.
    + by apply fmt_2d_no_newline in Hin.
    + revert Hin. by decide_closed.
    + by apply truncateClean_no_newline in Hin.
  - rewrite truncateClean_count. unfold previewLen. lia.
Qed.

Lemma preview_one_line_per_highlight_witness :
  ∃ body,
    preview_book book_blank !! (2 + 0) = Some (body +:+ nl) ∧
    body = "  " +:+ fmt_2d (0 + 1) +:+ ". " +:+
             truncateClean (String "010" EmptyString) previewLen ∧
    ("010"%char ∉ bts body) ∧
    utf8_RuneCountInString (truncateClean (String "010" EmptyString) previewLen) ≤ 101.
Proof.
  apply (proj2 (preview_one_line_per_highlight book_blank) 0
           (mkHighlight (String "010" EmptyString) "d")).
  reflexivity.
Defined.

(** * The format name *)

Lemma ascii_lower_idempotent c : ascii_lower (ascii_lower c) = ascii_lower c.
Proof. destruct c as [[] [] [] [] [] [] [] []]; reflexivity. Qed.

Lemma forallb_ascii (s : bytes) :
  Forall (λ c, (byte_val c < RuneSelf)%N) s →
  forallb (λ c, byte_val c <? RuneSelf)%N s = true.
Proof.
  induction 1 as [|c s Hc _ IH]; [done|]. simpl. rewrite IH.
  by apply N.ltb_lt in Hc as ->.
Qed.

(** X27. When the value of the format flag is ASCII, the name looked up is
    the value without the white space at its ends, its upper-case letters
    replaced by lower-case ones; looking it up a second time would change
    nothing. With the registry of the program the value is accepted exactly
    when that name is markdown or notion. *)
Theorem format_name_normalised rt (c : Context) :
  is_ascii (ctx_String c "format") →
  chosen_format rt c
    = str (ascii_lower <$> TrimSpace_bytes (bts (ctx_String c "format"))) ∧
  strings_ToLower (unicode_ToLower rt) (strings_TrimSpace (chosen_format rt c))
    = chosen_format rt c ∧
  (is_Some (GetFormatFactory (chosen_format rt c) initial_registry) ↔
   chosen_format rt c = "markdown" ∨ chosen_format rt c = "notion").
Proof.
  intros Hascii. unfold is_ascii in Hascii.
  destruct (strings_TrimSpace_spec (ctx_String c "format"))
    as (lead & trail & Hs & _ & _ & Hends).
  assert (Forall (λ c, (byte_val c < RuneSelf)%N)
            (bts (strings_TrimSpace (ctx_String c "format")))) as Htrim.
  { rewrite Hs in Hascii. by apply Forall_app in Hascii as [_ [? _]%Forall_app]. }
  assert (chosen_format rt c
    = str (ascii_lower <$> TrimSpace_bytes (bts (ctx_String c "format")))) as Hc.
  { unfold chosen_format, strings_ToLower. rewrite forallb_ascii by done.
    unfold strings_TrimSpace. by rewrite bts_str. }
  split; [done|]. split; [|apply initial_registry_names].
  set (t := TrimSpace_bytes (bts (ctx_String c "format"))) in *.
  assert (bts (strings_TrimSpace (ctx_String c "format")) = t) as Ht
    by (unfold strings_TrimSpace; by rewrite bts_str).
  rewrite Ht in *.
  assert (∀ x, (byte_val x < RuneSelf)%N →
               (byte_val (ascii_lower x) < RuneSelf)%N ∧
               (unicode_IsSpace (byte_val (ascii_lower x))
                = unicode_IsSpace (byte_val x))) as Hlow.
  { intros x. destruct x as [[] [] [] [] [] [] [] []]; vm_compute; try done;
      intros _; split; congruence. }
  assert (Forall (λ c, (byte_val c < RuneSelf)%N) (ascii_lower <$> t)) as Hascii'.
  { apply Forall_fmap. eapply Forall_impl; [done|]. intros x Hx. by apply Hlow. }
  rewrite Hc. unfold strings_ToLower, strings_TrimSpace. rewrite !bts_str.
  assert (TrimSpace_bytes (ascii_lower <$> t) = ascii_lower <$> t) as ->.
  { apply TrimSpace_fixed. destruct Hends as [E|[Hb He]].
    { left. apply (f_equal bts) in E. rewrite Ht in E. by rewrite E. }
    right. clear -Hb He Htrim Hlow.
    unfold starts_nonspace, ends_nonspace in *. split.
    - destruct t as [|x t]; [done|]. apply Forall_cons in Htrim as [Hx _].
      rewrite fmap_cons.
      rewrite DecodeRune_ascii in Hb by (by apply N.ltb_lt).
      rewrite DecodeRune_ascii by (apply N.ltb_lt; by apply Hlow).
      simpl in *. by rewrite (proj2 (Hlow x Hx)).
    - unfold utf8_DecodeLastRune in *. rewrite fmap_last.
      destruct (last t) as [x|] eqn:Hlast; [|done]. simpl.
      assert (byte_val x < RuneSelf)%N as Hx.
      { apply (proj1 (Forall_forall _ t) Htrim). by apply last_Some_elem_of. }
      apply N.ltb_lt in Hx as Hx'. rewrite Hx' in He.
      destruct (Hlow x Hx) as [Hx2%N.ltb_lt Hsp]. rewrite Hx2. simpl in *.
      by rewrite Hsp. }
  rewrite forallb_ascii by done. f_equal.
  rewrite <-list_fmap_compose. apply list_fmap_ext. intros ? x _. simpl.
  apply ascii_lower_idempotent.
Qed.

Lemma format_name_normalised_witness :
  chosen_format runtime_sample ctx_no_dir = "markdown" ∨
  chosen_format runtime_sample ctx_no_dir = "notion".
Proof.
  apply (proj2 (proj2 (format_name_normalised runtime_sample ctx_no_dir
           ltac:(unfold is_ascii; vm_compute; repeat constructor)))).
  replace (chosen_format runtime_sample ctx_no_dir) with "markdown"
    by (vm_compute; reflexivity).
  exists markdownFactory. reflexivity.
Defined.

(** * The factories read the flags they declare *)

(** X28. A factory of the program's registry builds the same exporter, or
    fails the same way, under two resolvers that agree on the flags the
    factory declares: [Build] reads no other flag. *)
Theorem build_reads_declared_flags name f (r1 r2 : string → string) :
  GetFormatFactory name initial_registry = Some f →
  (∀ fl, fl ∈ Flags f → r1 (flag_name fl) = r2 (flag_name fl)) →
  Build f r1 = Build f r2.
Proof.
  intros Hf Hagree.
  destruct (initial_registry_cases _ _ Hf) as [[_ ->]|[_ ->]].
  - assert (r1 "markdown-dir" = r2 "markdown-dir") as H1.
    { eapply (Hagree (mkFlag "markdown-dir" _ _)). by left. }
    simpl. by rewrite H1.
  - assert (r1 "notion-token" = r2 "notion-token") as H1.
    { eapply (Hagree (mkFlag "notion-token" _ _)). by left. }
    assert (r1 "notion-database" = r2 "notion-database") as H2.
    { eapply (Hagree (mkFlag "notion-database" _ _)). right. by left. }
    simpl. by rewrite H1, H2.
Qed.

Lemma build_reads_declared_flags_witness :
  Build markdownFactory resolver_md
  = Build markdownFactory
      (λ name, if decide (name = "markdown-dir") then "  out " else "ignored").
Proof.
  apply (build_reads_declared_flags "markdown" markdownFactory); [reflexivity|].
  intros fl Hfl. apply list_elem_of_singleton in Hfl as ->. reflexivity.
Defined.

(** * Schema discovery, by outcome *)

(** X29. [resolveTitlePropertyName] succeeds exactly when the URL is
    accepted, the schema request is answered with a status below 300 and the
    body decodes. On failure the client is left as it was, not marked
    resolved by the call; on success it is marked resolved and its title
    property is the one it had or the first property of type title of the
    schema; the token and the database id are kept. The call sends the schema
    request once, or nothing when the URL is refused. *)
Theorem resolveTitlePropertyName_outcome env (n : NotionClient) hist :
  let out := resolveTitlePropertyName env (n, hist) in
  (out.1 = None ↔
   ∃ resp props,
     url_ok env (databaseID n) = true ∧
     server env hist (GetDatabase (databaseID n)) = Reply resp ∧
     (StatusCode resp < 300)%Z ∧ json_database env (Body resp) = Some props) ∧
  (out.1 ≠ None → out.2.1 = n) ∧
  (out.1 = None →
     resolvedTitle out.2.1 = true ∧
     token out.2.1 = token n ∧ databaseID out.2.1 = databaseID n ∧
     (titlePropName out.2.1 = titlePropName n ∨
      ∃ resp props,
        server env hist (GetDatabase (databaseID n)) = Reply resp ∧
        json_database env (Body resp) = Some props ∧
        title_property props = Some (titlePropName out.2.1))) ∧
  (out.2.2 = hist ++ [GetDatabase (databaseID n)] ∨
   (out.2.2 = hist ∧ url_ok env (databaseID n) = false)).
Proof.
  unfold resolveTitlePropertyName, http_request, http_Do.
  destruct (url_ok env (databaseID n)) eqn:Hurl; cycle 1.
  { simpl. split; [split; [done|by intros (? & ? & ? & _)]|].
    split; [done|]. split; [done|by right]. }
  destruct (server env hist (GetDatabase (databaseID n))) as [|resp] eqn:Hs.
  { simpl. split; [split; [done|by intros (? & ? & _ & ? & _)]|].
    split; [done|]. split; [done|by left]. }
  destruct (Z.leb_spec 300 (StatusCode resp)) as [Hst|Hst].
  { simpl. split; [split; [done|]|].
    - intros (? & ? & _ & [= <-] & ? & _). lia.
    - split; [done|]. split; [done|by left]. }
  destruct (json_database env (Body resp)) as [props|] eqn:Hj; cycle 1.
  { simpl. split; [split; [done|]|].
    - intros (? & ? & _ & [= <-] & _ & ?). congruence.
    - split; [done|]. split; [done|by left]. }
  simpl. split; [split; [intros _; by exists resp, props|done]|].
  split; [done|]. split; [|by left]. intros _. repeat split.
  destruct (title_property props) as [name|] eqn:Ht; [|by left].
  case_decide; [|by left]. right. by exists resp, props.
Qed.

Lemma resolveTitlePropertyName_outcome_witness :
  (resolveTitlePropertyName env_schema_down fresh).2.1 = fresh.1.
Proof.
  apply (proj1 (proj2 (resolveTitlePropertyName_outcome env_schema_down fresh.1 []))).
  discriminate.
Defined.

(** * The names the sanitizer leaves alone *)

(** X30. [sanitizeFilename] returns its argument unchanged exactly when the
    argument is not empty, has no white space and has none of the nine
    replaced characters: these names are the fixed points of the sanitizer,
    and they are also all the names it can return. *)
Theorem sanitizeFilename_fixed_points (s : string) :
  (sanitizeFilename s = s ↔
   s ≠ EmptyString ∧ nospace (bts s) ∧ ∀ x, x ∈ bts s → x ∉ hostile) ∧
  (∀ t, sanitizeFilename t = s → sanitizeFilename s = s).
Proof.
  split; [split|].
  - intros Hs. rewrite <-Hs. rewrite sanitizeFilename_unfold.
    case_decide as Hj.
    + split; [done|]. split; [apply nospace_book|].
      apply Forall_forall. decide_closed.
    + split; [done|]. split; [apply sanitize_joined_nospace|].
      intros x. apply sanitize_joined_clean.
  - intros (Hne & Hns & Hclean). rewrite sanitizeFilename_unfold.
    rewrite sanitize_joined_fixed by done. by rewrite decide_False.
  - intros t <-. apply sanitizeFilename_idempotent.
Qed.

Lemma sanitizeFilename_fixed_points_witness : sanitizeFilename "Dune-1965" = "Dune-1965".
Proof.
  apply (proj2 (proj1 (sanitizeFilename_fixed_points "Dune-1965"))).
  split; [done|]. split.
  - unfold nospace. vm_compute. repeat constructor.
  - apply Forall_forall. decide_closed.
Defined.

(** * The grouping, against its specification on the raw rows *)

Lemma rows_of_title_cons t (row : SqlRow) rows :
  rows_of_title t (row :: rows) =
  match row with
  | (Some title, Some author, Some text, Some date) =>
    if decide (title = t) then (title, author, text, date) :: rows_of_title t rows
    else rows_of_title t rows
  | _ => rows_of_title t rows
  end.
Proof.
  change (row :: rows) with ([row] ++ rows). rewrite rows_of_title_app.
  destruct row as [[[[title|] [author|]] [text|]] [date|]]; try done.
  unfold rows_of_title at 1. unfold scanned. simpl. rewrite filter_cons. simpl.
  unfold row_title. simpl. by case_decide.
Qed.

Lemma rows_of_title_raw t rows :
  row_highlight <$> rows_of_title t rows = spec_highlights t rows ∧
  row_author <$> head (rows_of_title t rows) = spec_author t rows.
Proof.
  induction rows as [|row rows [IH1 IH2]]; [done|].
  rewrite rows_of_title_cons.
  destruct row as [[[[title|] [author|]] [text|]] [date|]]; simpl; try done.
  case_decide; [|done]. split; [|done]. rewrite fmap_cons. by rewrite IH1.
Qed.

(** C3, as amended. For every sequence of raw rows the grouping returns a
    Book sequence whose titles are strictly ascending in byte order, hence
    one Book per title. The titles are those of the rows that have no NULL
    column; the author of a Book is the author of the first such row with its
    title; its highlights are the texts and dates of those rows, in the
    order of the input. When no row has a NULL column this is the
    specification on the raw rows themselves: a Book for each title that
    occurs, with the author of the first row seen with the title. *)
Theorem group_books_correct (rows : list SqlRow) :
  ∃ books,
    group_books rows = Some books ∧
    StronglySorted string_lt (Title <$> books) ∧
    NoDup (Title <$> books) ∧
    (∀ t, t ∈ Title <$> books ↔
          ∃ author text date, (Some t, Some author, Some text, Some date) ∈ rows) ∧
    (∀ b, b ∈ books →
       spec_author (Title b) rows = Some (Author b) ∧
       Highlights b = spec_highlights (Title b) rows ∧
       Highlights b ≠ []) ∧
    (Forall no_null rows →
       (∀ t, t ∈ Title <$> books ↔ Some t ∈ raw_title <$> rows) ∧
       (∀ i row b,
          rows !! i = Some row →
          (∀ j row', j < i → rows !! j = Some row' → raw_title row' ≠ raw_title row) →
          b ∈ books → raw_title row = Some (Title b) →
          raw_author row = Some (Author b))).
Proof.
  destruct (group_books_spec rows) as (titles & books & Hb & -> & Hs & Hin & HF).
  exists books. split; [done|]. split; [done|].
  assert (∀ t, t ∈ Title <$> books ↔
          ∃ author text date, (Some t, Some author, Some text, Some date) ∈ rows) as Htitles.
  { intros t. rewrite Hin, rows_of_title_nonempty, list_elem_of_fmap. split.
    - intros ([[[t' a] x] d] & -> & Hr%scanned_elem). by exists a, x, d.
    - intros (a & x & d & Hr%scanned_elem). by exists (t, a, x, d). }
  assert (∀ b, b ∈ books →
       spec_author (Title b) rows = Some (Author b) ∧
       Highlights b = spec_highlights (Title b) rows ∧
       Highlights b ≠ []) as Hbooks.
  { intros b Hbin. apply (group_books_lookup _ _ _ Hb) in Hbin.
    destruct (rows_of_title_raw (Title b) rows) as [Hh Ha].
    destruct (rows_of_title (Title b) rows) as [|r rs]; [done|].
    injection Hbin as Hbin. rewrite <-Ha, <-Hh. rewrite <-Hbin. simpl.
    by repeat split. }
  split; [|split; [done|split; [done|]]].
  { clear -Hs. induction Hs as [|t ts Hs IH Ht]; constructor; [|done].
    intros Hin. eapply Forall_forall in Ht as [_ Hne]; done. }
  intros Hnn. split.
  - intros t. rewrite Htitles, list_elem_of_fmap. split.
    + intros (a & x & d & Hr). by exists (Some t, Some a, Some x, Some d).
    + intros (row & Ht & Hr).
      pose proof (proj1 (Forall_forall _ _) Hnn row Hr) as (t' & a & x & d & Hrow).
      subst row.
      unfold raw_title in Ht. simpl in Ht. injection Ht as ->. by exists a, x, d.
  - intros i row b Hi Hfirst Hbin Ht.
    destruct (Hbooks b Hbin) as (Ha & _). rewrite <-Ha. clear Ha Hbin Hbooks Htitles.
    clear Hb Hs Hin HF. revert i Hi Hfirst.
    induction rows as [|row0 rows IH]; intros i Hi Hfirst; [done|].
    apply Forall_cons in Hnn as [(t0 & a0 & x0 & d0 & ->) Hnn].
    destruct i as [|i].
    + injection Hi as <-. unfold raw_title in Ht. simpl in *. injection Ht as ->.
      by rewrite decide_True.
    + simpl in Hi. simpl. rewrite decide_False.
      * apply (IH Hnn i Hi). intros j row' Hj Hr. apply (Hfirst (S j)); [lia|done].
      * intros ->. apply (Hfirst 0 (Some (Title b), Some a0, Some x0, Some d0));
          [lia|done|]. by rewrite Ht.
Qed.

Lemma group_books_correct_witness :
  "B" ∈ ["A"; "B"] ↔ Some "B" ∈ raw_title <$> run_query db_three 0.
Proof.
  destruct (group_books_correct (run_query db_three 0))
    as (books & Hb & _ & _ & _ & _ & Hraw).
  assert (books = [mkBook "A" EmptyString
                     [mkHighlight "one" "2024-01-01T00:00:00";
                      mkHighlight "two" "2024-01-01T00:00:00";
                      mkHighlight "three" "2024-01-01T00:00:00"];
                   mkBook "B" EmptyString [mkHighlight "four" "2024-01-01T00:00:00"]])
    as ->.
  { vm_compute in Hb. by injection Hb as <-. }
  apply Hraw. vm_compute. repeat constructor; by eexists _, _, _, _.
Defined.

(** C3 as stated fails on raw rows with a NULL column, which the loop skips:
    of three rows, the first and the third without a date, the title of the
    third gets no Book, and the Book of the first title has the author of
    the second row, not of the row seen first. *)
Lemma raw_rows_counterexample :
  ¬ (∀ rows books,
       group_books rows = Some books →
       (∀ t, Some t ∈ raw_title <$> rows → t ∈ Title <$> books) ∧
       (∀ i row b,
          rows !! i = Some row →
          (∀ j row', j < i → rows !! j = Some row' → raw_title row' ≠ raw_title row) →
          b ∈ books → raw_title row = Some (Title b) →
          raw_author row = Some (Author b))).
Proof.
  intros H.
  destruct (H (run_query db_null_dates 0) [mkBook "A" "Y" [mkHighlight "t2" "d"]] eq_refl)
    as [Htitles _].
  assert ("B" ∈ Title <$> [mkBook "A" "Y" [mkHighlight "t2" "d"]]) as Hin.
  { apply Htitles. vm_compute. right. right. left. }
  apply list_elem_of_singleton in Hin. discriminate Hin.
Qed.

(** * The Markdown file, against its specification *)

Lemma ReplaceAll_newline_map (s : bytes) :
  Replacer_bytes [("010"%char, " ")] s = newline_to_space <$> s.
Proof.
  unfold Replacer_bytes.
  set (f := λ c : ascii, match replacer_lookup [("010"%char, " ")] c with
                         | Some n => bts n | None => [c] end).
  induction s as [|c s IH]; [done|].
  rewrite bind_cons, IH, fmap_cons. unfold f at 1. cbn [replacer_lookup].
  unfold newline_to_space at 2. by repeat case_decide.
Qed.

Lemma rendered_text_quote (h : Highlight) :
  ¬ whitespace_only (Text h) → rendered_text (Text h) (quote_text h).
Proof.
  intros Hh.
  destruct (strings_TrimSpace_spec (Text h)) as (lead & trail & Hs & Hl & Ht & Hends).
  destruct Hends as [E|[Hstart Hend]]; [by apply strings_TrimSpace_empty_iff in E|].
  exists lead, (bts (strings_TrimSpace (Text h))), trail.
  split; [done|]. split; [done|]. split; [done|]. split.
  { intros E. apply Hh, strings_TrimSpace_empty_iff, bts_inj. by rewrite E. }
  split; [done|]. split; [done|].
  unfold quote_text, strings_ReplaceAll, Replacer_Replace.
  by rewrite bts_str, ReplaceAll_newline_map.
Qed.

Lemma rendered_file_spec_content (b : Book) : rendered_file b (spec_content b).
Proof.
  exists (quote_text <$> filter (λ h, ¬ whitespace_only (Text h)) (Highlights b)).
  split.
  - apply Forall2_fmap_r, Forall_Forall2_diag, Forall_forall.
    intros h [Hh _]%list_elem_of_filter. by apply rendered_text_quote.
  - unfold spec_content. by rewrite filter_trimmed, <-!list_fmap_compose.
Qed.

(** C5. The file the Markdown exporter writes for a book is the heading
    [# title (author)], or [# title] when the author is empty, and a blank
    line, then, for each highlight that is not made of white space only, in
    order, [> text] and a blank line, where [text] is the highlight without
    the white space at its two ends and with each newline replaced by a
    space; the other highlights are skipped. This holds for the book just
    written, and after a successful export for every book that no later book
    of the run shares its path with. For the book T by A with the highlights
    x and y the file is the heading [# T (A)], a blank line and the two quote
    paragraphs, without the parenthesis when the author is empty; for the
    highlights of [book_ws], with white space around, a newline inside and a
    blank one among them, it is the heading and the paragraphs [> a b] and
    [> c]. *)
Theorem markdown_file_content :
  (∀ os Dir (fs : FS) b,
     Create_fails os (markdown_path os Dir b) = false →
     ∃ content,
       (export_book os Dir fs b).1 !! markdown_path os Dir b = Some content ∧
       rendered_file b content) ∧
  (∀ os Dir (fs fs' : FS) books i b,
     MarkdownFormat_Export os Dir fs books = (fs', None) →
     books !! i = Some b →
     (∀ j b', i < j → books !! j = Some b' →
              markdown_path os Dir b' ≠ markdown_path os Dir b) →
     ∃ content,
       fs' !! markdown_path os Dir b = Some content ∧ rendered_file b content) ∧
  (∀ os Dir (fs : FS) author d1 d2,
     let b := mkBook "T" author [mkHighlight "x" d1; mkHighlight "y" d2] in
     Create_fails os (markdown_path os Dir b) = false →
     (author = "A" →
      (export_book os Dir fs b).1 !! markdown_path os Dir b
      = Some ("# T (A)" +:+ nl +:+ nl +:+ "> x" +:+ nl +:+ nl +:+ "> y" +:+ nl +:+ nl)) ∧
     (author = EmptyString →
      (export_book os Dir fs b).1 !! markdown_path os Dir b
      = Some ("# T" +:+ nl +:+ nl +:+ "> x" +:+ nl +:+ nl +:+ "> y" +:+ nl +:+ nl))) ∧
  (∀ os Dir (fs : FS),
     Create_fails os (markdown_path os Dir book_ws) = false →
     (export_book os Dir fs book_ws).1 !! markdown_path os Dir book_ws
     = Some ("# T" +:+ nl +:+ nl +:+ "> a b" +:+ nl +:+ nl +:+ "> c" +:+ nl +:+ nl)).
Proof.
  split; [|split; [|split]].
  - intros os Dir fs b Hc. exists (spec_content b).
    rewrite export_book_insert by done. split; [apply lookup_insert_eq|].
    apply rendered_file_spec_content.
  - intros os Dir fs fs' books i b Hex Hi Hlast. exists (spec_content b).
    split; [|apply rendered_file_spec_content].
    unfold MarkdownFormat_Export in Hex.
    repeat case_match; simplify_eq/=. by eapply export_books_last.
  - intros os Dir fs author d1 d2 b Hc. rewrite export_book_insert by done.
    rewrite lookup_insert_eq. split; intros ->; reflexivity.
  - intros os Dir fs Hc. rewrite export_book_insert by done.
    rewrite lookup_insert_eq. reflexivity.
Qed.

Lemma markdown_file_content_witness :
  ∃ content,
    (MarkdownFormat_Export os_ok "out" ∅ [book_TA; book_ws]).1
      !! markdown_path os_ok "out" book_ws = Some content ∧
    rendered_file book_ws content.
Proof.
  apply (proj1 (proj2 markdown_file_content) os_ok "out" ∅ _ [book_TA; book_ws] 1 book_ws).
  - vm_compute. reflexivity.
  - reflexivity.
  - intros [|[|j]] b' Hlt Hj; [lia|lia|discriminate].
Defined.

